(** * Velura: the on-demand trailer cache (catalog, content store,
      acquisition coordinator, stream server)

    A shallow embedding of

    - [backend/services/storageManager.js]  (class [StorageManager]),
    - [backend/services/downloadService.js] (class [DownloadService]),
    - [backend/routes/localTrailerRoutes.js] (function [streamVideoFile]),
    - [backend/models/TrailerStorage.js]    (the catalog schema),

    together with the properties of the cache layer that the design
    document states about them. *)

From Stdlib Require Import ZArith QArith_base Ascii DecimalString DecimalN Sorted Lia.
From stdpp Require Import base option list strings gmap sorting.

Local Open Scope Z_scope.

(** ** JavaScript values used by the cache layer *)

(** A JavaScript number that is either an integer or [NaN].  Every number
    the modelled code computes with is a file size, a byte offset or a
    time stamp, all of them integers; [Int z] is exact for [z] within the
    safe range [MAX_SAFE_INTEGER]. *)
Inductive num : Type :=
| NaN
| Int (z : Z).

Definition MAX_SAFE_INTEGER : Z := 2 ^ 53 - 1.

Definition num_sub (a b : num) : num :=
  match a, b with
  | Int x, Int y => Int (x - y)
  | _, _ => NaN
  end.

Definition num_add (a b : num) : num :=
  match a, b with
  | Int x, Int y => Int (x + y)
  | _, _ => NaN
  end.

Module JsString.

(** [String(n)] for a non-negative integer: its decimal digits. *)
Definition of_N (n : N) : string :=
  NilZero.string_of_uint (N.to_uint n).

(** Template-literal conversion [`${n}`] of a number. *)
Definition of_num (n : num) : string :=
  match n with
  | NaN => "NaN"
  | Int z =>
      if z <? 0 then String "-" (of_N (Z.to_N (- z))) else of_N (Z.to_N z)
  end.

Definition is_digit (c : ascii) : bool :=
  let n := N_of_ascii c in ((48 <=? n) && (n <=? 57))%N.

(** The white space [parseInt] skips, restricted to the ASCII range:
    TAB, LF, VT, FF, CR and SP. *)
Definition is_space (c : ascii) : bool :=
  let n := N_of_ascii c in
  (((9 <=? n) && (n <=? 13)) || (n =? 32))%N.

Fixpoint skip_space (s : string) : string :=
  match s with
  | String c r => if is_space c then skip_space r else s
  | EmptyString => EmptyString
  end.

Fixpoint take_digits (s : string) : string :=
  match s with
  | String c r => if is_digit c then String c (take_digits r) else EmptyString
  | EmptyString => EmptyString
  end.

(** [parseInt(s, 10)]: leading white space, an optional sign, then the
    longest run of decimal digits; [NaN] when that run is empty. *)
Definition parseInt (s : string) : num :=
  let s1 := skip_space s in
  let '(neg, s2) :=
    match s1 with
    | String "-" r => (true, r)
    | String "+" r => (false, r)
    | _ => (false, s1)
    end in
  match take_digits s2 with
  | EmptyString => NaN
  | ds =>
      match NilEmpty.uint_of_string ds with
      | Some d =>
          let v := Z.of_N (N.of_uint d) in Int (if neg then - v else v)
      | None => NaN
      end
  end.

(** [s.substring(n)] *)
Fixpoint drop_chars (n : nat) (s : string) : string :=
  match n, s with
  | S n', String _ r => drop_chars n' r
  | _, _ => s
  end.

(** [s.startsWith(pat)] *)
Fixpoint starts_with (pat s : string) : bool :=
  match pat, s with
  | EmptyString, _ => true
  | String a p, String b r => Ascii.eqb a b && starts_with p r
  | String _ _, EmptyString => false
  end.

(** [s.replace(/pat/, "")] for a pattern without metacharacters: the
    first occurrence of [pat] is removed. *)
Fixpoint remove_first (pat s : string) : string :=
  if starts_with pat s then drop_chars (String.length pat) s
  else match s with
       | String c r => String c (remove_first pat r)
       | EmptyString => EmptyString
       end.

(** [s.replace(pat, rep)] for a string pattern and a replacement without
    [$]: the first occurrence of [pat] is replaced. *)
Fixpoint replace_first (pat rep s : string) : string :=
  if starts_with pat s then rep +:+ drop_chars (String.length pat) s
  else match s with
       | String c r => String c (replace_first pat rep r)
       | EmptyString => EmptyString
       end.

(** [s.split(sep)] for a one-character separator. *)
Fixpoint split (sep : ascii) (s : string) : list string :=
  match s with
  | EmptyString => [EmptyString]
  | String c r =>
      if Ascii.eqb c sep then EmptyString :: split sep r
      else match split sep r with
           | h :: t => String c h :: t
           | [] => [String c EmptyString]
           end
  end.

(** Truthiness of [parts[i]]: [undefined] and the empty string are falsy. *)
Definition truthy (o : option string) : bool :=
  match o with
  | Some (String _ _) => true
  | _ => false
  end.

End JsString.

(** ** The file system *)

(** Regular files by path; a file is its sequence of bytes.  A path is
    the string that the code hands to [fs], normalized.  Two strings are
    two files: no path is a link to another, and none names from the root
    a file that another names from the working directory. *)
Abbreviation byte := Byte.byte.
Abbreviation filesystem := (gmap string (list byte)).

Definition existsSync (fs : filesystem) (p : string) : bool :=
  bool_decide (is_Some (fs !! p)).

(** ** Stream server: [streamVideoFile] *)

Module StreamServer.

(** What ends up on the response object: either a head written with
    [res.writeHead] followed by the piped bytes, or a JSON body sent with
    [res.status(..).json(..)]. *)
Inductive response : Type :=
| Piped (status : Z) (head : list (string * string)) (body : list byte)
| Json (status : Z) (fields : list (string * string)).

Definition status_of (r : response) : Z :=
  match r with
  | Piped st _ _ => st
  | Json st _ => st
  end.

Definition body_of (r : response) : list byte :=
  match r with
  | Piped _ _ b => b
  | Json _ _ => []
  end.

Fixpoint assoc (name : string) (h : list (string * string)) : option string :=
  match h with
  | [] => None
  | (k, v) :: t => if String.eqb k name then Some v else assoc name t
  end.

Definition header (name : string) (r : response) : option string :=
  match r with
  | Piped _ h _ => assoc name h
  | Json _ _ => None
  end.

(** [fs.createReadStream(path, {start, end})]: Node validates that both
    bounds are integers in [0, MAX_SAFE_INTEGER] and that [start <= end],
    throwing synchronously otherwise ([None]); the stream then yields the
    bytes at offsets [start..end], cut at the end of the file. *)
Definition createReadStream (content : list byte) (start end_ : num)
  : option (list byte) :=
  match start, end_ with
  | Int s, Int e =>
      if (0 <=? s) && (s <=? MAX_SAFE_INTEGER) &&
         (0 <=? e) && (e <=? MAX_SAFE_INTEGER) && (s <=? e)
      then Some (take (Z.to_nat (e - s + 1)) (drop (Z.to_nat s) content))
      else None
  | _, _ => None
  end.

Definition stream_error : response :=
  Json 500 [("success", "false"); ("error", "Failed to stream video")].

(** [range] is [req.headers.range]. *)
Definition streamVideoFile (fs : filesystem) (filePath : string)
    (range : option string) : response :=
  match fs !! filePath with
  | None => (* throw new Error('Video file not found'), caught below *)
      stream_error
  | Some content =>
      let fileSize := Int (Z.of_nat (length content)) in
      match range with
      | Some (String c r as hdr) =>
          let parts := JsString.split "-" (JsString.remove_first "bytes=" hdr) in
          let start := JsString.parseInt (default EmptyString (parts !! 0%nat)) in
          let end_ :=
            if JsString.truthy (parts !! 1%nat)
            then JsString.parseInt (default EmptyString (parts !! 1%nat))
            else num_sub fileSize (Int 1) in
          let chunksize := num_add (num_sub end_ start) (Int 1) in
          match createReadStream content start end_ with
          | Some bytes =>
              Piped 206
                [("Content-Range",
                   "bytes " +:+ JsString.of_num start +:+ "-" +:+
                   JsString.of_num end_ +:+ "/" +:+ JsString.of_num fileSize);
                 ("Accept-Ranges", "bytes");
                 ("Content-Length", JsString.of_num chunksize);
                 ("Content-Type", "video/mp4")]
                bytes
          | None => stream_error
          end
      | _ =>
          Piped 200
            [("Content-Length", JsString.of_num fileSize);
             ("Content-Type", "video/mp4");
             ("Cache-Control", "public, max-age=604800")]
            content
      end
  end.

End StreamServer.

(** ** The catalog: [models/TrailerStorage.js] *)

(** One document of the [TrailerStorage] collection.  Dates are
    milliseconds since the epoch.  [localPath] is [None] for the [null]
    that eviction assigns.  [format] and [extension], which [saveVideo]
    assigns, are not paths of the schema and are never stored. *)
Record TrailerStorage : Type := {
  contentId : string;
  tmdbId : string;
  mediaType : string;
  title : string;
  localPath : option string;
  fileSizeMB : Q;
  videoQuality : string;
  accessCount : Z;
  lastAccessed : Z;
  priority : Z;
  isActive : bool;
  createdAt : Z;
  updatedAt : Z;
}.

(** The collection, in its natural (storage) order.  [contentId] is a
    unique index and identifies a document. *)
Abbreviation collection := (list TrailerStorage).

Definition has_id (cid : string) (r : TrailerStorage) : bool :=
  String.eqb (contentId r) cid.

(** [TrailerStorage.findOne({ contentId })] *)
Definition findOne (c : collection) (cid : string) : option TrailerStorage :=
  List.find (has_id cid) c.

(** [TrailerStorage.findOne({ contentId, isActive: true })] *)
Definition findOne_active (c : collection) (cid : string) : option TrailerStorage :=
  List.find (λ r, has_id cid r && isActive r) c.

(** Assignments to the paths of a fetched document. *)
Definition with_isActive (b : bool) (r : TrailerStorage) : TrailerStorage :=
  {| contentId := contentId r; tmdbId := tmdbId r; mediaType := mediaType r;
     title := title r; localPath := localPath r; fileSizeMB := fileSizeMB r;
     videoQuality := videoQuality r; accessCount := accessCount r;
     lastAccessed := lastAccessed r; priority := priority r;
     isActive := b; createdAt := createdAt r; updatedAt := updatedAt r |}.

Definition with_localPath (p : option string) (r : TrailerStorage) : TrailerStorage :=
  {| contentId := contentId r; tmdbId := tmdbId r; mediaType := mediaType r;
     title := title r; localPath := p; fileSizeMB := fileSizeMB r;
     videoQuality := videoQuality r; accessCount := accessCount r;
     lastAccessed := lastAccessed r; priority := priority r;
     isActive := isActive r; createdAt := createdAt r; updatedAt := updatedAt r |}.

Definition with_access (count last : Z) (r : TrailerStorage) : TrailerStorage :=
  {| contentId := contentId r; tmdbId := tmdbId r; mediaType := mediaType r;
     title := title r; localPath := localPath r; fileSizeMB := fileSizeMB r;
     videoQuality := videoQuality r; accessCount := count;
     lastAccessed := last; priority := priority r;
     isActive := isActive r; createdAt := createdAt r; updatedAt := updatedAt r |}.

Definition with_stored (p : string) (mb : Q) (now : Z) (r : TrailerStorage)
  : TrailerStorage :=
  {| contentId := contentId r; tmdbId := tmdbId r; mediaType := mediaType r;
     title := title r; localPath := Some p; fileSizeMB := mb;
     videoQuality := videoQuality r; accessCount := accessCount r;
     lastAccessed := lastAccessed r; priority := priority r;
     isActive := true; createdAt := createdAt r; updatedAt := now |}.

(** [doc.save()] of a fetched document writes the assigned paths into the
    stored document. *)
Definition save_paths (f : TrailerStorage → TrailerStorage) (cid : string)
    (c : collection) : collection :=
  map (λ r, if has_id cid r then f r else r) c.

(** The validation that [doc.save()] runs before it writes.  The schema
    declares [localPath: { type: String, required: true }], and [null]
    does not satisfy [required]; the other required paths are never
    cleared by the services. *)
Definition validates (r : TrailerStorage) : bool :=
  bool_decide (is_Some (localPath r)).

(** The [metadata] argument of [saveVideo]; [md_priority] is [None] when the
    caller leaves [priority] undefined. *)
Record metadata : Type := {
  md_tmdbId : string;
  md_mediaType : string;
  md_title : string;
  md_priority : option Z;
}.

(** [metadata.priority || 1] *)
Definition priority_or_1 (m : metadata) : Z :=
  match md_priority m with
  | Some 0 | None => 1
  | Some p => p
  end.

(** ** The world the services act on *)

(** The collection as committed in the database, the files on disk and the
    [locks] map of the one [DownloadService] instance. *)
Record world : Type := {
  catalog : collection;
  files : filesystem;
  locks : gset string;
}.

Definition set_catalog (c : collection) (w : world) : world :=
  {| catalog := c; files := files w; locks := locks w |}.

Definition set_files (f : filesystem) (w : world) : world :=
  {| catalog := catalog w; files := f; locks := locks w |}.

Definition set_locks (l : gset string) (w : world) : world :=
  {| catalog := catalog w; files := files w; locks := l |}.

(** [fs.existsSync(p)] for a path that may be [null]. *)
Definition existsSync_opt (fs : filesystem) (p : option string) : bool :=
  match p with
  | Some p => existsSync fs p
  | None => false
  end.

(** [if (fs.existsSync(p)) fs.unlinkSync(p)] *)
Definition unlink_if_exists (p : string) (fs : filesystem) : filesystem :=
  if existsSync fs p then delete p fs else fs.

(** What the services throw. *)
Inductive error : Type :=
| TempFileNotFound (tempFilePath : string)
| DownloadedFileNotFound
| LockTimeout (cid : string)
| CouldNotAcquireLock (cid : string)
| DbError      (* a rejected Mongoose call *)
| FsError      (* a failed file-system call *)
| ExecError.   (* the yt-dlp process failed or timed out *)

Inductive result (A : Type) : Type :=
| Ok (a : A)
| Throw (e : error).
Arguments Ok {A} a.
Arguments Throw {A} e.

(** ** Content store: [services/storageManager.js] *)

(** The process settings read at the top of the module, and the store
    directory chosen by [init()], as [path.join] leaves it: normalized,
    without a slash at its end (of the fallback [./temp-trailers] the
    join drops the leading [./]).  The manager is modelled after [init()]
    has run (the server awaits it before it listens), so that
    [ensureInitialized()] returns. *)
Record config : Type := {
  trailerPath : string;
  MAX_STORAGE_GB : Z;
  MAX_VIDEOS : Z;
}.

Module StorageManager.

(** [getVideoPath]: [path.join(this.trailerPath, `${contentId}.mp4`)].
    For an id without a path separator the join is the concatenation
    below.  For an id with one, [path.join] normalizes the result, which
    may then be the path of another id; such ids are outside this
    definition, and the statements that depend on the path of an id say
    so. *)
Definition getVideoPath (cfg : config) (cid : string) : string :=
  trailerPath cfg +:+ "/" +:+ cid +:+ ".mp4".

Definition videoExists (cfg : config) (cid : string) (w : world) : bool :=
  existsSync (files w) (getVideoPath cfg cid).

(** *** [getVideoInfo] *)

(** Which of the awaited Mongoose calls of one [getVideoInfo] reject. *)
Record gv_faults : Type := {
  gv_find : bool;
  gv_save : bool;
}.

Record video_info : Type := {
  vi_path : string;
  vi_record : TrailerStorage;
}.

Definition getVideoInfo (f : gv_faults) (now : Z) (cid : string) (w : world)
  : option video_info * world :=
  if gv_find f then (None, w)                       (* catch: return null *)
  else
    match findOne_active (catalog w) cid with
    | None => (None, w)
    | Some record =>
        match localPath record with
        | Some p =>
            if existsSync (files w) p then
              (* record.accessCount += 1; record.lastAccessed = new Date();
                 await record.save() *)
              let count := accessCount record + 1 in
              if gv_save f then (None, w)           (* catch: return null *)
              else
                (Some {| vi_path := p;
                         vi_record := with_access count now record |},
                 set_catalog
                   (save_paths (with_access count now) cid (catalog w)) w)
            else
              (* record.isActive = false; await record.save(); return null *)
              if gv_save f then (None, w)
              else
                (None,
                 set_catalog (save_paths (with_isActive false) cid (catalog w)) w)
        | None =>                                   (* existsSync(null) is false *)
            if gv_save f then (None, w)
            else
              (None,
               set_catalog (save_paths (with_isActive false) cid (catalog w)) w)
        end
    end.

(** *** [cleanup] *)

(** What the environment decides in one [cleanup]: whether the query
    fails; per candidate (by its [contentId]) whether the [unlinkSync]
    and the [save] fail; and the order in which the database returns
    documents that agree on both sort keys, which the query leaves open
    (the document with the smaller [cl_order] comes first). *)
Record cl_faults : Type := {
  cl_find : bool;
  cl_unlink : string → bool;
  cl_save : string → bool;
  cl_order : TrailerStorage → Z;
}.

(** [.sort({ lastAccessed: 1, accessCount: 1 })]: [a] may come before [b]. *)
Definition sort_le (f : cl_faults) (a b : TrailerStorage) : bool :=
  (lastAccessed a <? lastAccessed b) ||
  ((lastAccessed a =? lastAccessed b) &&
   ((accessCount a <? accessCount b) ||
    ((accessCount a =? accessCount b) && (cl_order f a <=? cl_order f b)))).

Fixpoint sort_insert (f : cl_faults) (x : TrailerStorage)
    (l : list TrailerStorage) : list TrailerStorage :=
  match l with
  | [] => [x]
  | y :: t => if sort_le f x y then x :: l else y :: sort_insert f x t
  end.

(** The sort of the query: by the two keys, and among documents that
    agree on both in the order the database chooses. *)
Definition sort_docs (f : cl_faults) (l : list TrailerStorage)
  : list TrailerStorage :=
  foldr (sort_insert f) [] l.

(** The filter [{ isActive: true, priority: 1 }]. *)
Definition is_candidate (r : TrailerStorage) : bool :=
  isActive r && (priority r =? 1).

(** [TrailerStorage.find({ isActive: true, priority: 1 })
      .sort({ lastAccessed: 1, accessCount: 1 }).limit(10)] *)
Definition candidates (f : cl_faults) (c : collection) : list TrailerStorage :=
  take 10 (sort_docs f (List.filter is_candidate c)).

(** The body of the [for] loop, with its [try]/[catch]. *)
Definition evict (f : cl_faults) (st : nat * world) (video : TrailerStorage)
  : nat * world :=
  let '(deletedCount, w) := st in
  let cid := contentId video in
  if existsSync_opt (files w) (localPath video) && cl_unlink f cid then
    (deletedCount, w)                               (* unlinkSync throws *)
  else
    let w1 :=
      match localPath video with
      | Some p => set_files (unlink_if_exists p (files w)) w
      | None => w
      end in
    (* video.isActive = false; video.localPath = null; await video.save() *)
    let doc := with_localPath None (with_isActive false video) in
    if negb (validates doc) || cl_save f cid then
      (deletedCount, w1)                            (* save() rejects *)
    else
      (S deletedCount,
       set_catalog
         (save_paths (λ r, with_localPath None (with_isActive false r)) cid
            (catalog w1)) w1).

Definition cleanup (f : cl_faults) (w : world) : nat * world :=
  if cl_find f then (0%nat, w)                      (* catch: return 0 *)
  else foldl (evict f) (0%nat, w) (candidates f (catalog w)).

(** *** [getStorageStats] and [checkAndCleanup] *)

Fixpoint ends_with_list (suffix s : list ascii) : bool :=
  if bool_decide (s = suffix) then true
  else match s with
       | [] => false
       | _ :: r => ends_with_list suffix r
       end.

(** [s.endsWith(suffix)] *)
Definition ends_with (suffix s : string) : bool :=
  ends_with_list (String.list_ascii_of_string suffix)
    (String.list_ascii_of_string s).

Fixpoint has_slash (s : string) : bool :=
  match s with
  | EmptyString => false
  | String c r => Ascii.eqb c "/" || has_slash r
  end.

(** [p] is an entry of [readdirSync(trailerPath)] that passes the
    [.mp4] filter. *)
Definition listed (cfg : config) (p : string) : bool :=
  let dir := trailerPath cfg +:+ "/" in
  JsString.starts_with dir p &&
  (let name := JsString.drop_chars (String.length dir) p in
   negb (has_slash name) && ends_with ".mp4" name).

Record storage_stats : Type := {
  fileCount : Z;
  totalSize : Z;
}.

Definition getStorageStats (cfg : config) (w : world) : storage_stats :=
  let store := filter (λ kv, listed cfg kv.1 = true) (map_to_list (files w)) in
  {| fileCount := Z.of_nat (length store);
     totalSize := foldr (λ kv acc, Z.of_nat (length kv.2) + acc) 0 store |}.

(** [stats.usedGB > MAX_STORAGE_GB * 0.9 || stats.fileCount > MAX_VIDEOS * 0.9],
    with [usedGB = totalSize / 2^30], compared exactly. *)
Definition near_limit (cfg : config) (st : storage_stats) : bool :=
  (9 * MAX_STORAGE_GB cfg * 2 ^ 30 <? 10 * totalSize st) ||
  (9 * MAX_VIDEOS cfg <? 10 * fileCount st).

Definition checkAndCleanup (cfg : config) (f : cl_faults) (w : world) : world :=
  if near_limit cfg (getStorageStats cfg w) then (cleanup f w).2 else w.

(** *** [saveVideo] *)

(** Where the [try] block of one [saveVideo] fails, if anywhere; and
    whether [session.abortTransaction()] in the [catch] block rejects. *)
Inductive sv_fault : Type :=
| SvNone
| SvCopy          (* fs.copyFileSync *)
| SvSession       (* mongoose.startSession *)
| SvFind          (* TrailerStorage.findOne(..).session(session) *)
| SvSave          (* existing.save / storageRecord.save *)
| SvCommit.       (* session.commitTransaction *)

Record sv_faults : Type := {
  sv_fault_at : sv_fault;
  sv_abort : bool;
  sv_cleanup : cl_faults;
}.

Record save_result : Type := {
  sr_path : string;
  sr_sizeMB : Q;
}.

Definition sizeMB (size : nat) : Q := Qmake (Z.of_nat size) 1048576.

(** The document [new TrailerStorage({..})] with the schema defaults. *)
Definition new_record (cid : string) (m : metadata) (p : string) (mb : Q)
    (now : Z) : TrailerStorage :=
  {| contentId := cid; tmdbId := md_tmdbId m; mediaType := md_mediaType m;
     title := md_title m; localPath := Some p; fileSizeMB := mb;
     videoQuality := "1080p"; accessCount := 0; lastAccessed := now;
     priority := priority_or_1 m; isActive := true;
     createdAt := now; updatedAt := now |}.

(** The write of the transaction: update the existing record or create
    a new one. *)
Definition upsert (cid : string) (m : metadata) (p : string) (mb : Q)
    (now : Z) (c : collection) : collection :=
  match findOne c cid with
  | Some existing => save_paths (with_stored p mb now) cid c
  | None => c ++ [new_record cid m p mb now]
  end.

(** First part, up to [mongoose.startSession()]: the temp file is checked
    and copied to the final path.  On a failure the [catch] block finds
    [session] still [null]. *)
Definition saveVideo_copy (cfg : config) (f : sv_faults) (cid tempFilePath : string)
    (w : world) : result (string * nat) * world :=
  match files w !! tempFilePath with
  | None => (Throw (TempFileNotFound tempFilePath), w)   (* finalPath is null *)
  | Some bytes =>
      let finalPath := getVideoPath cfg cid in
      match sv_fault_at f with
      | SvCopy =>
          (Throw FsError, set_files (unlink_if_exists finalPath (files w)) w)
      | _ =>
          (Ok (finalPath, length bytes),
           set_files (<[finalPath := bytes]> (files w)) w)
      end
  end.

(** Second part: the transaction, the capacity check, and the [catch]
    block for a failure in between. *)
Definition saveVideo_txn (cfg : config) (f : sv_faults) (now : Z) (cid : string)
    (m : metadata) (finalPath : string) (size : nat) (w : world)
  : result save_result * world :=
  match sv_fault_at f with
  | SvSession =>
      (Throw DbError, set_files (unlink_if_exists finalPath (files w)) w)
  | SvFind | SvSave | SvCommit =>
      if sv_abort f then (Throw DbError, w)
      else (Throw DbError, set_files (unlink_if_exists finalPath (files w)) w)
  | SvNone | SvCopy =>
      let w1 := set_catalog (upsert cid m finalPath (sizeMB size) now (catalog w)) w in
      (Ok {| sr_path := finalPath; sr_sizeMB := sizeMB size |},
       checkAndCleanup cfg (sv_cleanup f) w1)
  end.

Definition saveVideo (cfg : config) (f : sv_faults) (now : Z)
    (cid tempFilePath : string) (m : metadata) (w : world)
  : result save_result * world :=
  match saveVideo_copy cfg f cid tempFilePath w with
  | (Throw e, w1) => (Throw e, w1)
  | (Ok (finalPath, size), w1) => saveVideo_txn cfg f now cid m finalPath size w1
  end.

End StorageManager.

(** ** The sweep of the temp directory: [cleanupTempFiles] *)

Module TempSweep.

(** An entry of [readdirSync(tempDir)] with what [statSync] reports of
    it: the modification time in milliseconds, which has a fractional
    part, and whether it is a directory. *)
Record dirent : Type := {
  d_name : string;
  d_mtimeMs : Q;
  d_isDirectory : bool;
}.

(** Which calls fail: [readdirSync], and per entry (by name) [statSync]
    and the removal ([rmSync] or [unlinkSync]). *)
Record sweep_faults : Type := {
  sw_readdir : bool;
  sw_stat : string → bool;
  sw_remove : string → bool;
}.

(** [age > 3600000], with [age = now - stats.mtimeMs] *)
Definition expired (now : Z) (e : dirent) : bool :=
  negb (Qle_bool (inject_Z now - d_mtimeMs e) (inject_Z 3600000)).

(** The [for] loop over the entries still to visit; what it gives is the
    entries that are left in the directory.  The entries listed exist
    while the loop runs, so that the [existsSync] test lets each through.
    A throw ends the loop, the one [catch] being around it. *)
Fixpoint sweep (f : sweep_faults) (now : Z) (l : list dirent) : list dirent :=
  match l with
  | [] => []
  | e :: rest =>
      if sw_stat f (d_name e) then l
      else if expired now e then
        (if sw_remove f (d_name e) then l else sweep f now rest)
      else e :: sweep f now rest
  end.

Definition cleanupTempFiles (f : sweep_faults) (now : Z) (l : list dirent)
  : list dirent :=
  if sw_readdir f then l else sweep f now l.

(** *** The sweep on the files of the world *)

(** [path.join(this.tempDir, file)] *)
Definition entry_path (name : string) : string := "temp-downloads/" +:+ name.

(** The path [p] lies below the directory [dir]. *)
Definition below (dir p : string) : bool := JsString.starts_with (dir +:+ "/") p.

(** [fs.existsSync(filePath)]: there is a file at the path, or the path is
    a directory, with a file below it. *)
Definition entry_exists (fs : filesystem) (p : string) : bool :=
  existsSync fs p ||
  bool_decide (Exists (λ kv, below p kv.1 = true) (map_to_list fs)).

(** [fs.rmSync(filePath, { recursive: true, force: true })] for a
    directory, [fs.unlinkSync(filePath)] otherwise. *)
Definition remove_entry (e : dirent) (fs : filesystem) : filesystem :=
  let p := entry_path (d_name e) in
  if d_isDirectory e
  then filter (λ kv, below p kv.1 = false) (delete p fs)
  else delete p fs.

(** The loop again, now from the entries as [readdirSync] lists them to
    the files it leaves; an entry that is gone when its turn comes is
    passed over. *)
Fixpoint sweep_files (f : sweep_faults) (now : Z) (l : list dirent)
    (fs : filesystem) : filesystem :=
  match l with
  | [] => fs
  | e :: rest =>
      if negb (entry_exists fs (entry_path (d_name e))) then sweep_files f now rest fs
      else if sw_stat f (d_name e) then fs
      else if expired now e then
        (if sw_remove f (d_name e) then fs
         else sweep_files f now rest (remove_entry e fs))
      else sweep_files f now rest fs
  end.

Definition cleanupTempFiles_on (f : sweep_faults) (now : Z) (l : list dirent)
    (fs : filesystem) : filesystem :=
  if sw_readdir f then fs else sweep_files f now l fs.

End TempSweep.

(** ** Acquisition coordinator: [services/downloadService.js] *)

Module DownloadService.
Import StorageManager.

(** [acquireLock]: the returned flag and the new [locks]. *)
Definition acquireLock (cid : string) (l : gset string) : bool * gset string :=
  if bool_decide (cid ∈ l) then (false, l) else (true, {[cid]} ∪ l).

Definition releaseLock (cid : string) (l : gset string) : gset string :=
  l ∖ {[cid]}.

(** The default [timeout] of [waitForLock] and the delay of one poll, in
    milliseconds. *)
Definition lock_timeout : Z := 30000.
Definition poll_delay : Z := 1000.

Definition is_word_or_space (c : ascii) : bool :=
  let n := N_of_ascii c in
  (((48 <=? n) && (n <=? 57)) || ((65 <=? n) && (n <=? 90)) ||
   ((97 <=? n) && (n <=? 122)) || (n =? 95))%N || JsString.is_space c.

Fixpoint sanitize (s : string) : string :=
  match s with
  | EmptyString => EmptyString
  | String c r => String (if is_word_or_space c then c else "_"%char) (sanitize r)
  end.

Fixpoint substring0 (n : nat) (s : string) : string :=
  match n, s with
  | S n', String c r => String c (substring0 n' r)
  | _, _ => EmptyString
  end.

(** [title.replace(/[^\w\s]/gi, '_').substring(0, 50)] *)
Definition safeTitle (title : string) : string :=
  substring0 50 (sanitize title).

(** [path.join(this.tempDir, `${safeTitle}_${Date.now()}.mp4`)] *)
Definition tempFile (title : string) (now : Z) : string :=
  "temp-downloads/" +:+ safeTitle title +:+ "_" +:+
  JsString.of_num (Int now) +:+ ".mp4".

(** [tempFile.replace('.mp4', '.mkv')] *)
Definition altFile (tempFile : string) : string :=
  JsString.replace_first ".mp4" ".mkv" tempFile.

(** What [cleanupTempFiles] meets when it runs: which of its calls fail,
    and the entries that [readdirSync] lists, in that order, each with
    what [statSync] reports of it.  An entry of the directory that the
    listing leaves out is one that the loop passes over, being younger
    than an hour. *)
Record sweep_env : Type := {
  sw_faults : TempSweep.sweep_faults;
  sw_listing : list TempSweep.dirent;
}.

(** Every entry of the temp directory is younger than an hour. *)
Definition nothing_to_sweep : sweep_env :=
  {| sw_faults := {| TempSweep.sw_readdir := false;
                     TempSweep.sw_stat := λ _, false;
                     TempSweep.sw_remove := λ _, false |};
     sw_listing := [] |}.

(** [this.cleanupTempFiles()] at the time [now]. *)
Definition cleanupTempFiles (sw : sweep_env) (now : Z) (w : world) : world :=
  set_files
    (TempSweep.cleanupTempFiles_on (sw_faults sw) now (sw_listing sw) (files w)) w.

(** *** One invocation of [downloadAndStore] *)

(** Where an invocation is suspended.  An awaited operation is either
    still in flight ([None]) or has settled with a value that the
    continuation has not consumed yet ([Some]). *)
Inductive pc : Type :=
| AwaitImport
    (* await import('../models/TrailerStorage.js') *)
| AwaitFindExisting (r : option (result (option TrailerStorage)))
    (* await TrailerStorage.findOne({ contentId }) *)
| AwaitSaveInactive (r : option (result unit))
    (* await existingRecord.save() *)
| AwaitTimer (startTime wake : Z)
    (* in waitForLock: await new Promise(resolve => setTimeout(resolve, 1000)) *)
| AwaitLock (acquired : bool)
    (* waitForLock has returned [acquired]; lockAcquired is not assigned yet *)
| AwaitDoubleCheck (r : option (result (option TrailerStorage)))
    (* await TrailerStorage.findOne({ contentId, isActive: true }) *)
| AwaitExec (tmp : string) (r : option (result unit))
    (* in downloadYouTubeMP4: await execAsync(command, { timeout: 300000 }) *)
| AwaitSaveImport (tmp : string)
    (* in saveVideo: await import('mongoose') *)
| AwaitTransaction (finalPath : string) (size : nat)
    (r : option (result save_result))
    (* in saveVideo: from mongoose.startSession() to its return or throw *)
| Finished (r : result string).

Record invocation : Type := {
  inv_contentId : string;
  inv_youtubeUrl : string;
  inv_metadata : metadata;
  inv_lockAcquired : bool;
  inv_pc : pc;
}.

Definition call (cid url : string) (m : metadata) : invocation :=
  {| inv_contentId := cid; inv_youtubeUrl := url; inv_metadata := m;
     inv_lockAcquired := false; inv_pc := AwaitImport |}.

Definition at_pc (p : pc) (t : invocation) : invocation :=
  {| inv_contentId := inv_contentId t; inv_youtubeUrl := inv_youtubeUrl t;
     inv_metadata := inv_metadata t; inv_lockAcquired := inv_lockAcquired t;
     inv_pc := p |}.

Definition with_lockAcquired (b : bool) (t : invocation) : invocation :=
  {| inv_contentId := inv_contentId t; inv_youtubeUrl := inv_youtubeUrl t;
     inv_metadata := inv_metadata t; inv_lockAcquired := b;
     inv_pc := inv_pc t |}.

(** The [finally] block, then the settlement of the invocation. *)
Definition finish (r : result string) (t : invocation) (w : world)
  : invocation * world :=
  (at_pc (Finished r) t,
   if inv_lockAcquired t
   then set_locks (releaseLock (inv_contentId t) (locks w)) w
   else w).

(** One turn of the [while] loop of [waitForLock], entered at [now]. *)
Definition waitForLock_turn (now startTime : Z) (t : invocation) (w : world)
  : invocation * world :=
  let cid := inv_contentId t in
  if bool_decide (cid ∈ locks w) then
    if lock_timeout <? now - startTime
    then finish (Throw (LockTimeout cid)) t w
    else (at_pc (AwaitTimer startTime (now + poll_delay)) t, w)
  else
    let '(b, l) := acquireLock cid (locks w) in
    (at_pc (AwaitLock b) t, set_locks l w).

(** What the environment decides when an awaited operation settles. *)
Inductive outcome : Type :=
| Db (rejects : bool)
    (* a Mongoose query or save *)
| Exec (exit_ok : bool) (written : option (list byte))
    (* the yt-dlp process: its exit, and what it left at the output path *)
| ExecMkv (written : list byte)
    (* the process exits well and leaves its output under the extension
       .mkv instead *)
| Txn (f : sv_faults).
    (* the transaction and capacity check of saveVideo *)

(** The awaited operation of [t] settles. *)
Definition settle (cfg : config) (now : Z) (o : outcome) (t : invocation)
    (w : world) : option (invocation * world) :=
  let cid := inv_contentId t in
  match inv_pc t, o with
  | AwaitFindExisting None, Db rejects =>
      let r := if rejects then Throw DbError else Ok (findOne (catalog w) cid) in
      Some (at_pc (AwaitFindExisting (Some r)) t, w)
  | AwaitSaveInactive None, Db rejects =>
      if rejects then Some (at_pc (AwaitSaveInactive (Some (Throw DbError))) t, w)
      else Some (at_pc (AwaitSaveInactive (Some (Ok ()))) t,
                 set_catalog (save_paths (with_isActive false) cid (catalog w)) w)
  | AwaitDoubleCheck None, Db rejects =>
      let r := if rejects then Throw DbError
               else Ok (findOne_active (catalog w) cid) in
      Some (at_pc (AwaitDoubleCheck (Some r)) t, w)
  | AwaitExec tmp None, Exec exit_ok written =>
      let w1 := match written with
                | Some bytes => set_files (<[tmp := bytes]> (files w)) w
                | None => w
                end in
      let r := if exit_ok then Ok () else Throw ExecError in
      Some (at_pc (AwaitExec tmp (Some r)) t, w1)
  | AwaitExec tmp None, ExecMkv bytes =>
      Some (at_pc (AwaitExec tmp (Some (Ok ()))) t,
            set_files (<[altFile tmp := bytes]> (files w)) w)
  | AwaitTransaction finalPath size None, Txn f =>
      let '(r, w1) :=
        saveVideo_txn cfg f now cid (inv_metadata t) finalPath size w in
      Some (at_pc (AwaitTransaction finalPath size (Some r)) t, w1)
  | _, _ => None
  end.

(** The continuation of [t] runs up to its next [await] or to the end.
    The flag of the result tells whether it called [downloadYouTubeMP4];
    [copy_throws] whether a [copyFileSync] it performs throws, and [sw]
    what a [cleanupTempFiles] it performs meets. *)
Definition resume (cfg : config) (now : Z) (copy_throws : bool) (sw : sweep_env)
    (t : invocation) (w : world) : option (invocation * world * bool) :=
  let cid := inv_contentId t in
  let no_fetch (x : invocation * world) := Some (x, false) in
  match inv_pc t with
  | AwaitImport => no_fetch (at_pc (AwaitFindExisting None) t, w)
  | AwaitFindExisting (Some (Throw e)) => no_fetch (finish (Throw e) t w)
  | AwaitFindExisting (Some (Ok existingRecord)) =>
      match existingRecord with
      | Some r =>
          if isActive r then
            match localPath r with
            | Some p =>
                if existsSync (files w) p then no_fetch (finish (Ok p) t w)
                else no_fetch (at_pc (AwaitSaveInactive None) t, w)
            | None => no_fetch (at_pc (AwaitSaveInactive None) t, w)
            end
          else no_fetch (waitForLock_turn now now t w)
      | None => no_fetch (waitForLock_turn now now t w)
      end
  | AwaitSaveInactive (Some (Throw e)) => no_fetch (finish (Throw e) t w)
  | AwaitSaveInactive (Some (Ok _)) => no_fetch (waitForLock_turn now now t w)
  | AwaitTimer startTime wake =>
      if wake <=? now then no_fetch (waitForLock_turn now startTime t w)
      else None
  | AwaitLock acquired =>
      let t1 := with_lockAcquired acquired t in
      if acquired then no_fetch (at_pc (AwaitDoubleCheck None) t1, w)
      else no_fetch (finish (Throw (CouldNotAcquireLock cid)) t1 w)
  | AwaitDoubleCheck (Some (Throw e)) => no_fetch (finish (Throw e) t w)
  | AwaitDoubleCheck (Some (Ok doubleCheck)) =>
      let download :=
        Some (at_pc (AwaitExec (tempFile (md_title (inv_metadata t)) now) None) t,
              w, true) in
      match doubleCheck with
      | Some r =>
          match localPath r with
          | Some p =>
              if existsSync (files w) p then no_fetch (finish (Ok p) t w)
              else download
          | None => download
          end
      | None => download
      end
  | AwaitExec tmp (Some (Ok _)) =>
      if existsSync (files w) tmp
      then no_fetch (at_pc (AwaitSaveImport tmp) t, w)
      else
        match files w !! altFile tmp with
        | Some bytes =>                      (* fs.renameSync(altFile, tempFile) *)
            no_fetch (at_pc (AwaitSaveImport tmp) t,
                      set_files (<[tmp := bytes]> (delete (altFile tmp) (files w))) w)
        | None => no_fetch (finish (Throw DownloadedFileNotFound) t w)
        end
  | AwaitExec tmp (Some (Throw e)) =>
      no_fetch (finish (Throw e) t
                  (set_files (unlink_if_exists tmp (files w)) w))
  | AwaitSaveImport tmp =>
      let f := {| sv_fault_at := if copy_throws then SvCopy else SvNone;
                  sv_abort := false;
                  sv_cleanup := {| cl_find := false;
                                   cl_unlink := λ _, false;
                                   cl_save := λ _, false;
                                   cl_order := λ _, 0 |} |} in
      match saveVideo_copy cfg f cid tmp w with
      | (Ok (finalPath, size), w1) =>
          no_fetch (at_pc (AwaitTransaction finalPath size None) t, w1)
      | (Throw e, w1) => no_fetch (finish (Throw e) t w1)
      end
  | AwaitTransaction _ _ (Some (Throw e)) => no_fetch (finish (Throw e) t w)
  | AwaitTransaction _ _ (Some (Ok result)) =>
      (* this.cleanupTempFiles(); return result.path *)
      no_fetch (finish (Ok (sr_path result)) t (cleanupTempFiles sw now w))
  | AwaitFindExisting None | AwaitSaveInactive None | AwaitDoubleCheck None
  | AwaitExec _ None | AwaitTransaction _ _ None | Finished _ => None
  end.

(** *** The event loop *)

Record state : Type := {
  st_world : world;
  st_now : Z;
  st_invocations : list invocation;
  st_fetches : list string;       (* the contentId of each Fetcher call *)
}.

Inductive action : Type :=
| Tick (ms : Z)                    (* the clock advances *)
| Settle (i : nat) (o : outcome)   (* what invocation [i] awaits settles *)
| Resume (i : nat)                 (* the continuation of [i] runs; a
                                      cleanupTempFiles it performs finds
                                      nothing older than an hour *)
| ResumeCopyFails (i : nat)        (* the same, and its copyFileSync throws *)
| ResumeSweep (i : nat) (sw : sweep_env).
                                   (* the continuation of [i] runs, and
                                      its cleanupTempFiles meets [sw] *)

(** The calls [(contentId, youtubeUrl, metadata)] have all just been made. *)
Definition initial (w : world) (now : Z)
    (calls : list (string * string * metadata)) : state :=
  {| st_world := w; st_now := now;
     st_invocations := map (λ x, call x.1.1 x.1.2 x.2) calls;
     st_fetches := [] |}.

Definition copies (p : pc) : bool :=
  match p with
  | AwaitSaveImport _ => true
  | _ => false
  end.

Definition sweeps (p : pc) : bool :=
  match p with
  | AwaitTransaction _ _ (Some (Ok _)) => true
  | _ => false
  end.

Definition do_resume (cfg : config) (copy_throws : bool) (sw : option sweep_env)
    (i : nat) (s : state) : option state :=
  t ← st_invocations s !! i;
  guard (copy_throws = true → copies (inv_pc t) = true);;
  guard (is_Some sw → sweeps (inv_pc t) = true);;
  '(t', w', fetch) ← resume cfg (st_now s) copy_throws
                        (default nothing_to_sweep sw) t (st_world s);
  Some {| st_world := w'; st_now := st_now s;
          st_invocations := <[i := t']> (st_invocations s);
          st_fetches := if fetch : bool then inv_contentId t :: st_fetches s
                        else st_fetches s |}.

Definition step (cfg : config) (a : action) (s : state) : option state :=
  match a with
  | Tick ms =>
      if 0 <? ms
      then Some {| st_world := st_world s; st_now := st_now s + ms;
                   st_invocations := st_invocations s;
                   st_fetches := st_fetches s |}
      else None
  | Settle i o =>
      t ← st_invocations s !! i;
      '(t', w') ← settle cfg (st_now s) o t (st_world s);
      Some {| st_world := w'; st_now := st_now s;
              st_invocations := <[i := t']> (st_invocations s);
              st_fetches := st_fetches s |}
  | Resume i => do_resume cfg false None i s
  | ResumeCopyFails i => do_resume cfg true None i s
  | ResumeSweep i sw => do_resume cfg false (Some sw) i s
  end.

(** A schedule is run from left to right; [None] when one of its actions
    is not enabled. *)
Fixpoint run (cfg : config) (acts : list action) (s : state) : option state :=
  match acts with
  | [] => Some s
  | a :: rest =>
      match step cfg a s with
      | Some s' => run cfg rest s'
      | None => None
      end
  end.

End DownloadService.

(** ** Vocabulary of the statements *)

(** The range header of a single-range request, [bytes=<start>-<end>]
    with the end optional. *)
Definition range_header (start : Z) (end_ : option Z) : string :=
  "bytes=" +:+ JsString.of_num (Int start) +:+ "-" +:+
  match end_ with
  | Some e => JsString.of_num (Int e)
  | None => EmptyString
  end.

(** The bytes of [content] at the offsets [s..e], both included. *)
Definition byte_span (content : list byte) (s e : Z) : list byte :=
  take (Z.to_nat (e - s + 1)) (drop (Z.to_nat s) content).

Definition all_digits (s : string) : Prop :=
  Forall (λ c, JsString.is_digit c = true) (String.list_ascii_of_string s).

(** A string [rest] stops a run of digits. *)
Definition stops (rest : string) : Prop :=
  match rest with
  | EmptyString => True
  | String c _ => JsString.is_digit c = false
  end.

(** Not-found: the status a missing resource is answered with. *)
Definition is_not_found (r : StreamServer.response) : Prop :=
  StreamServer.status_of r = 404.

(** [listEvictionCandidates(limit)] as the design document words it: the
    active entries by priority, then [lastAccessed], then [accessCount],
    all ascending, ties broken by [contentId]. *)
Definition spec_le (a b : TrailerStorage) : bool :=
  if priority a =? priority b then
    if lastAccessed a =? lastAccessed b then
      if accessCount a =? accessCount b
      then String.leb (contentId a) (contentId b)
      else accessCount a <? accessCount b
    else lastAccessed a <? lastAccessed b
  else priority a <? priority b.

Fixpoint spec_insert (x : TrailerStorage) (l : list TrailerStorage)
  : list TrailerStorage :=
  match l with
  | [] => [x]
  | y :: t => if spec_le x y then x :: l else y :: spec_insert x t
  end.

Definition listEvictionCandidates_spec (limit : nat) (c : collection)
  : list TrailerStorage :=
  take limit (foldr spec_insert [] (List.filter isActive c)).

(** In the order of the query's keys [a] does not come after [b]: it was
    accessed earlier, or at the same time and not more often. *)
Definition keys_le (a b : TrailerStorage) : Prop :=
  lastAccessed a < lastAccessed b ∨
  (lastAccessed a = lastAccessed b ∧ accessCount a ≤ accessCount b).

(** Two documents agree on both keys of the query. *)
Definition keys_tied (a b : TrailerStorage) : Prop :=
  lastAccessed a = lastAccessed b ∧ accessCount a = accessCount b.

(** Sorted by the keys of the query: every document comes before those
    that follow it. *)
Definition sorted_by_keys (l : list TrailerStorage) : Prop :=
  StronglySorted keys_le l.

(** The failures of [saveVideo] that come after the copy to the final
    path. *)
Definition fails_after_copy (x : StorageManager.sv_fault) : Prop :=
  x = StorageManager.SvSession ∨ x = StorageManager.SvFind ∨
  x = StorageManager.SvSave ∨ x = StorageManager.SvCommit.

(** The [catch] block of [saveVideo] runs to its end: the session was never
    opened, or [session.abortTransaction()] resolves. *)
Definition rollback_completes (f : StorageManager.sv_faults) : Prop :=
  StorageManager.sv_fault_at f = StorageManager.SvSession ∨
  StorageManager.sv_abort f = false.

(** The invocation is inside [waitForLock], or has just left it with the
    lock: it is on the acquisition path of a cache miss. *)
Definition acquiring (p : DownloadService.pc) : Prop :=
  match p with
  | DownloadService.AwaitTimer _ _ | DownloadService.AwaitLock true => True
  | _ => False
  end.

(** The invocation has taken the lock of its id and not yet given it back:
    from the return of [acquireLock] to the [finally] block. *)
Definition holds_lock (p : DownloadService.pc) : bool :=
  match p with
  | DownloadService.AwaitLock true
  | DownloadService.AwaitDoubleCheck _
  | DownloadService.AwaitExec _ _
  | DownloadService.AwaitSaveImport _
  | DownloadService.AwaitTransaction _ _ _ => true
  | _ => false
  end.


Definition finished (p : DownloadService.pc) : bool :=
  match p with
  | DownloadService.Finished _ => true
  | _ => false
  end.

(** The local [lockAcquired] is true exactly past the assignment that
    follows [waitForLock]. *)
Definition flag_ok (t : DownloadService.invocation) : Prop :=
  match DownloadService.inv_pc t with
  | DownloadService.Finished _ => True
  | DownloadService.AwaitDoubleCheck _
  | DownloadService.AwaitExec _ _
  | DownloadService.AwaitSaveImport _
  | DownloadService.AwaitTransaction _ _ _ =>
      DownloadService.inv_lockAcquired t = true
  | _ => DownloadService.inv_lockAcquired t = false
  end.

(** Every holder's id is in the lock table. *)
Definition holders_locked (s : DownloadService.state) : Prop :=
  ∀ i t,
    DownloadService.st_invocations s !! i = Some t →
    holds_lock (DownloadService.inv_pc t) = true →
    DownloadService.inv_contentId t ∈ locks (DownloadService.st_world s).

(** At most one invocation holds the lock of an id. *)
Definition one_holder (s : DownloadService.state) : Prop :=
  ∀ i j ti tj,
    DownloadService.st_invocations s !! i = Some ti →
    DownloadService.st_invocations s !! j = Some tj →
    holds_lock (DownloadService.inv_pc ti) = true →
    holds_lock (DownloadService.inv_pc tj) = true →
    DownloadService.inv_contentId ti = DownloadService.inv_contentId tj →
    i = j.

(** Every id in the lock table was there from the start ([L0]) or is held
    by an invocation in flight. *)
Definition locks_owned (L0 : gset string) (s : DownloadService.state) : Prop :=
  ∀ cid,
    cid ∈ locks (DownloadService.st_world s) →
    cid ∈ L0 ∨
    ∃ i t,
      DownloadService.st_invocations s !! i = Some t ∧
      DownloadService.inv_contentId t = cid ∧
      holds_lock (DownloadService.inv_pc t) = true.

Definition lock_inv (L0 : gset string) (s : DownloadService.state) : Prop :=
  Forall flag_ok (DownloadService.st_invocations s) ∧
  holders_locked s ∧ one_holder s ∧ locks_owned L0 s.

(** What one continuation does to the lock of its invocation: nothing, or
    it takes the free lock, or it gives the lock back as it finishes. *)
Inductive lock_move (t t' : DownloadService.invocation) (w w' : world) : Prop :=
| lock_keep :
    holds_lock (DownloadService.inv_pc t') = holds_lock (DownloadService.inv_pc t) →
    locks w' = locks w →
    lock_move t t' w w'
| lock_acquire :
    holds_lock (DownloadService.inv_pc t) = false →
    holds_lock (DownloadService.inv_pc t') = true →
    DownloadService.inv_contentId t ∉ locks w →
    locks w' = {[DownloadService.inv_contentId t]} ∪ locks w →
    lock_move t t' w w'
| lock_release :
    holds_lock (DownloadService.inv_pc t) = true →
    finished (DownloadService.inv_pc t') = true →
    locks w' = locks w ∖ {[DownloadService.inv_contentId t]} →
    lock_move t t' w w'.

(** *** The course of a deduplicated acquisition *)

(** The invocation is between its call of the Fetcher and the commit. *)
Definition fetch_phase (p : DownloadService.pc) : bool :=
  match p with
  | DownloadService.AwaitExec _ None
  | DownloadService.AwaitExec _ (Some (Ok _))
  | DownloadService.AwaitSaveImport _
  | DownloadService.AwaitTransaction _ _ None => true
  | _ => false
  end.

(** What the environment does makes a download or a commit fail: the
    process fails or leaves no output, the copy to the final path throws,
    or the transaction is rejected. *)
Definition fetch_fault (a : DownloadService.action) : bool :=
  match a with
  | DownloadService.Settle _ (DownloadService.Exec exit_ok written) =>
      negb exit_ok || bool_decide (written = None)
  | DownloadService.Settle _ (DownloadService.Txn f) =>
      match StorageManager.sv_fault_at f with
      | StorageManager.SvNone | StorageManager.SvCopy => false
      | _ => true
      end
  | DownloadService.ResumeCopyFails _ => true
  | _ => false
  end.


(** Where the acquisition of one id stands: no download is under way
    (none was started, or the last one has failed); one invocation has
    called the Fetcher and is on its way to the commit; the file is
    committed. *)
Inductive phase : Type := NoFetch | Fetching | Committed.

Definition all_inactive (c : string) (cat : collection) : Prop :=
  ∀ r, r ∈ cat → contentId r = c → isActive r = false.

Definition all_stored (c path : string) (cat : collection) : Prop :=
  ∀ r, r ∈ cat → contentId r = c → isActive r = true ∧ localPath r = Some path.

(** The id [c] has an active entry whose file is at [path]. *)
Definition committed (c path : string) (w : world) : Prop :=
  (∃ r, r ∈ catalog w ∧ contentId r = c) ∧
  all_stored c path (catalog w) ∧
  is_Some (files w !! path).

(** The entries of [c] are not eligible for eviction, and no other entry
    points at the file of [c]. *)
Definition catalog_ok (c path : string) (cat : collection) : Prop :=
  ∀ r, r ∈ cat →
    (contentId r = c → priority r ≠ 1) ∧
    (contentId r ≠ c → localPath r ≠ Some path).

Definition world_ok (c path : string) (ph : phase) (w : world) : Prop :=
  match ph with
  | NoFetch | Fetching => all_inactive c (catalog w)
  | Committed => committed c path w
  end.

(** What an invocation may be doing in each phase.  An invocation that
    has failed before its download, or that has thrown, is of no
    consequence; one whose download or commit has failed has ended the
    phase [Fetching], and so has one whose process has left no output. *)
Definition task_ok (path : string) (ph : phase) (fs : filesystem)
    (t : DownloadService.invocation) : Prop :=
  match DownloadService.inv_pc t with
  | DownloadService.AwaitImport
  | DownloadService.AwaitFindExisting None
  | DownloadService.AwaitFindExisting (Some (Ok None))
  | DownloadService.AwaitFindExisting (Some (Throw _))
  | DownloadService.AwaitTimer _ _
  | DownloadService.AwaitDoubleCheck None
  | DownloadService.AwaitDoubleCheck (Some (Throw _))
  | DownloadService.Finished (Throw _) => True
  | DownloadService.AwaitLock b => b = true
  | DownloadService.AwaitFindExisting (Some (Ok (Some r))) =>
      isActive r = true → ph = Committed ∧ localPath r = Some path
  | DownloadService.AwaitSaveInactive _ => False
  | DownloadService.AwaitDoubleCheck (Some (Ok None)) => ph = NoFetch
  | DownloadService.AwaitDoubleCheck (Some (Ok (Some r))) =>
      ph = Committed ∧ localPath r = Some path
  | DownloadService.AwaitExec _ None => ph = Fetching
  | DownloadService.AwaitExec tmp (Some (Ok _)) =>
      if existsSync fs tmp || existsSync fs (DownloadService.altFile tmp)
      then ph = Fetching else ph = NoFetch
  | DownloadService.AwaitExec _ (Some (Throw _))
  | DownloadService.AwaitTransaction _ _ (Some (Throw _)) => ph = NoFetch
  | DownloadService.AwaitSaveImport tmp => ph = Fetching ∧ is_Some (fs !! tmp)
  | DownloadService.AwaitTransaction finalPath _ None =>
      ph = Fetching ∧ finalPath = path ∧ is_Some (fs !! path)
  | DownloadService.AwaitTransaction _ _ (Some (Ok result)) =>
      ph = Committed ∧ StorageManager.sr_path result = path
  | DownloadService.Finished (Ok p) => ph = Committed ∧ p = path
  end.

(** The phases follow one another: the Fetcher is called exactly on the
    way from [NoFetch] to [Fetching], and [Fetching] falls back to
    [NoFetch] only by a failure of the download or of the commit. *)
Definition phase_step (ph ph' : phase) (fetch fault : bool) : Prop :=
  (ph' = ph ∧ fetch = false) ∨
  (ph = NoFetch ∧ ph' = Fetching ∧ fetch = true) ∨
  (ph = Fetching ∧ ph' = Committed ∧ fetch = false) ∨
  (ph = Fetching ∧ ph' = NoFetch ∧ fetch = false ∧ fault = true).

(** After [k] failures of a download or commit, the Fetcher has been
    called at most [k] times more than once. *)
Definition fetches_ok (ph : phase) (k : nat) (fetches : list string) : Prop :=
  match ph with
  | NoFetch => (length fetches ≤ k)%nat
  | Fetching | Committed => (1 ≤ length fetches ≤ k + 1)%nat
  end.

Definition phase_ok (c path : string) (ph : phase) (k : nat)
    (s : DownloadService.state) : Prop :=
  fetches_ok ph k (DownloadService.st_fetches s) ∧
  world_ok c path ph (DownloadService.st_world s) ∧
  (ph = Fetching →
   ∃ j tj, DownloadService.st_invocations s !! j = Some tj ∧
           fetch_phase (DownloadService.inv_pc tj) = true).

(** All invocations are for [c], with a priority that keeps the entry out
    of eviction. *)
Definition calls_ok (c : string) (l : list DownloadService.invocation) : Prop :=
  Forall (λ t, DownloadService.inv_contentId t = c ∧
               priority_or_1 (DownloadService.inv_metadata t) ≠ 1) l.

Definition dedup_inv (c path : string) (k : nat) (s : DownloadService.state)
  : Prop :=
  calls_ok c (DownloadService.st_invocations s) ∧
  catalog_ok c path (catalog (DownloadService.st_world s)) ∧
  ∃ ph, phase_ok c path ph k s ∧
        Forall (task_ok path ph (files (DownloadService.st_world s)))
          (DownloadService.st_invocations s).

(** One step of an invocation in phase [ph] leaves its invocation and the
    world in order for a phase [ph'] that follows. *)
Definition good_step (c path : string) (ph : phase) (fetch fault : bool)
    (t t' : DownloadService.invocation) (w w' : world) : Prop :=
  ∃ ph',
    phase_step ph ph' fetch fault ∧
    world_ok c path ph' w' ∧
    task_ok path ph' (files w') t' ∧
    (ph' = Fetching →
     fetch_phase (DownloadService.inv_pc t') = true ∨
     (ph = Fetching ∧ fetch_phase (DownloadService.inv_pc t) = false)) ∧
    ((files w' = files w ∧ ph' = ph) ∨
     holds_lock (DownloadService.inv_pc t) = true).




(** Every entry that has a path has the store path of its own id, as
    [saveVideo] writes it. *)
Definition paths_own (cfg : config) (cat : collection) : Prop :=
  ∀ r, r ∈ cat →
    localPath r = None ∨
    localPath r = Some (StorageManager.getVideoPath cfg (contentId r)).

(** No entry of [c] is eligible for eviction. *)
Definition not_evictable (c : string) (cat : collection) : Prop :=
  ∀ r, r ∈ cat → contentId r = c → priority r ≠ 1.

(** All calls are for [c] and pass a priority other than 1. *)
Definition requests_ok (c : string) (calls : list (string * string * metadata))
  : Prop :=
  Forall (λ x, x.1.1 = c ∧ priority_or_1 x.2 ≠ 1) calls.





(** ** Example data *)

Module Examples.
Import StorageManager.

Definition cfg : config :=
  {| trailerPath := "/srv/trailers"; MAX_STORAGE_GB := 1000; MAX_VIDEOS := 500 |}.

Definition entry (cid : string) (prio last count : Z) (active : bool)
  : TrailerStorage :=
  {| contentId := cid; tmdbId := "550"; mediaType := "movie"; title := cid;
     localPath := Some (getVideoPath cfg cid); fileSizeMB := Qmake 1 1;
     videoQuality := "1080p"; accessCount := count; lastAccessed := last;
     priority := prio; isActive := active; createdAt := 0; updatedAt := 0 |}.

(** Priorities [1; 1; 2] with [lastAccessed] old, new, old. *)
Definition three : collection :=
  [entry "movie_1" 1 100 0 true; entry "movie_2" 1 900 0 true;
   entry "movie_3" 2 100 0 true].

(** Two entries that agree on both sort keys. *)
Definition tied : collection :=
  [entry "a" 1 100 0 true; entry "b" 1 100 0 true].

Definition no_cleanup_faults : cl_faults :=
  {| cl_find := false; cl_unlink := λ _, false; cl_save := λ _, false;
     cl_order := λ _, 0 |}.

Definition saves_fail : cl_faults :=
  {| cl_find := false; cl_unlink := λ _, false; cl_save := λ _, true;
     cl_order := λ _, 0 |}.

(** No fault either, and of the documents that agree on both sort keys
    the database returns [b] first. *)
Definition b_comes_first : cl_faults :=
  {| cl_find := false; cl_unlink := λ _, false; cl_save := λ _, false;
     cl_order := λ r, if String.eqb (contentId r) "b" then 0 else 1 |}.

Definition one_byte : list byte := [Byte.x00].

(** The three entries with their files, while [movie_1] is locked by an
    acquisition in flight. *)
Definition locked_world : world :=
  {| catalog := three;
     files := {[ getVideoPath cfg "movie_1" := one_byte;
                 getVideoPath cfg "movie_2" := one_byte;
                 getVideoPath cfg "movie_3" := one_byte ]};
     locks := {[ "movie_1" ]} |}.

(** [movie_1] is active in the catalog and its file is in the store. *)
Definition hit_world : world :=
  {| catalog := [entry "movie_1" 2 100 3 true];
     files := {[ getVideoPath cfg "movie_1" := one_byte ]};
     locks := ∅ |}.

(** [movie_1] is active in the catalog, but its file was deleted behind
    the back of the service. *)
Definition drift_world : world :=
  {| catalog := [entry "movie_1" 2 100 3 true]; files := ∅; locks := ∅ |}.

Definition save_rejects : gv_faults := {| gv_find := false; gv_save := true |}.
Definition no_read_faults : gv_faults := {| gv_find := false; gv_save := false |}.

Definition meta : metadata :=
  {| md_tmdbId := "550"; md_mediaType := "movie"; md_title := "Fight Club";
     md_priority := Some 2 |}.

(** The save of the catalog record is rejected. *)
Definition save_fails : sv_faults :=
  {| sv_fault_at := SvSave; sv_abort := false; sv_cleanup := no_cleanup_faults |}.

Definition no_save_faults : sv_faults :=
  {| sv_fault_at := SvNone; sv_abort := false; sv_cleanup := no_cleanup_faults |}.

(** The commit of the transaction is rejected, and so is the abort that
    the [catch] block attempts. *)
Definition abort_fails : sv_faults :=
  {| sv_fault_at := SvCommit; sv_abort := true; sv_cleanup := no_cleanup_faults |}.

Definition new_bytes : list byte := [Byte.x01; Byte.x02].

(** [movie_1] is cached, and a fresh download of it sits in the temp
    directory. *)
Definition reacquire_world : world :=
  {| catalog := [entry "movie_1" 2 100 3 true];
     files := {[ getVideoPath cfg "movie_1" := one_byte;
                 "temp-downloads/Fight Club_1000.mp4" := new_bytes ]};
     locks := {[ "movie_1" ]} |}.

(** An empty catalog and store, nothing locked. *)
Definition empty_world : world := {| catalog := []; files := ∅; locks := ∅ |}.

Definition request : string * string * metadata :=
  ("movie_1", "https://www.youtube.com/watch?v=abc", meta).

(** One invocation whose download fails. *)
Definition fetch_fails : list DownloadService.action :=
  [DownloadService.Resume 0;
   DownloadService.Settle 0 (DownloadService.Db false);
   DownloadService.Resume 0;
   DownloadService.Resume 0;
   DownloadService.Settle 0 (DownloadService.Db false);
   DownloadService.Resume 0;
   DownloadService.Settle 0 (DownloadService.Exec false None);
   DownloadService.Resume 0].

(** Two concurrent invocations for [movie_1].  Both pass the pre-lock
    check; the first takes the lock and starts the download, the second
    finds the lock held and starts to poll. *)
Definition both_start : list DownloadService.action :=
  [DownloadService.Resume 0; DownloadService.Resume 1;
   DownloadService.Settle 0 (DownloadService.Db false);
   DownloadService.Settle 1 (DownloadService.Db false);
   DownloadService.Resume 0; DownloadService.Resume 1;
   DownloadService.Resume 0;
   DownloadService.Settle 0 (DownloadService.Db false);
   DownloadService.Resume 0].

(** The download of the first succeeds and is committed. *)
Definition first_commits (f : sv_faults) : list DownloadService.action :=
  [DownloadService.Settle 0 (DownloadService.Exec true (Some new_bytes));
   DownloadService.Resume 0; DownloadService.Resume 0;
   DownloadService.Settle 0 (DownloadService.Txn f);
   DownloadService.Resume 0].

(** A second later the second finds the lock free, takes it and runs the
    double check. *)
Definition second_retries : list DownloadService.action :=
  [DownloadService.Tick 1000;
   DownloadService.Resume 1; DownloadService.Resume 1;
   DownloadService.Settle 1 (DownloadService.Db false);
   DownloadService.Resume 1].


(** The deduplicated run: the second reuses what the first committed. *)
Definition deduplicated : list DownloadService.action :=
  both_start ++ first_commits no_save_faults ++ second_retries.










(** What the sweep meets: the store directory, an entry of the temp
    directory, last modified at the time 0; to overwrite a file of it
    leaves that time as it is. *)
Definition old_store_dir : DownloadService.sweep_env :=
  {| DownloadService.sw_faults :=
       DownloadService.sw_faults DownloadService.nothing_to_sweep;
     DownloadService.sw_listing :=
       [{| TempSweep.d_name := "trailers"; TempSweep.d_mtimeMs := 0;
           TempSweep.d_isDirectory := true |}] |}.


(** The outcome of a run: what each invocation ended with, and the number
    of Fetcher calls. *)
Definition outcome_of (s : DownloadService.state)
  : list DownloadService.pc * nat :=
  (map DownloadService.inv_pc (DownloadService.st_invocations s),
   length (DownloadService.st_fetches s)).

End Examples.

(** The header of a suffix range request, [bytes=-<n>]: the last [n]
    bytes. *)
Definition suffix_range_header (n : Z) : string :=
  "bytes=-" +:+ JsString.of_num (Int n).

(** ** The trailer route: [routes/localTrailerRoutes.js] *)

Module TrailerRoutes.

(** One element of the [results] array of TMDB's videos reply.
    [v_official] tells whether [v.official === true]; [v_name] is [None]
    for an element without a [name].  Strings are sequences of code units
    below 256. *)
Record video : Type := {
  v_site : string;
  v_type : string;
  v_official : bool;
  v_name : option string;
  v_key : string;
}.

(** A value, or the [TypeError] of a method call on [undefined]. *)
Inductive js (A : Type) : Type :=
| Value (a : A)
| TypeError.
Arguments Value {A} a.
Arguments TypeError {A}.

(** [c.toLowerCase()] for a code unit below 256: the letters [A-Z] and
    the capital letters of Latin-1 (all of [À-Þ] but the sign [×]). *)
Definition lower_char (c : ascii) : ascii :=
  let n := N_of_ascii c in
  if (((65 <=? n) && (n <=? 90)) ||
      ((192 <=? n) && (n <=? 222) && negb (n =? 215)))%N
  then ascii_of_N (n + 32) else c.

Fixpoint toLowerCase (s : string) : string :=
  match s with
  | EmptyString => EmptyString
  | String c r => String (lower_char c) (toLowerCase r)
  end.

(** [s.includes(pat)] *)
Fixpoint includes (pat s : string) : bool :=
  JsString.starts_with pat s ||
  match s with
  | EmptyString => false
  | String _ r => includes pat r
  end.

(** The four tests on the name that close every predicate of
    [findBestTrailer]; [v.name.toLowerCase()] throws without a name. *)
Definition not_a_short (v : video) : js bool :=
  match v_name v with
  | None => TypeError
  | Some name =>
      Value (negb (includes "short" (toLowerCase name)) &&
             negb (includes "vertical" (toLowerCase name)) &&
             negb (includes "tiktok" (toLowerCase name)) &&
             negb (includes "reel" (toLowerCase name)))
  end.

(** [b && k]: [k] is evaluated only when [b] holds. *)
Definition and_then (b : bool) (k : js bool) : js bool :=
  if b then k else Value false.

Definition officialTrailer (v : video) : js bool :=
  and_then (v_official v && String.eqb (v_type v) "Trailer") (not_a_short v).

Definition officialTeaser (v : video) : js bool :=
  and_then (v_official v && String.eqb (v_type v) "Teaser") (not_a_short v).

Definition anyTrailer (v : video) : js bool :=
  and_then (String.eqb (v_type v) "Trailer") (not_a_short v).

Definition anyTeaser (v : video) : js bool :=
  and_then (String.eqb (v_type v) "Teaser") (not_a_short v).

Definition nonShortVideo (v : video) : js bool := not_a_short v.

(** [l.find(p)]: the first element that [p] accepts; a throw of [p] on an
    element before it ends the search. *)
Fixpoint find_js (p : video → js bool) (l : list video) : js (option video) :=
  match l with
  | [] => Value None
  | v :: r =>
      match p v with
      | TypeError => TypeError
      | Value true => Value (Some v)
      | Value false => find_js p r
      end
  end.

(** [const x = found; if (x) return x; k] *)
Definition or_else (found : js (option video)) (k : js (option video))
  : js (option video) :=
  match found with
  | Value None => k
  | _ => found
  end.

(** [videos] is [None] for [null] or [undefined]. *)
Definition findBestTrailer (videos : option (list video)) : js (option video) :=
  match videos with
  | None | Some [] => Value None
  | Some videos =>
      let youtubeVideos :=
        List.filter (λ v, String.eqb (v_site v) "YouTube") videos in
      match youtubeVideos with
      | [] => Value None
      | first :: _ =>
          or_else (find_js officialTrailer youtubeVideos)
            (or_else (find_js officialTeaser youtubeVideos)
               (or_else (find_js anyTrailer youtubeVideos)
                  (or_else (find_js anyTeaser youtubeVideos)
                     (or_else (find_js nonShortVideo youtubeVideos)
                        (Value (Some first))))))
      end
  end.

(** *** The handler of [GET /:type/:id] *)

(** [req.params] and [req.headers.range].  The parameters hold no path
    separator, so that [getVideoPath] joins them as it is modelled. *)
Record http_request : Type := {
  rq_type : string;
  rq_id : string;
  rq_range : option string;
}.

(** [contentRes.data], of which the handler reads [title] and [name]. *)
Record content_data : Type := {
  cd_title : string;
  cd_name : string;
}.

(** How the two requests to the TMDB worker end, awaited together: with
    both replies ([results] is [videosRes.data.results], [None] when the
    reply has none), or with the error of the first that fails, of which
    the handler reads [response?.status] and [message]. *)
Inductive tmdb_reply : Type :=
| TmdbData (contentData : content_data) (results : option (list video))
| TmdbError (status : option Z) (message : string).

(** What one request meets: the clock, the faults of the catalog reads,
    the TMDB worker, the schedule along which its [downloadAndStore]
    runs while no other acquisition is in flight, and the message of
    whatever error the environment raises. *)
Record environment : Type := {
  env_now : Z;
  env_read : StorageManager.gv_faults;
  env_tmdb : tmdb_reply;
  env_download : list DownloadService.action;
  env_thrown : string;
}.

(** [error.message]; the errors raised by Mongoose, the file system or
    the child process carry the message [thrown]. *)
Definition message_of (thrown : string) (e : error) : string :=
  match e with
  | TempFileNotFound p => "Temp file not found: " +:+ p
  | DownloadedFileNotFound => "Downloaded file not found"
  | LockTimeout cid => "Timeout waiting for lock: " +:+ cid
  | CouldNotAcquireLock cid => "Could not acquire lock for " +:+ cid
  | DbError | FsError | ExecError => thrown
  end.

(** [res.status(404).json({ success: false, error, fallback: 'backdrop' })] *)
Definition not_found (msg : string) : StreamServer.response :=
  StreamServer.Json 404
    [("success", "false"); ("error", msg); ("fallback", "backdrop")].

(** The answer of the outer [catch]. *)
Definition failure (msg : string) : StreamServer.response :=
  StreamServer.Json 500
    [("success", "false"); ("error", msg); ("fallback", "youtube");
     ("message", "Use YouTube as fallback")].

Definition contentId_of (rq : http_request) : string :=
  rq_type rq +:+ "_" +:+ rq_id rq.

(** The [metadata] the handler passes to [downloadAndStore]. *)
Definition metadata_of (rq : http_request) (contentData : content_data) : metadata :=
  {| md_tmdbId := rq_id rq; md_mediaType := rq_type rq;
     md_title := if String.eqb (rq_type rq) "tv"
                 then cd_name contentData else cd_title contentData;
     md_priority := Some 2 |}.

Definition youtubeUrl_of (trailer : video) : string :=
  "https://www.youtube.com/watch?v=" +:+ v_key trailer.

(** The response and the world it leaves; [None] while the schedule of
    the download has not brought the invocation to its end. *)
Definition handle (cfg : config) (e : environment) (rq : http_request) (w : world)
  : option (StreamServer.response * world) :=
  let contentId := contentId_of rq in
  let '(videoInfo, w1) :=
    StorageManager.getVideoInfo (env_read e) (env_now e) contentId w in
  match videoInfo with
  | Some info =>
      Some (StreamServer.streamVideoFile (files w1)
              (StorageManager.vi_path info) (rq_range rq), w1)
  | None =>
      match env_tmdb e with
      | TmdbError status message =>
          match status with
          | Some 404 => Some (not_found "Content not found on TMDB", w1)
          | _ => Some (failure message, w1)
          end
      | TmdbData contentData results =>
          match findBestTrailer (Some (default [] results)) with
          | TypeError => Some (failure (env_thrown e), w1)
          | Value None => Some (not_found "No trailer available", w1)
          | Value (Some trailer) =>
              s ← DownloadService.run cfg (env_download e)
                     (DownloadService.initial w1 (env_now e)
                        [(contentId, youtubeUrl_of trailer,
                          metadata_of rq contentData)]);
              t ← DownloadService.st_invocations s !! 0%nat;
              match DownloadService.inv_pc t with
              | DownloadService.Finished (Ok videoPath) =>
                  Some (StreamServer.streamVideoFile
                          (files (DownloadService.st_world s)) videoPath
                          (rq_range rq),
                        DownloadService.st_world s)
              | DownloadService.Finished (Throw err) =>
                  Some (failure (message_of (env_thrown e) err),
                        DownloadService.st_world s)
              | _ => None
              end
          end
      end
  end.

(** *** The routes of the router *)

Inductive method : Type := GET | POST.

(** A segment of a route path: a literal, or a parameter [:name], which
    matches any non-empty segment. *)
Inductive segment : Type :=
| Lit (s : string)
| Param.

(** The handlers, by the route they are registered for. *)
Inductive endpoint : Type :=
| Health
| Trailer
| StorageStatus
| StorageCleanup
| ListLocal.

(** The routes in the order of their registration:
    [router.get('/health')], [router.get('/:type/:id')],
    [router.get('/storage/status')], [router.post('/storage/cleanup')],
    [router.get('/list/local')]. *)
Definition routes : list (method * list segment * endpoint) :=
  [ (GET, [Lit "health"], Health);
    (GET, [Param; Param], Trailer);
    (GET, [Lit "storage"; Lit "status"], StorageStatus);
    (POST, [Lit "storage"; Lit "cleanup"], StorageCleanup);
    (GET, [Lit "list"; Lit "local"], ListLocal) ].

Definition method_eqb (a b : method) : bool :=
  match a, b with
  | GET, GET | POST, POST => true
  | _, _ => false
  end.

(** A literal matches without regard to case (the router is not created
    with [caseSensitive]). *)
Definition segment_matches (sg : segment) (s : string) : bool :=
  match sg with
  | Lit l => String.eqb (toLowerCase l) (toLowerCase s)
  | Param => negb (String.eqb s "")
  end.

(** The path of a request below the mount point is given by its
    segments as they stand in the URL, split at the slashes, a slash at
    the end set aside. *)
Fixpoint path_matches (pat : list segment) (path : list string) : bool :=
  match pat, path with
  | [], [] => true
  | sg :: pat', s :: path' => segment_matches sg s && path_matches pat' path'
  | _, _ => false
  end.

(** The segments that a route takes for its parameters, on a path that
    it matches. *)
Fixpoint params (pat : list segment) (path : list string) : list string :=
  match pat, path with
  | Param :: pat', s :: path' => s :: params pat' path'
  | Lit _ :: pat', _ :: path' => params pat' path'
  | _, _ => []
  end.

(** What becomes of a request in the router. *)
Inductive routed : Type :=
| Handled (e : endpoint)
    (* the handler of the route answers *)
| BadRequest
    (* a parameter could not be decoded: the router passes the error on,
       which is answered with status 400 *)
| Unmatched.
    (* no route matches: the request leaves the router *)

(** The loop of the router over its routes, in the order of their
    registration.  A route is matched on the path first, which decodes
    its parameters with [decodeURIComponent] ([decodes] tells of a
    segment whether that succeeds); once a decoding has failed ([err]),
    no later route is taken; otherwise the route is taken when it
    handles the method.  Every handler of this router ends the response
    and none calls [next()], so the first route taken is the only one. *)
Fixpoint route_loop (decodes : string → bool) (m : method) (path : list string)
    (err : bool) (rs : list (method * list segment * endpoint)) : routed :=
  match rs with
  | [] => if err then BadRequest else Unmatched
  | r :: rest =>
      if path_matches r.1.2 path then
        if negb (forallb decodes (params r.1.2 path))
        then route_loop decodes m path true rest
        else if err then route_loop decodes m path err rest
        else if method_eqb r.1.1 m then Handled r.2
        else route_loop decodes m path err rest
      else route_loop decodes m path err rest
  end.

Definition dispatch (decodes : string → bool) (m : method) (path : list string)
  : routed :=
  route_loop decodes m path false routes.

(** For the examples: a segment without a percent sign, which
    [decodeURIComponent] returns as it is. *)
Fixpoint no_percent (s : string) : bool :=
  match s with
  | EmptyString => true
  | String c r => negb (Ascii.eqb c "%") && no_percent r
  end.

End TrailerRoutes.

(** *** Vocabulary for the trailer selection *)

Definition on_youtube (v : TrailerRoutes.video) : Prop :=
  TrailerRoutes.v_site v = "YouTube".

(** The name contains one of the words that mark a short or vertical
    video, in any case of its letters. *)
Definition looks_short (name : string) : bool :=
  TrailerRoutes.includes "short" (TrailerRoutes.toLowerCase name) ||
  TrailerRoutes.includes "vertical" (TrailerRoutes.toLowerCase name) ||
  TrailerRoutes.includes "tiktok" (TrailerRoutes.toLowerCase name) ||
  TrailerRoutes.includes "reel" (TrailerRoutes.toLowerCase name).

(** The class of a video in the selection, the lower the better: official
    trailer, official teaser, trailer, teaser, another video, each with a
    name that does not look short; and last whatever looks short. *)
Definition rank (v : TrailerRoutes.video) : nat :=
  match TrailerRoutes.v_name v with
  | None => 5
  | Some name =>
      if looks_short name then 5
      else if String.eqb (TrailerRoutes.v_type v) "Trailer"
           then (if TrailerRoutes.v_official v then 0 else 2)
      else if String.eqb (TrailerRoutes.v_type v) "Teaser"
           then (if TrailerRoutes.v_official v then 1 else 3)
      else 4
  end%nat.

(** The predicate [p] accepts [v]. *)
Definition accepts (p : TrailerRoutes.video → TrailerRoutes.js bool)
    (v : TrailerRoutes.video) : bool :=
  match p v with
  | TrailerRoutes.Value true => true
  | _ => false
  end.

(** The first video of the lowest rank in [l]. *)
Definition first_best (v : TrailerRoutes.video) (l : list TrailerRoutes.video)
  : Prop :=
  ∃ before after,
    l = before ++ v :: after ∧
    Forall (λ u, (rank v < rank u)%nat) before ∧
    Forall (λ u, (rank v ≤ rank u)%nat) after.

(** *** Vocabulary for the coordinator *)

(** [k] polls of the waiting invocation [i], each at the moment its timer
    fires. *)
Definition polls (i k : nat) : list DownloadService.action :=
  concat (replicate k [DownloadService.Tick DownloadService.poll_delay;
                       DownloadService.Resume i]).

(** The ids locked at the start ([L0]) are still locked, and none of them
    is the id of a holder. *)
Definition locks_kept (L0 : gset string) (s : DownloadService.state) : Prop :=
  L0 ⊆ locks (DownloadService.st_world s) ∧
  ∀ i t,
    DownloadService.st_invocations s !! i = Some t →
    holds_lock (DownloadService.inv_pc t) = true →
    DownloadService.inv_contentId t ∉ L0.

(** The schedule of one acquisition that meets no obstacle: the pre-lock
    check, the lock, the double check, the download that leaves [bytes]
    at the temp path, and the commit under the faults [f]. *)
Definition acquisition (i : nat) (bytes : list byte)
    (f : StorageManager.sv_faults) : list DownloadService.action :=
  [DownloadService.Resume i;
   DownloadService.Settle i (DownloadService.Db false);
   DownloadService.Resume i;
   DownloadService.Resume i;
   DownloadService.Settle i (DownloadService.Db false);
   DownloadService.Resume i;
   DownloadService.Settle i (DownloadService.Exec true (Some bytes));
   DownloadService.Resume i;
   DownloadService.Resume i;
   DownloadService.Settle i (DownloadService.Txn f);
   DownloadService.Resume i].

(** The same schedule up to the return of [saveVideo]: all of it but the
    continuation that returns from [downloadAndStore]. *)
Definition acquisition_to_commit (i : nat) (bytes : list byte)
    (f : StorageManager.sv_faults) : list DownloadService.action :=
  removelast (acquisition i bytes f).

(** The path lies in the temp directory of the downloads,
    [./temp-downloads], whose entries [path.join] names
    [temp-downloads/...]. *)
Definition in_temp_dir (p : string) : bool :=
  JsString.starts_with "temp-downloads/" p.

(** Every invocation has completed, by a return or by a throw. *)
Definition all_finished (s : DownloadService.state) : Prop :=
  Forall (λ t, finished (DownloadService.inv_pc t) = true)
    (DownloadService.st_invocations s).

(** Every character of the string is in the ASCII range, where the
    classes [\w] and [\s] are as [sanitize] has them. *)
Definition all_ascii (s : string) : Prop :=
  Forall (λ c, (N_of_ascii c < 128)%N) (String.list_ascii_of_string s).

(** The characters that end or open something in a path or in a quoted
    shell word: slash, backslash, double quote, dollar sign, backquote. *)
Definition shell_special (c : ascii) : bool :=
  bool_decide (N_of_ascii c ∈ [47; 92; 34; 36; 96]%N).

(** Two documents agree on every path but [isActive] and [localPath],
    the two that eviction and self-healing write. *)
Definition same_but_state (a b : TrailerStorage) : Prop :=
  contentId a = contentId b ∧ tmdbId a = tmdbId b ∧ mediaType a = mediaType b ∧
  title a = title b ∧ fileSizeMB a = fileSizeMB b ∧
  videoQuality a = videoQuality b ∧ accessCount a = accessCount b ∧
  lastAccessed a = lastAccessed b ∧ priority a = priority b ∧
  createdAt a = createdAt b ∧ updatedAt a = updatedAt b.

(** No entry of the catalog has the priority that eviction selects. *)
Definition no_low_priority (cat : collection) : Prop :=
  ∀ r, r ∈ cat → priority r ≠ 1.

(** What the only invocation of a run has left in the catalog when its
    sweep of the temp directory has run: it has returned the store path,
    and the entries of the id are active and point at it. *)
Definition stored_and_returned (c path : string) (s : DownloadService.state)
  : Prop :=
  (∃ t, DownloadService.st_invocations s = [t] ∧ DownloadService.inv_pc t =
          DownloadService.Finished (Ok path)) ∧
  (∃ r, r ∈ catalog (DownloadService.st_world s) ∧ contentId r = c) ∧
  all_stored c path (catalog (DownloadService.st_world s)).

(** The response serves a file: its status is 200 or 206. *)
Definition served (r : StreamServer.response) : Prop :=
  StreamServer.status_of r = 200 ∨ StreamServer.status_of r = 206.

(** ** Example data for the route *)

Module RouteExamples.
Import TrailerRoutes.

Definition clip (site type name : string) (official : bool) : video :=
  {| v_site := site; v_type := type; v_official := official;
     v_name := Some name; v_key := "k_" +:+ name |}.

Definition well_named : video := clip "YouTube" "Trailer" "Official Trailer" true.

(** An official YouTube trailer that TMDB lists without a name. *)
Definition nameless : video :=
  {| v_site := "YouTube"; v_type := "Trailer"; v_official := true;
     v_name := None; v_key := "k" |}.

(** What TMDB may offer for one title: a Vimeo trailer, a vertical
    official trailer, a teaser, and the official trailer. *)
Definition offered : list video :=
  [clip "Vimeo" "Trailer" "Trailer" true;
   clip "YouTube" "Trailer" "Official Trailer (Vertical)" true;
   clip "YouTube" "Teaser" "Teaser" true;
   well_named].

(** Two invocations for [movie_1] on an empty store, as [both_start]
    leaves them: the first holds the lock and awaits its download, the
    second has just found the lock held and awaits its first poll. *)
Definition waiting : DownloadService.state :=
  {| DownloadService.st_world :=
       {| catalog := []; files := ∅; locks := {[ "movie_1" ]} |};
     DownloadService.st_now := 1000;
     DownloadService.st_invocations :=
       [ {| DownloadService.inv_contentId := "movie_1";
            DownloadService.inv_youtubeUrl := "https://www.youtube.com/watch?v=abc";
            DownloadService.inv_metadata := Examples.meta;
            DownloadService.inv_lockAcquired := true;
            DownloadService.inv_pc :=
              DownloadService.AwaitExec
                (DownloadService.tempFile "Fight Club" 1000) None |};
         {| DownloadService.inv_contentId := "movie_1";
            DownloadService.inv_youtubeUrl := "https://www.youtube.com/watch?v=abc";
            DownloadService.inv_metadata := Examples.meta;
            DownloadService.inv_lockAcquired := false;
            DownloadService.inv_pc := DownloadService.AwaitTimer 1000 2000 |} ];
     DownloadService.st_fetches := ["movie_1"] |}.

(** A request for the movie 550 without a range header. *)
Definition movie_request : http_request :=
  {| rq_type := "movie"; rq_id := "550"; rq_range := None |}.

(** The TMDB worker offers the videos [offered]. *)
Definition tmdb_offers : tmdb_reply :=
  TmdbData {| cd_title := "Fight Club"; cd_name := "" |} (Some offered).

(** A request that meets no fault and whose download, should it start
    one, runs along [download]. *)
Definition quiet (tmdb : tmdb_reply) (download : list DownloadService.action)
  : environment :=
  {| env_now := 1000; env_read := Examples.no_read_faults; env_tmdb := tmdb;
     env_download := download; env_thrown := "failed" |}.

Definition first_visit : environment :=
  quiet tmdb_offers (acquisition 0 Examples.new_bytes Examples.no_save_faults).

End RouteExamples.
(* ================================================================== *)
(** * Properties *)
(* ================================================================== *)

(** ** Decimal strings *)

Section decimal_strings.
Import JsString.

Lemma all_digits_uint d : all_digits (NilEmpty.string_of_uint d).
Proof.
  unfold all_digits.
  induction d; simpl; constructor; auto.
Qed.

Lemma all_digits_of_N n : all_digits (of_N n).
Proof.
  unfold of_N, NilZero.string_of_uint.
  destruct (N.to_uint n) eqn:E; try apply all_digits_uint.
  repeat constructor.
Qed.

Lemma of_N_nonempty n : of_N n ≠ EmptyString.
Proof.
  unfold of_N, NilZero.string_of_uint.
  destruct (N.to_uint n); discriminate.
Qed.

Lemma uint_of_N n : NilEmpty.uint_of_string (of_N n) = Some (N.to_uint n).
Proof.
  unfold of_N.
  assert (Hnn : N.to_uint n ≠ Decimal.Nil).
  { destruct n; [discriminate | apply DecimalPos.Unsigned.to_uint_nonnil]. }
  pose proof (NilZero.usu _ Hnn) as H.
  unfold NilZero.uint_of_string in H.
  destruct (NilZero.string_of_uint (N.to_uint n)) eqn:E; [discriminate | exact H].
Qed.

Lemma take_digits_app ds rest :
  all_digits ds → stops rest → take_digits (ds +:+ rest) = ds.
Proof.
  unfold all_digits. induction ds as [|c ds IH]; simpl; intros Hd Hr.
  - destruct rest; simpl in *; [done | by rewrite Hr].
  - inversion Hd as [|?? Hc Hds]; subst. rewrite Hc. f_equal. by apply IH.
Qed.

Lemma digit_not_space c : is_digit c = true → is_space c = false.
Proof.
  unfold is_digit, is_space. intros H.
  apply andb_true_iff in H as [H1 H2].
  apply N.leb_le in H1. apply N.leb_le in H2.
  apply orb_false_iff. split.
  - apply andb_false_iff. right. apply N.leb_gt. lia.
  - apply N.eqb_neq. lia.
Qed.

Lemma digit_not_sign c :
  is_digit c = true → c ≠ "-"%char ∧ c ≠ "+"%char.
Proof. intros H; split; intros ->; discriminate. Qed.

(** [parseInt] reads back what [String] printed, whatever non-digit
    text follows. *)
Lemma parseInt_of_N n rest :
  stops rest → parseInt (of_N n +:+ rest) = Int (Z.of_N n).
Proof.
  intros Hr. unfold parseInt.
  pose proof (all_digits_of_N n) as Hd.
  pose proof (of_N_nonempty n) as Hne.
  pose proof (uint_of_N n) as Hu.
  pose proof (take_digits_app _ _ Hd Hr) as Ht.
  destruct (of_N n) as [|c ds] eqn:E; [done|].
  unfold all_digits in Hd. simpl in Hd.
  inversion Hd as [|?? Hc Hds]; subst.
  change (String c ds +:+ rest) with (String c (ds +:+ rest)) in *.
  cbn [skip_space]. rewrite (digit_not_space _ Hc).
  destruct (digit_not_sign _ Hc) as [Hm Hp].
  assert (Hsign :
    match String c (ds +:+ rest) with
    | String "-" r => (true, r)
    | String "+" r => (false, r)
    | _ => (false, String c (ds +:+ rest))
    end = (false, String c (ds +:+ rest))).
  { destruct c as [[] [] [] [] [] [] [] []]; try reflexivity; congruence. }
  rewrite Hsign, Ht, Hu.
  by rewrite DecimalN.Unsigned.of_to.
Qed.

Lemma append_empty (s : string) : s +:+ EmptyString = s.
Proof.
  induction s as [|c s IH]; [done|].
  change (String c (s +:+ EmptyString) = String c s). by rewrite IH.
Qed.

Lemma parseInt_of_N_end n : parseInt (of_N n) = Int (Z.of_N n).
Proof.
  rewrite <- (parseInt_of_N n EmptyString I). by rewrite append_empty.
Qed.

Lemma split_digits_end sep ds :
  is_digit sep = false → all_digits ds → split sep ds = [ds].
Proof.
  unfold all_digits. intros Hs. induction ds as [|c ds IH]; simpl; intros Hd; [done|].
  inversion Hd as [|?? Hc Hds]; subst.
  destruct (Ascii.eqb_spec c sep) as [->|_]; [congruence|].
  by rewrite IH.
Qed.

Lemma split_digits_app sep ds rest :
  is_digit sep = false → all_digits ds →
  split sep (ds +:+ String sep rest) = ds :: split sep rest.
Proof.
  unfold all_digits. intros Hs. induction ds as [|c ds IH]; simpl; intros Hd.
  - by rewrite Ascii.eqb_refl.
  - inversion Hd as [|?? Hc Hds]; subst.
    destruct (Ascii.eqb_spec c sep) as [->|_]; [congruence|].
    by rewrite IH.
Qed.

Lemma of_num_nonneg z : 0 ≤ z → of_num (Int z) = of_N (Z.to_N z).
Proof. intros H. unfold of_num. destruct (Z.ltb_spec z 0); [lia | done]. Qed.

End decimal_strings.

(** ** Stream server *)

Section stream_server.
Import JsString StreamServer.

Lemma remove_first_bytes x : remove_first "bytes=" ("bytes=" +:+ x) = x.
Proof. reflexivity. Qed.

Lemma byte_span_length content s e :
  0 ≤ s → s ≤ e → e < Z.of_nat (length content) →
  length (byte_span content s e) = Z.to_nat (e - s + 1).
Proof.
  intros. unfold byte_span. rewrite length_take, length_drop. lia.
Qed.

Lemma byte_span_lookup content s e i :
  (i < Z.to_nat (e - s + 1))%nat →
  byte_span content s e !! i = content !! (Z.to_nat s + i)%nat.
Proof.
  intros. unfold byte_span. by rewrite lookup_take_lt, lookup_drop.
Qed.

Lemma truthy_of_N n : truthy (Some (of_N n)) = true.
Proof.
  pose proof (of_N_nonempty n). unfold truthy. by destruct (of_N n).
Qed.

Lemma dash_not_digit : is_digit "-" = false.
Proof. reflexivity. Qed.

Lemma stream_closed_range fs filePath content start end_ :
  fs !! filePath = Some content →
  0 ≤ start → start ≤ end_ → end_ ≤ MAX_SAFE_INTEGER →
  streamVideoFile fs filePath (Some (range_header start (Some end_))) =
  Piped 206
    [("Content-Range",
       "bytes " +:+ of_num (Int start) +:+ "-" +:+ of_num (Int end_) +:+
       "/" +:+ of_num (Int (Z.of_nat (length content))));
     ("Accept-Ranges", "bytes");
     ("Content-Length", of_num (Int (end_ - start + 1)));
     ("Content-Type", "video/mp4")]
    (byte_span content start end_).
Proof.
  intros Hf H0 Hse Hmax. unfold streamVideoFile. rewrite Hf.
  unfold range_header.
  rewrite !(of_num_nonneg start), !(of_num_nonneg end_) by lia.
  set (x := of_N (Z.to_N start) +:+ "-" +:+ of_N (Z.to_N end_)).
  change ("bytes=" +:+ x) with (String "b" ("ytes=" +:+ x)).
  cbv beta iota.
  change (remove_first "bytes=" (String "b" ("ytes=" +:+ x))) with x.
  subst x.
  change ("-" +:+ of_N (Z.to_N end_)) with (String "-" (of_N (Z.to_N end_))).
  rewrite split_digits_app by (apply dash_not_digit || apply all_digits_of_N).
  rewrite split_digits_end by (apply dash_not_digit || apply all_digits_of_N).
  cbn [lookup list_lookup from_option id].
  rewrite truthy_of_N, !parseInt_of_N_end, !Z2N.id by lia.
  unfold createReadStream.
  replace ((0 <=? start) && (start <=? MAX_SAFE_INTEGER) && (0 <=? end_) &&
           (end_ <=? MAX_SAFE_INTEGER) && (start <=? end_)) with true.
  2:{ symmetry. rewrite !andb_true_iff, !Z.leb_le. lia. }
  cbn [num_sub num_add].
  rewrite !(of_num_nonneg start), !(of_num_nonneg end_) by lia.
  reflexivity.
Qed.

Lemma stream_open_range fs filePath content start :
  fs !! filePath = Some content →
  0 ≤ start → start < Z.of_nat (length content) →
  Z.of_nat (length content) ≤ MAX_SAFE_INTEGER →
  streamVideoFile fs filePath (Some (range_header start None)) =
  Piped 206
    [("Content-Range",
       "bytes " +:+ of_num (Int start) +:+ "-" +:+
       of_num (Int (Z.of_nat (length content) - 1)) +:+
       "/" +:+ of_num (Int (Z.of_nat (length content))));
     ("Accept-Ranges", "bytes");
     ("Content-Length", of_num (Int (Z.of_nat (length content) - 1 - start + 1)));
     ("Content-Type", "video/mp4")]
    (byte_span content start (Z.of_nat (length content) - 1)).
Proof.
  intros Hf H0 Hlt Hmax. unfold streamVideoFile. rewrite Hf.
  unfold range_header.
  rewrite !(of_num_nonneg start) by lia.
  set (x := of_N (Z.to_N start) +:+ "-" +:+ EmptyString).
  change ("bytes=" +:+ x) with (String "b" ("ytes=" +:+ x)).
  cbv beta iota.
  change (remove_first "bytes=" (String "b" ("ytes=" +:+ x))) with x.
  subst x.
  change ("-" +:+ EmptyString) with (String "-" EmptyString).
  rewrite split_digits_app by (apply dash_not_digit || apply all_digits_of_N).
  cbn [split lookup list_lookup from_option id truthy].
  rewrite !parseInt_of_N_end, !Z2N.id by lia.
  unfold createReadStream. cbn [num_sub num_add].
  replace ((0 <=? start) && (start <=? MAX_SAFE_INTEGER) &&
           (0 <=? Z.of_nat (length content) - 1) &&
           (Z.of_nat (length content) - 1 <=? MAX_SAFE_INTEGER) &&
           (start <=? Z.of_nat (length content) - 1)) with true.
  2:{ symmetry. rewrite !andb_true_iff, !Z.leb_le. lia. }
  rewrite !(of_num_nonneg start) by lia.
  reflexivity.
Qed.

Lemma stream_no_range fs filePath content :
  fs !! filePath = Some content →
  streamVideoFile fs filePath None =
  Piped 200
    [("Content-Length", of_num (Int (Z.of_nat (length content))));
     ("Content-Type", "video/mp4");
     ("Cache-Control", "public, max-age=604800")]
    content.
Proof. intros Hf. unfold streamVideoFile. by rewrite Hf. Qed.

End stream_server.

(* ================================================================== *)
(** * Properties of the stream server *)
(* ================================================================== *)

Section claims_stream.
Import JsString StreamServer.

(** C2. Range serving.  For a stored file of [S] bytes (a size a
    JavaScript number holds exactly) and a request with the header
    [bytes=start-end], [0 <= start <= end < S], the response has status
    206, the header [Content-Range: bytes start-end/S] and as body the
    [end - start + 1] bytes at the offsets [start..end] of the file; with
    the end left out it is served as [end = S - 1]; and a request without
    a range header gets status 200, [Content-Length: S] and the whole
    file. *)
Theorem C2_range_serving (fs : filesystem) (filePath : string)
    (content : list byte) (start end_ : Z) :
  fs !! filePath = Some content →
  Z.of_nat (length content) ≤ MAX_SAFE_INTEGER →
  0 ≤ start → start ≤ end_ → end_ < Z.of_nat (length content) →
  let S := Z.of_nat (length content) in
  let closed := streamVideoFile fs filePath (Some (range_header start (Some end_))) in
  let open := streamVideoFile fs filePath (Some (range_header start None)) in
  let full := streamVideoFile fs filePath None in
  (status_of closed = 206 ∧
   header "Content-Range" closed =
     Some ("bytes " +:+ of_num (Int start) +:+ "-" +:+ of_num (Int end_) +:+
           "/" +:+ of_num (Int S)) ∧
   header "Content-Length" closed = Some (of_num (Int (end_ - start + 1))) ∧
   length (body_of closed) = Z.to_nat (end_ - start + 1) ∧
   (∀ i, (i < Z.to_nat (end_ - start + 1))%nat →
         body_of closed !! i = content !! (Z.to_nat start + i)%nat)) ∧
  (status_of open = 206 ∧
   header "Content-Range" open =
     Some ("bytes " +:+ of_num (Int start) +:+ "-" +:+ of_num (Int (S - 1)) +:+
           "/" +:+ of_num (Int S)) ∧
   body_of open = drop (Z.to_nat start) content) ∧
  (status_of full = 200 ∧
   header "Content-Length" full = Some (of_num (Int S)) ∧
   body_of full = content).
Proof.
  intros Hf Hmax H0 Hse Hlt S closed open full.
  subst closed open full S.
  rewrite (stream_closed_range _ _ _ _ _ Hf) by (unfold MAX_SAFE_INTEGER in *; lia).
  rewrite (stream_open_range _ _ _ _ Hf) by lia.
  rewrite (stream_no_range _ _ _ Hf).
  cbn [status_of header body_of assoc String.eqb Ascii.eqb Bool.eqb].
  repeat split.
  - apply byte_span_length; lia.
  - intros i Hi. by apply byte_span_lookup.
  - unfold byte_span. apply take_ge. rewrite length_drop. lia.
Qed.

(** C2 at the example of the document: [bytes=100-199] of a file of
    1000 bytes. *)
Lemma C2_range_serving_witness :
  let content := replicate 1000 Byte.x41 in
  let fs : filesystem := {[ "/srv/trailers/movie_550.mp4" := content ]} in
  let closed :=
    streamVideoFile fs "/srv/trailers/movie_550.mp4" (Some "bytes=100-199") in
  status_of closed = 206 ∧
  header "Content-Range" closed = Some "bytes 100-199/1000" ∧
  length (body_of closed) = 100%nat.
Proof.
  intros content fs closed.
  assert (Hf : fs !! "/srv/trailers/movie_550.mp4" = Some content)
    by (subst fs; apply lookup_singleton_eq).
  destruct (C2_range_serving fs "/srv/trailers/movie_550.mp4" content 100 199 Hf)
    as [(Hst & Hcr & _ & Hlen & _) _];
    [ vm_compute; discriminate | lia | lia | subst content; rewrite length_replicate; lia | ].
  change (range_header 100 (Some 199)) with "bytes=100-199" in Hst, Hcr, Hlen.
  subst closed. split; [exact Hst | split; [| exact Hlen]].
  rewrite Hcr. subst content. by rewrite length_replicate.
Defined.

End claims_stream.

(* ================================================================== *)
(** * Properties of the content store *)
(* ================================================================== *)

Section eviction_order.
Import StorageManager.

(** What [sort_le] decides, in terms of the keys. *)
Lemma sort_le_keys f a b : sort_le f a b = true → keys_le a b.
Proof.
  unfold sort_le, keys_le. intros H.
  destruct (Z.ltb_spec (lastAccessed a) (lastAccessed b)); [by left|].
  destruct (Z.eqb_spec (lastAccessed a) (lastAccessed b)); cbn in H; [|done].
  right. split; [done|].
  destruct (Z.ltb_spec (accessCount a) (accessCount b)); [lia|].
  destruct (Z.eqb_spec (accessCount a) (accessCount b)); cbn in H; [lia | done].
Qed.

Lemma sort_le_total f a b : sort_le f a b = false → sort_le f b a = true.
Proof.
  unfold sort_le. intros H.
  destruct (Z.ltb_spec (lastAccessed a) (lastAccessed b)); [done|].
  destruct (Z.eqb_spec (lastAccessed a) (lastAccessed b)) as [E|E]; cbn in H.
  - destruct (Z.ltb_spec (accessCount a) (accessCount b)); [done|].
    destruct (Z.eqb_spec (accessCount a) (accessCount b)) as [E'|E']; cbn in H.
    + apply Z.leb_gt in H.
      rewrite E, E', !Z.ltb_irrefl, !Z.eqb_refl. cbn.
      apply Z.leb_le. lia.
    + rewrite E, Z.ltb_irrefl, Z.eqb_refl. cbn.
      apply orb_true_iff. left. apply Z.ltb_lt. lia.
  - apply orb_true_iff. left. apply Z.ltb_lt. lia.
Qed.

Lemma keys_le_trans a b c : keys_le a b → keys_le b c → keys_le a c.
Proof. unfold keys_le. lia. Qed.

Lemma sort_insert_perm f x l : sort_insert f x l ≡ₚ x :: l.
Proof.
  induction l as [|y t IH]; simpl; [done|].
  destruct (sort_le f x y); [done|].
  rewrite IH. apply Permutation_swap.
Qed.

Lemma sort_docs_perm f l : sort_docs f l ≡ₚ l.
Proof.
  induction l as [|x t IH]; simpl; [done|].
  unfold sort_docs in *. simpl. by rewrite sort_insert_perm, IH.
Qed.

Lemma sort_insert_sorted f x l :
  sorted_by_keys l → sorted_by_keys (sort_insert f x l).
Proof.
  unfold sorted_by_keys.
  induction 1 as [|y t Hs IH Hy]; simpl.
  - repeat constructor.
  - destruct (sort_le f x y) eqn:E.
    + apply sort_le_keys in E.
      constructor; [by constructor|].
      constructor; [done|].
      eapply Forall_impl; [exact Hy|]. intros z Hz. by eapply keys_le_trans.
    + constructor; [done|].
      rewrite sort_insert_perm. constructor; [|done].
      by eapply sort_le_keys, sort_le_total.
Qed.

Lemma sort_docs_sorted f l : sorted_by_keys (sort_docs f l).
Proof.
  induction l as [|x t IH]; [constructor|].
  by apply sort_insert_sorted.
Qed.

Lemma sorted_take n l : sorted_by_keys l → sorted_by_keys (take n l).
Proof.
  unfold sorted_by_keys. intros H.
  rewrite <- (take_drop n l) in H. by apply StronglySorted_app_1_l in H.
Qed.

Lemma elem_of_candidates f r c :
  r ∈ candidates f c → r ∈ c ∧ isActive r = true ∧ priority r = 1.
Proof.
  unfold candidates. intros H.
  apply elem_of_take in H as (i & H & _).
  apply list_elem_of_lookup_2 in H.
  rewrite sort_docs_perm in H.
  apply list_elem_of_In, filter_In in H as [Hin Hc].
  unfold is_candidate in Hc. apply andb_true_iff in Hc as [Ha Hp].
  apply Z.eqb_eq in Hp. by rewrite list_elem_of_In.
Qed.

(** What the limit leaves out sorts after everything it keeps. *)
Lemma candidates_first f r c :
  r ∈ c → is_candidate r = true → r ∉ candidates f c →
  length (candidates f c) = 10%nat ∧
  Forall (λ x, keys_le x r) (candidates f c).
Proof.
  unfold candidates. intros Hin Hc Hout.
  set (l := sort_docs f (List.filter is_candidate c)) in *.
  assert (Hl : r ∈ l).
  { subst l. rewrite sort_docs_perm. apply list_elem_of_In, filter_In.
    by rewrite <- list_elem_of_In. }
  rewrite <- (take_drop 10 l) in Hl. apply elem_of_app in Hl as [Hl|Hl]; [done|].
  split.
  - rewrite length_take. apply Nat.min_l.
    destruct (decide (10 ≤ length l)%nat) as [|Hn]; [done|].
    rewrite drop_ge in Hl by lia. by apply elem_of_nil in Hl.
  - apply Forall_forall. intros x Hx.
    pose proof (sort_docs_sorted f (List.filter is_candidate c)) as Hs.
    fold l in Hs. unfold sorted_by_keys in Hs.
    rewrite <- (take_drop 10 l) in Hs.
    by eapply (StronglySorted_app_1_elem_of _ _ _ x r) in Hs.
Qed.

(** Of two candidates that agree on both keys, the one the database
    returns first comes first. *)
Lemma candidates_tied f a b :
  is_candidate a = true → is_candidate b = true → keys_tied a b →
  candidates f [a; b] = if cl_order f a <=? cl_order f b then [a; b] else [b; a].
Proof.
  intros Ha Hb [E1 E2]. unfold candidates. cbn [List.filter].
  rewrite Ha, Hb. cbn [sort_docs foldr sort_insert].
  unfold sort_le. rewrite E1, E2, !Z.ltb_irrefl, !Z.eqb_refl. cbn [orb andb].
  by destruct (cl_order f a <=? cl_order f b).
Qed.

End eviction_order.

Section eviction_effects.
Import StorageManager.

Lemma has_id_true cid r : has_id cid r = true ↔ contentId r = cid.
Proof. unfold has_id. apply String.eqb_eq. Qed.

Lemma has_id_false cid r : has_id cid r = false ↔ contentId r ≠ cid.
Proof. unfold has_id. apply String.eqb_neq. Qed.

Lemma unlink_if_exists_lookup p fs : unlink_if_exists p fs !! p = None.
Proof.
  unfold unlink_if_exists, existsSync. case_bool_decide as H.
  - apply lookup_delete_eq.
  - by apply eq_None_not_Some.
Qed.

Lemma unlink_if_exists_none p q fs :
  fs !! q = None → unlink_if_exists p fs !! q = None.
Proof.
  unfold unlink_if_exists. intros H. destruct (existsSync fs p); [|done].
  destruct (decide (p = q)) as [->|Hne].
  - apply lookup_delete_eq.
  - by rewrite lookup_delete_ne.
Qed.

Lemma unlink_if_exists_ne p q fs :
  p ≠ q → unlink_if_exists p fs !! q = fs !! q.
Proof.
  unfold unlink_if_exists. intros H. destruct (existsSync fs p); [|done].
  by rewrite lookup_delete_ne.
Qed.

(** The schema rejects the document that [evict] saves. *)
Lemma evict_save_rejected video :
  validates (with_localPath None (with_isActive false video)) = false.
Proof. reflexivity. Qed.

(** So [evict] deletes the file and leaves the count and the catalog as
    they are. *)
Lemma evict_eq f n w video :
  evict f (n, w) video =
  (n, if existsSync_opt (files w) (localPath video) && cl_unlink f (contentId video)
      then w
      else match localPath video with
           | Some p => set_files (unlink_if_exists p (files w)) w
           | None => w
           end).
Proof.
  unfold evict. rewrite evict_save_rejected.
  by destruct (existsSync_opt _ _ && cl_unlink f _).
Qed.

Lemma evict_count f st video : (evict f st video).1 = st.1.
Proof. destruct st as [n w]. by rewrite evict_eq. Qed.

Lemma evict_catalog f st video : catalog (evict f st video).2 = catalog st.2.
Proof.
  destruct st as [n w]. rewrite evict_eq. cbn [snd].
  destruct (existsSync_opt _ _ && cl_unlink f _); [done|].
  by destruct (localPath video).
Qed.

Lemma evict_locks f st video : locks (evict f st video).2 = locks st.2.
Proof.
  destruct st as [n w]. rewrite evict_eq. cbn [snd].
  destruct (existsSync_opt _ _ && cl_unlink f _); [done|].
  by destruct (localPath video).
Qed.

Lemma foldl_evict_count f l st : (foldl (evict f) st l).1 = st.1.
Proof.
  revert st. induction l as [|r t IH]; intros st; [done|].
  cbn [foldl]. by rewrite IH, evict_count.
Qed.

Lemma foldl_evict_catalog f l st :
  catalog (foldl (evict f) st l).2 = catalog st.2.
Proof.
  revert st. induction l as [|r t IH]; intros st; [done|].
  cbn [foldl]. by rewrite IH, evict_catalog.
Qed.

Lemma evict_set_locks f n w video L :
  evict f (n, set_locks L w) video =
  ((evict f (n, w) video).1, set_locks L (evict f (n, w) video).2).
Proof.
  rewrite !evict_eq. cbn [files set_locks catalog fst snd].
  destruct (existsSync_opt _ _ && cl_unlink f _); [done|].
  by destruct (localPath video).
Qed.

Lemma foldl_evict_set_locks f l n w L :
  foldl (evict f) (n, set_locks L w) l =
  ((foldl (evict f) (n, w) l).1, set_locks L (foldl (evict f) (n, w) l).2).
Proof.
  revert n w. induction l as [|r t IH]; intros n w; [done|].
  cbn [foldl]. rewrite evict_set_locks.
  destruct (evict f (n, w) r) as [n1 w1]. apply IH.
Qed.

Lemma foldl_evict_locks f l st : locks (foldl (evict f) st l).2 = locks st.2.
Proof.
  revert st. induction l as [|r t IH]; intros st; [done|].
  cbn [foldl]. by rewrite IH, evict_locks.
Qed.

(** An eviction only ever removes files. *)
Lemma evict_files_none f st video q :
  files st.2 !! q = None → files (evict f st video).2 !! q = None.
Proof.
  destruct st as [n w]. rewrite evict_eq. cbn [snd]. intros H.
  destruct (existsSync_opt _ _ && cl_unlink f _); [done|].
  destruct (localPath video) as [p|]; [|done]. by apply unlink_if_exists_none.
Qed.

Lemma foldl_evict_files_none f l st q :
  files st.2 !! q = None → files (foldl (evict f) st l).2 !! q = None.
Proof.
  revert st. induction l as [|r t IH]; intros st H; [done|].
  cbn [foldl]. by apply IH, evict_files_none.
Qed.

Lemma evict_deletes f st video p :
  localPath video = Some p → cl_unlink f (contentId video) = false →
  files (evict f st video).2 !! p = None.
Proof.
  destruct st as [n w]. rewrite evict_eq. intros Hp Hu. rewrite Hp, Hu, andb_false_r.
  apply unlink_if_exists_lookup.
Qed.

Lemma foldl_evict_deletes f l st video p :
  video ∈ l → localPath video = Some p → cl_unlink f (contentId video) = false →
  files (foldl (evict f) st l).2 !! p = None.
Proof.
  revert st. induction l as [|r t IH]; intros st Hin Hp Hu.
  - by apply elem_of_nil in Hin.
  - cbn [foldl]. apply elem_of_cons in Hin as [<-|Hin].
    + by apply foldl_evict_files_none, evict_deletes.
    + by apply IH.
Qed.

(** What a cleanup does not touch: the catalog, and the files that no
    candidate points at. *)
Lemma cleanup_catalog f w : catalog (cleanup f w).2 = catalog w.
Proof.
  unfold cleanup. destruct (cl_find f); [done|]. by rewrite foldl_evict_catalog.
Qed.

Lemma checkAndCleanup_catalog cfg f w :
  catalog (checkAndCleanup cfg f w) = catalog w.
Proof.
  unfold checkAndCleanup. destruct (near_limit _ _); [|done]. apply cleanup_catalog.
Qed.

Lemma evict_files_ne f st video q :
  localPath video ≠ Some q → files (evict f st video).2 !! q = files st.2 !! q.
Proof.
  destruct st as [n w]. rewrite evict_eq. cbn [snd]. intros H.
  destruct (existsSync_opt _ _ && cl_unlink f _); [done|].
  destruct (localPath video) as [p|]; [|done].
  apply unlink_if_exists_ne. congruence.
Qed.

Lemma foldl_evict_files_ne f l st q :
  (∀ video, video ∈ l → localPath video ≠ Some q) →
  files (foldl (evict f) st l).2 !! q = files st.2 !! q.
Proof.
  revert st. induction l as [|r t IH]; intros st H; [done|].
  cbn [foldl]. rewrite IH.
  - apply evict_files_ne, H. by left.
  - intros v Hv. apply H. by right.
Qed.

End eviction_effects.

Section claims_store.
Import StreamServer StorageManager Examples.

(** C9, as stated, fails: a request for a file that does not exist is not
    answered with a not-found status. *)
Lemma C9_missing_file_not_404 :
  ¬ is_not_found (streamVideoFile ∅ (getVideoPath cfg "movie_550") None).
Proof. unfold is_not_found. vm_compute. discriminate. Qed.

(** C9, amended.  When no file exists at [filePath], [streamVideoFile]
    catches its own [Error('Video file not found')] and answers with status
    500 and the JSON body [{ success: false, error: 'Failed to stream video' }],
    whatever the range header. *)
Theorem C9_missing_file_is_stream_error (fs : filesystem) (filePath : string)
    (range : option string) :
  fs !! filePath = None →
  streamVideoFile fs filePath range =
  Json 500 [("success", "false"); ("error", "Failed to stream video")].
Proof. intros H. unfold streamVideoFile. by rewrite H. Qed.

Lemma C9_missing_file_witness :
  streamVideoFile ∅ (getVideoPath cfg "movie_550") (Some "bytes=0-99") =
  Json 500 [("success", "false"); ("error", "Failed to stream video")].
Proof. apply C9_missing_file_is_stream_error. apply lookup_empty. Defined.

(** C3, as stated, fails: an active entry of priority 2 is no candidate at
    all; and of two entries that agree on both sort keys the one that the
    database returns first comes first, here [b] before [a], whatever
    their [contentId]s. *)
Lemma C3_selection_differs_from_spec :
  map contentId (candidates no_cleanup_faults three) = ["movie_1"; "movie_2"] ∧
  map contentId (listEvictionCandidates_spec 10 three) =
    ["movie_1"; "movie_2"; "movie_3"] ∧
  map contentId (candidates b_comes_first tied) = ["b"; "a"] ∧
  map contentId (listEvictionCandidates_spec 10 tied) = ["a"; "b"].
Proof. repeat split; reflexivity. Qed.

(** C3, amended.  The query of [cleanup] returns at most 10 entries, each
    an active entry of priority exactly 1, ordered by [lastAccessed] and
    then [accessCount], both ascending; an active priority-1 entry that the
    limit leaves out sorts after every entry returned.  Entries of another
    priority are never candidates.  The query names no further key: of two
    candidates that agree on both keys, the one that the database returns
    first comes first.  So for entries of priorities [1; 1; 2] of which the
    first was accessed before the second, eviction handles the first, then
    the second, and never the third. *)
Theorem C3_eviction_candidates (f : cl_faults) (c : collection) :
  ((length (candidates f c) ≤ 10)%nat ∧
   (∀ r, r ∈ candidates f c → r ∈ c ∧ isActive r = true ∧ priority r = 1) ∧
   sorted_by_keys (candidates f c) ∧
   (∀ r, r ∈ c → isActive r = true → priority r = 1 → r ∉ candidates f c →
         length (candidates f c) = 10%nat ∧
         Forall (λ x, keys_le x r) (candidates f c))) ∧
  (∀ a b,
     isActive a = true → isActive b = true → priority a = 1 → priority b = 1 →
     keys_tied a b →
     candidates f [a; b] = if cl_order f a <=? cl_order f b then [a; b] else [b; a]) ∧
  (∀ e1 e2 e3 w,
     isActive e1 = true → isActive e2 = true →
     priority e1 = 1 → priority e2 = 1 → priority e3 = 2 →
     lastAccessed e1 < lastAccessed e2 →
     catalog w = [e1; e2; e3] → cl_find f = false →
     candidates f (catalog w) = [e1; e2] ∧
     cleanup f w = evict f (evict f (0%nat, w) e1) e2).
Proof.
  split; [split; [|split; [|split]] | split].
  - unfold candidates. rewrite length_take. lia.
  - intros r. apply elem_of_candidates.
  - apply sorted_take, sort_docs_sorted.
  - intros r Hin Ha Hp Hout. apply candidates_first; try done.
    unfold is_candidate. by rewrite Ha, Hp.
  - intros a b Aa Ab Pa Pb Htied. apply candidates_tied; [| |done].
    + unfold is_candidate. by rewrite Aa, Pa.
    + unfold is_candidate. by rewrite Ab, Pb.
  - intros e1 e2 e3 w A1 A2 P1 P2 P3 Hlt Hc Hf.
    assert (Hcs : candidates f [e1; e2; e3] = [e1; e2]).
    { unfold candidates, is_candidate. cbn [List.filter].
      rewrite A1, A2, P1, P2, P3. cbn [andb Z.eqb Pos.eqb].
      rewrite andb_false_r. cbn [sort_docs foldr sort_insert].
      assert (Hle : sort_le f e1 e2 = true).
      { unfold sort_le. apply orb_true_iff. left. by apply Z.ltb_lt. }
      by rewrite Hle. }
    unfold cleanup. by rewrite Hf, Hc, Hcs.
Qed.

Lemma C3_eviction_candidates_witness :
  candidates no_cleanup_faults (catalog locked_world) =
    [entry "movie_1" 1 100 0 true; entry "movie_2" 1 900 0 true] ∧
  candidates b_comes_first tied = [entry "b" 1 100 0 true; entry "a" 1 100 0 true].
Proof.
  split.
  - refine (proj1 (proj2 (proj2 (C3_eviction_candidates no_cleanup_faults []))
      (entry "movie_1" 1 100 0 true) (entry "movie_2" 1 900 0 true)
      (entry "movie_3" 2 100 0 true) locked_world
      _ _ _ _ _ _ _ _)); reflexivity.
  - refine (proj1 (proj2 (C3_eviction_candidates b_comes_first []))
      (entry "a" 1 100 0 true) (entry "b" 1 100 0 true) _ _ _ _ _);
      [reflexivity | reflexivity | reflexivity | reflexivity | split; reflexivity].
Defined.

(** C4, as stated, fails: while [movie_1] is in the lock table with its
    entry active and its file in the store, an eviction run deletes the
    file, with or without a fault of the database at the save that
    follows. *)
Lemma C4_locked_entry_is_evicted :
  "movie_1" ∈ locks locked_world ∧
  is_Some (files locked_world !! getVideoPath cfg "movie_1") ∧
  is_Some (findOne_active (catalog locked_world) "movie_1") ∧
  files (cleanup no_cleanup_faults locked_world).2 !! getVideoPath cfg "movie_1" = None ∧
  files (cleanup saves_fail locked_world).2 !! getVideoPath cfg "movie_1" = None.
Proof.
  split; [unfold locked_world; cbn; apply elem_of_singleton_2; reflexivity|].
  repeat split; try (vm_compute; eauto; fail).
Qed.

(** C4, amended.  An eviction run does not consult the lock table: it
    leaves the table as it is, and what it does to the catalog and to the
    files is the same whatever ids are locked.  Every candidate, locked or
    not, has its file deleted, unless the unlink throws. *)
Theorem C4_eviction_ignores_locks (f : cl_faults) (w : world) (L : gset string) :
  locks (cleanup f w).2 = locks w ∧
  cleanup f (set_locks L w) = ((cleanup f w).1, set_locks L (cleanup f w).2) ∧
  (∀ video p,
     cl_find f = false → video ∈ candidates f (catalog w) →
     localPath video = Some p → cl_unlink f (contentId video) = false →
     files (cleanup f w).2 !! p = None).
Proof.
  unfold cleanup. split_and!.
  - destruct (cl_find f); [done|]. by rewrite foldl_evict_locks.
  - cbn [catalog set_locks]. destruct (cl_find f); [done|].
    apply foldl_evict_set_locks.
  - intros video p Hf Hin Hp Hu. rewrite Hf. by eapply foldl_evict_deletes.
Qed.

Lemma C4_eviction_ignores_locks_witness :
  files (cleanup no_cleanup_faults locked_world).2 !! getVideoPath cfg "movie_1" = None.
Proof.
  apply (proj2 (proj2 (C4_eviction_ignores_locks no_cleanup_faults locked_world ∅))
    (entry "movie_1" 1 100 0 true) (getVideoPath cfg "movie_1"));
    [reflexivity | | reflexivity | reflexivity].
  rewrite list_elem_of_In. vm_compute. auto.
Defined.

End claims_store.

(* ================================================================== *)
(** * Properties of the catalog operations *)
(* ================================================================== *)

Section catalog_facts.

Lemma findOne_save_paths g cid c :
  (∀ r, contentId (g r) = contentId r) →
  findOne (save_paths g cid c) cid = g <$> findOne c cid.
Proof.
  intros Hg. unfold findOne, save_paths. induction c as [|r t IH]; [done|].
  cbn. destruct (has_id cid r) eqn:E.
  - assert (has_id cid (g r) = true) as ->; [|done].
    apply has_id_true. rewrite Hg. by apply has_id_true.
  - by rewrite E.
Qed.

Lemma findOne_save_paths_ne g cid cid' c :
  (∀ r, contentId (g r) = contentId r) → cid ≠ cid' →
  findOne (save_paths g cid c) cid' = findOne c cid'.
Proof.
  intros Hg Hne. unfold findOne, save_paths. induction c as [|r t IH]; [done|].
  cbn. destruct (has_id cid r) eqn:E.
  - apply has_id_true in E.
    assert (has_id cid' (g r) = false) as ->.
    { apply has_id_false. rewrite Hg. congruence. }
    assert (has_id cid' r = false) as ->; [|done].
    apply has_id_false. congruence.
  - destruct (has_id cid' r); [done | exact IH].
Qed.

Lemma findOne_active_deactivated cid c :
  findOne_active (save_paths (with_isActive false) cid c) cid = None.
Proof.
  unfold findOne_active, save_paths. induction c as [|r t IH]; [done|].
  cbn. destruct (has_id cid r) eqn:E.
  - by rewrite andb_false_r.
  - by rewrite E.
Qed.

Lemma findOne_active_Some c cid r :
  findOne_active c cid = Some r →
  r ∈ c ∧ contentId r = cid ∧ isActive r = true.
Proof.
  unfold findOne_active. intros H. apply find_some in H as [Hin H].
  apply andb_true_iff in H as [H1 H2]. apply has_id_true in H1.
  by rewrite list_elem_of_In.
Qed.

Lemma findOne_Some c cid r :
  findOne c cid = Some r → r ∈ c ∧ contentId r = cid.
Proof.
  unfold findOne. intros H. apply find_some in H as [Hin H].
  apply has_id_true in H. by rewrite list_elem_of_In.
Qed.

(** Marking inactive leaves every [localPath] as it was. *)
Lemma deactivate_keeps_paths cid c :
  map localPath (save_paths (with_isActive false) cid c) = map localPath c.
Proof.
  unfold save_paths. rewrite map_map. apply map_ext. intros r.
  by destruct (has_id cid r).
Qed.

End catalog_facts.

Section claims_read_path.
Import StorageManager Examples.

(** C8, as stated, fails: [movie_1] is active and its file exists, yet
    when the save of the access statistics is rejected [getVideoInfo]
    returns [null], not the entry's path. *)
Lemma C8_failed_bump_is_a_miss :
  is_Some (findOne_active (catalog hit_world) "movie_1") ∧
  existsSync (files hit_world) (getVideoPath cfg "movie_1") = true ∧
  (getVideoInfo save_rejects 1000 "movie_1" hit_world).1 = None.
Proof. repeat split; vm_compute; eauto. Qed.

(** C8, amended.  [getVideoInfo] never throws.  On a cache hit (an active
    entry whose file exists) it returns the entry's path only when the
    access statistics were saved: then [accessCount] is one more and
    [lastAccessed] is now.  When that save is rejected the error is caught
    and [getVideoInfo] returns [null], so the hit is reported as a miss;
    catalog and files are left as they were. *)
Theorem C8_bump_failure_turns_hit_into_miss (now : Z) (cid : string) (w : world)
    (record : TrailerStorage) (p : string) :
  findOne_active (catalog w) cid = Some record →
  localPath record = Some p →
  existsSync (files w) p = true →
  getVideoInfo {| gv_find := false; gv_save := true |} now cid w = (None, w) ∧
  getVideoInfo {| gv_find := false; gv_save := false |} now cid w =
    (Some {| vi_path := p;
             vi_record := with_access (accessCount record + 1) now record |},
     set_catalog
       (save_paths (with_access (accessCount record + 1) now) cid (catalog w)) w).
Proof.
  intros Hr Hp He. unfold getVideoInfo. cbn [gv_find gv_save].
  by rewrite Hr, Hp, He.
Qed.

Lemma C8_bump_failure_witness :
  getVideoInfo save_rejects 1000 "movie_1" hit_world = (None, hit_world).
Proof.
  refine (proj1 (C8_bump_failure_turns_hit_into_miss 1000 "movie_1" hit_world
    (entry "movie_1" 2 100 3 true) (getVideoPath cfg "movie_1") _ _ _));
    reflexivity.
Defined.

End claims_read_path.

(* ================================================================== *)
(** * Properties of the commit *)
(* ================================================================== *)

Section claims_commit.
Import StorageManager Examples.

Lemma saveVideo_fails_after_copy cfg f now cid tmp m w bytes :
  files w !! tmp = Some bytes →
  fails_after_copy (sv_fault_at f) →
  rollback_completes f →
  saveVideo cfg f now cid tmp m w =
  (Throw DbError,
   set_files
     (unlink_if_exists (getVideoPath cfg cid)
        (<[getVideoPath cfg cid := bytes]> (files w))) w).
Proof.
  intros Hf Hfault Hrb. unfold saveVideo, saveVideo_copy, saveVideo_txn.
  rewrite Hf.
  destruct Hfault as [E|[E|[E|E]]]; rewrite E; cbn [files set_files];
    destruct Hrb as [E'|E']; rewrite ?E'; try congruence; try reflexivity.
Qed.



(** C6 fails on the code.  The commit of the transaction is rejected, and
    so is the [session.abortTransaction()] that opens the [catch] block:
    the block is left before it reaches [unlinkSync], and the failure
    surfaces while the copy that this call has made stays at the final
    path, with no catalog entry for it. *)
Lemma C6_rejected_abort_leaves_copy :
  files reacquire_world !! getVideoPath cfg "movie_9" = None ∧
  (saveVideo cfg abort_fails 2000 "movie_9" "temp-downloads/Fight Club_1000.mp4"
     meta reacquire_world).1 = Throw DbError ∧
  files (saveVideo cfg abort_fails 2000 "movie_9" "temp-downloads/Fight Club_1000.mp4"
           meta reacquire_world).2 !! getVideoPath cfg "movie_9" = Some new_bytes ∧
  catalog (saveVideo cfg abort_fails 2000 "movie_9" "temp-downloads/Fight Club_1000.mp4"
             meta reacquire_world).2 = catalog reacquire_world.
Proof. split_and!; reflexivity. Qed.

(** When the [catch] block of [saveVideo] runs to its end, a failure after
    the copy is undone: if the session cannot be opened, or the lookup,
    the save of the record or the commit of the transaction is rejected
    and the abort resolves, then the failure is thrown to the caller, the
    catalog is what it was before the call, no file is left at the final
    path, and every other file is untouched. *)
Theorem saveVideo_failure_is_undone (cfg : config) (f : sv_faults) (now : Z)
    (cid tempFilePath : string) (m : metadata) (w : world) (bytes : list byte) :
  files w !! tempFilePath = Some bytes →
  fails_after_copy (sv_fault_at f) →
  rollback_completes f →
  let r := (saveVideo cfg f now cid tempFilePath m w).1 in
  let w' := (saveVideo cfg f now cid tempFilePath m w).2 in
  r = Throw DbError ∧
  catalog w' = catalog w ∧
  files w' !! getVideoPath cfg cid = None ∧
  (∀ q, q ≠ getVideoPath cfg cid → files w' !! q = files w !! q) ∧
  locks w' = locks w.
Proof.
  intros Hf Hfault Hrb r w'. subst r w'.
  rewrite (saveVideo_fails_after_copy _ _ _ _ _ _ _ _ Hf Hfault Hrb).
  cbn [fst snd catalog files locks set_files]. repeat split.
  - apply unlink_if_exists_lookup.
  - intros q Hq. rewrite unlink_if_exists_ne by done. by rewrite lookup_insert_ne.
Qed.

Lemma saveVideo_failure_is_undone_witness :
  (saveVideo cfg save_fails 2000 "movie_9" "temp-downloads/Fight Club_1000.mp4"
     meta reacquire_world).1 = Throw DbError ∧
  files (saveVideo cfg save_fails 2000 "movie_9" "temp-downloads/Fight Club_1000.mp4"
           meta reacquire_world).2 !! getVideoPath cfg "movie_9" = None.
Proof.
  destruct (saveVideo_failure_is_undone cfg save_fails 2000 "movie_9"
    "temp-downloads/Fight Club_1000.mp4" meta reacquire_world new_bytes)
    as (H1 & _ & H3 & _).
  - reflexivity.
  - right; right; left; reflexivity.
  - right; reflexivity.
  - split; [exact H1 | exact H3].
Defined.




End claims_commit.

(* ================================================================== *)
(** * Properties of the acquisition coordinator *)
(* ================================================================== *)

Section event_loop.
Import StorageManager DownloadService.

Lemma step_Resume cfg i s t t' w' fetch :
  st_invocations s !! i = Some t →
  resume cfg (st_now s) false nothing_to_sweep t (st_world s) = Some (t', w', fetch) →
  step cfg (Resume i) s =
  Some {| st_world := w'; st_now := st_now s;
          st_invocations := <[i := t']> (st_invocations s);
          st_fetches := if fetch then inv_contentId t :: st_fetches s
                        else st_fetches s |}.
Proof.
  intros Ht Hr. unfold step, do_resume. rewrite Ht. cbn.
  rewrite option_guard_True by done. cbn.
  rewrite option_guard_True by (by intros [? ?]). cbn. by rewrite Hr.
Qed.

Lemma step_ResumeSweep cfg i sw s t t' w' fetch :
  st_invocations s !! i = Some t →
  sweeps (inv_pc t) = true →
  resume cfg (st_now s) false sw t (st_world s) = Some (t', w', fetch) →
  step cfg (ResumeSweep i sw) s =
  Some {| st_world := w'; st_now := st_now s;
          st_invocations := <[i := t']> (st_invocations s);
          st_fetches := if fetch then inv_contentId t :: st_fetches s
                        else st_fetches s |}.
Proof.
  intros Ht Hsw Hr. unfold step, do_resume. rewrite Ht. cbn.
  rewrite option_guard_True by done. cbn.
  rewrite option_guard_True by done. cbn. by rewrite Hr.
Qed.

Lemma do_resume_Some cfg b sw i s s' :
  do_resume cfg b sw i s = Some s' →
  ∃ t t' w' fetch,
    st_invocations s !! i = Some t ∧
    resume cfg (st_now s) b (default nothing_to_sweep sw) t (st_world s) =
      Some (t', w', fetch) ∧
    s' = {| st_world := w'; st_now := st_now s;
            st_invocations := <[i := t']> (st_invocations s);
            st_fetches := if fetch then inv_contentId t :: st_fetches s
                          else st_fetches s |}.
Proof.
  unfold do_resume. intros H.
  destruct (st_invocations s !! i) as [t|] eqn:Ht; [|discriminate H]. cbn in H.
  do 2 case_guard; cbn in H; try discriminate H.
  destruct (resume cfg (st_now s) b (default nothing_to_sweep sw) t (st_world s))
    as [[[t' w'] fetch]|] eqn:Hr; [|discriminate H].
  cbn in H. injection H as <-. by exists t, t', w', fetch.
Qed.

Lemma step_Settle cfg i o s t t' w' :
  st_invocations s !! i = Some t →
  settle cfg (st_now s) o t (st_world s) = Some (t', w') →
  step cfg (Settle i o) s =
  Some {| st_world := w'; st_now := st_now s;
          st_invocations := <[i := t']> (st_invocations s);
          st_fetches := st_fetches s |}.
Proof.
  intros Ht Hr. unfold step. rewrite Ht. cbn. by rewrite Hr.
Qed.

Lemma waitForLock_turn_enters now t w :
  acquiring (inv_pc (waitForLock_turn now now t w).1) ∧
  catalog (waitForLock_turn now now t w).2 = catalog w ∧
  files (waitForLock_turn now now t w).2 = files w.
Proof.
  unfold waitForLock_turn, acquireLock.
  case_bool_decide as Hl.
  - rewrite Z.sub_diag. cbn. done.
  - cbn. done.
Qed.

End event_loop.

Section sweep_files.
Import StorageManager DownloadService TempSweep.

Lemma starts_with_app a b : JsString.starts_with a (a +:+ b) = true.
Proof.
  induction a as [|x a IH]; [done|].
  change (String x a +:+ b) with (String x (a +:+ b)).
  cbn [JsString.starts_with]. by rewrite Ascii.eqb_refl, IH.
Qed.

Lemma starts_with_prefix a b s :
  JsString.starts_with (a +:+ b) s = true → JsString.starts_with a s = true.
Proof.
  revert s. induction a as [|x a IH]; intros s H; [done|].
  destruct s as [|y s]; [done|].
  change (String x a +:+ b) with (String x (a +:+ b)) in H.
  cbn [JsString.starts_with] in *.
  apply andb_true_iff in H as [-> H]. by apply IH.
Qed.

Lemma entry_path_in_temp_dir name : in_temp_dir (entry_path name) = true.
Proof. apply starts_with_app. Qed.

Lemma below_in_temp_dir name k :
  below (entry_path name) k = true → in_temp_dir k = true.
Proof.
  unfold below, entry_path, in_temp_dir. intros H.
  change (JsString.starts_with ("temp-downloads/" +:+ (name +:+ "/")) k = true) in H.
  by eapply starts_with_prefix.
Qed.

(** The sweep removes entries of the temp directory only, and adds
    nothing. *)
Lemma remove_entry_outside e fs q :
  in_temp_dir q = false → remove_entry e fs !! q = fs !! q.
Proof.
  intros Hq. unfold remove_entry.
  assert (Hne : entry_path (d_name e) ≠ q).
  { intros <-. by rewrite entry_path_in_temp_dir in Hq. }
  destruct (d_isDirectory e); [|by rewrite lookup_delete_ne].
  destruct (fs !! q) as [v|] eqn:Hv.
  - apply map_lookup_filter_Some. split; [by rewrite lookup_delete_ne|].
    cbn. destruct (below (entry_path (d_name e)) q) eqn:Hb; [|done].
    apply below_in_temp_dir in Hb. congruence.
  - apply map_lookup_filter_None. left. by rewrite lookup_delete_ne.
Qed.

Lemma remove_entry_subseteq e fs q v :
  remove_entry e fs !! q = Some v → fs !! q = Some v.
Proof.
  unfold remove_entry. destruct (d_isDirectory e).
  - intros [H _]%map_lookup_filter_Some. by apply lookup_delete_Some in H as [_ ?].
  - intros H. by apply lookup_delete_Some in H as [_ ?].
Qed.

Lemma sweep_files_outside f now l fs q :
  in_temp_dir q = false → sweep_files f now l fs !! q = fs !! q.
Proof.
  intros Hq. revert fs. induction l as [|e rest IH]; intros fs; [done|].
  cbn [sweep_files]. repeat case_match; try done.
  by rewrite IH, remove_entry_outside.
Qed.

Lemma sweep_files_subseteq f now l fs q v :
  sweep_files f now l fs !! q = Some v → fs !! q = Some v.
Proof.
  revert fs. induction l as [|e rest IH]; intros fs H; [done|].
  cbn [sweep_files] in H. repeat case_match; try done; try (by apply IH).
  by apply (remove_entry_subseteq e), IH.
Qed.

Lemma cleanupTempFiles_frame sw now w :
  catalog (DownloadService.cleanupTempFiles sw now w) = catalog w ∧
  locks (DownloadService.cleanupTempFiles sw now w) = locks w ∧
  (∀ q, in_temp_dir q = false → files (DownloadService.cleanupTempFiles sw now w) !! q = files w !! q) ∧
  (∀ q v, files (DownloadService.cleanupTempFiles sw now w) !! q = Some v → files w !! q = Some v).
Proof.
  unfold DownloadService.cleanupTempFiles, cleanupTempFiles_on. cbn [catalog locks files set_files].
  split_and!; try done.
  - intros q Hq. destruct (sw_readdir _); [done|]. by apply sweep_files_outside.
  - intros q v. destruct (sw_readdir _); [done|]. apply sweep_files_subseteq.
Qed.

Lemma cleanupTempFiles_nothing now w : DownloadService.cleanupTempFiles nothing_to_sweep now w = w.
Proof. by destruct w. Qed.

End sweep_files.

Section claims_self_healing.
Import StorageManager DownloadService Examples.

(** C5, as stated, fails: after [getVideoInfo] has found the file of the
    active entry [movie_1] missing, the entry is inactive but its
    [localPath] is still the path of the missing file, not [null]; and so
    it is after the pre-lock check of [downloadAndStore]. *)
Lemma C5_localPath_is_not_cleared :
  map (λ r, (isActive r, localPath r))
    (catalog (getVideoInfo no_read_faults 1000 "movie_1" drift_world).2) =
    [(false, Some (getVideoPath cfg "movie_1"))] ∧
  (λ s, map (λ r, (isActive r, localPath r)) (catalog (st_world s))) <$>
    run cfg [Resume 0; Settle 0 (Db false); Resume 0; Settle 0 (Db false); Resume 0]
      (initial drift_world 1000 [("movie_1", "https://youtu.be/x", meta)]) =
    Some [(false, Some (getVideoPath cfg "movie_1"))].
Proof. split; reflexivity. Qed.

(** C5, amended.  When [getVideoInfo], or the pre-lock check of
    [downloadAndStore], finds an active entry whose file does not exist, it
    sets [isActive] to false and leaves [localPath] as it was.  The request
    then goes on as a cache miss: [getVideoInfo] returns [null] (also when
    the save is rejected, the entry then staying active), and
    [downloadAndStore], once the save has succeeded, enters [waitForLock]
    without having called the Fetcher; neither returns the missing path. *)
Theorem C5_missing_file_marks_inactive (f : gv_faults) (now : Z) (cid : string)
    (w : world) (record : TrailerStorage) :
  gv_find f = false →
  findOne_active (catalog w) cid = Some record →
  existsSync_opt (files w) (localPath record) = false →
  ((getVideoInfo f now cid w).1 = None ∧
   (getVideoInfo f now cid w).2 =
     (if gv_save f then w
      else set_catalog (save_paths (with_isActive false) cid (catalog w)) w) ∧
   map localPath (save_paths (with_isActive false) cid (catalog w)) =
     map localPath (catalog w) ∧
   findOne_active (save_paths (with_isActive false) cid (catalog w)) cid = None) ∧
  (∀ cfg s i t r,
     st_invocations s !! i = Some t →
     inv_pc t = AwaitFindExisting (Some (Ok (Some r))) →
     isActive r = true →
     existsSync_opt (files (st_world s)) (localPath r) = false →
     ∃ s' t',
       run cfg [Resume i; Settle i (Db false); Resume i] s = Some s' ∧
       catalog (st_world s') =
         save_paths (with_isActive false) (inv_contentId t) (catalog (st_world s)) ∧
       files (st_world s') = files (st_world s) ∧
       st_fetches s' = st_fetches s ∧
       st_invocations s' !! i = Some t' ∧
       acquiring (inv_pc t')).
Proof.
  intros Hfind Hrec Hmiss. split.
  - unfold getVideoInfo. rewrite Hfind, Hrec.
    unfold existsSync_opt in Hmiss.
    destruct (localPath record) as [p|]; [rewrite Hmiss|];
      destruct (gv_save f); cbn;
      auto using deactivate_keeps_paths, findOne_active_deactivated.
  - clear. intros cfg s i t r Ht Hpc Hact Hmiss.
    assert (Hi : (i < length (st_invocations s))%nat) by by eapply lookup_lt_Some.
    set (t1 := at_pc (AwaitSaveInactive None) t).
    assert (H1 : resume cfg (st_now s) false nothing_to_sweep t (st_world s) =
                 Some (t1, st_world s, false)).
    { unfold resume. rewrite Hpc, Hact. unfold existsSync_opt in Hmiss.
      destruct (localPath r); [by rewrite Hmiss | done]. }
    set (t2 := at_pc (AwaitSaveInactive (Some (Ok ()))) t1).
    set (w2 := set_catalog
                 (save_paths (with_isActive false) (inv_contentId t)
                    (catalog (st_world s))) (st_world s)).
    pose proof (waitForLock_turn_enters (st_now s) t2 w2) as (Hacq & Hcat & Hfiles).
    destruct (waitForLock_turn (st_now s) (st_now s) t2 w2) as [t3 w3] eqn:Hturn.
    exists {| st_world := w3; st_now := st_now s;
              st_invocations := <[i := t3]> (<[i := t2]> (<[i := t1]> (st_invocations s)));
              st_fetches := st_fetches s |}, t3.
    split; [|repeat split; try done].
    + cbn [run]. erewrite step_Resume by done.
      erewrite step_Settle; [| cbn; by apply list_lookup_insert_eq | reflexivity ].
      cbn [st_world st_now st_invocations st_fetches].
      erewrite step_Resume;
        [| cbn; apply list_lookup_insert_eq; by rewrite length_insert
         | cbn; unfold resume; cbn; fold t1 t2 w2; by rewrite Hturn ].
      reflexivity.
    + cbn. apply list_lookup_insert_eq. by rewrite !length_insert.
Qed.

Lemma C5_missing_file_witness :
  (getVideoInfo no_read_faults 1000 "movie_1" drift_world).1 = None ∧
  findOne_active
    (catalog (getVideoInfo no_read_faults 1000 "movie_1" drift_world).2)
    "movie_1" = None.
Proof.
  destruct (C5_missing_file_marks_inactive no_read_faults 1000 "movie_1"
    drift_world (entry "movie_1" 2 100 3 true)) as [(H1 & H2 & _ & H4) _];
    [reflexivity | reflexivity | reflexivity |].
  split; [exact H1 | by rewrite H2].
Defined.

End claims_self_healing.

Section lock_discipline.
Import StorageManager DownloadService.

Lemma checkAndCleanup_locks cfg f w : locks (checkAndCleanup cfg f w) = locks w.
Proof.
  unfold checkAndCleanup. destruct (near_limit _ _); [|done].
  unfold cleanup. destruct (cl_find f); [done|]. by rewrite foldl_evict_locks.
Qed.

Lemma saveVideo_txn_locks cfg f now cid m p size w :
  locks (saveVideo_txn cfg f now cid m p size w).2 = locks w.
Proof.
  unfold saveVideo_txn.
  destruct (sv_fault_at f); cbn; rewrite ?checkAndCleanup_locks; try done;
    by destruct (sv_abort f).
Qed.

Lemma saveVideo_copy_locks cfg f cid tmp w :
  locks (saveVideo_copy cfg f cid tmp w).2 = locks w.
Proof.
  unfold saveVideo_copy. destruct (files w !! tmp); [|done].
  by destruct (sv_fault_at f).
Qed.

Lemma settle_lock cfg now o t w t' w' :
  settle cfg now o t w = Some (t', w') →
  flag_ok t →
  inv_contentId t' = inv_contentId t ∧ flag_ok t' ∧
  holds_lock (inv_pc t') = holds_lock (inv_pc t) ∧ locks w' = locks w ∧
  finished (inv_pc t) = false ∧ finished (inv_pc t') = false.
Proof.
  unfold settle, flag_ok. intros H Hf.
  destruct t as [cid url m la p]; cbn in *.
  destruct p as [|[]|[]| | |[]|? []| |? ? []|]; destruct o; try discriminate.
  - by simplify_eq.
  - destruct rejects; by simplify_eq.
  - by simplify_eq.
  - destruct written; by simplify_eq.
  - by simplify_eq.
  - pose proof (saveVideo_txn_locks cfg f now cid m finalPath size w) as Hl.
    destruct (saveVideo_txn cfg f now cid m finalPath size w) as [r w1].
    by simplify_eq.
Qed.

Lemma finish_move r t w w0 :
  locks w = locks w0 →
  holds_lock (inv_pc t) = inv_lockAcquired t →
  lock_move t (finish r t w).1 w0 (finish r t w).2.
Proof.
  intros Hl Hh. unfold finish. destruct (inv_lockAcquired t) eqn:E; cbn.
  - apply lock_release; [done | done | by rewrite Hl].
  - by apply lock_keep.
Qed.

Lemma waitForLock_turn_move now startTime t w :
  inv_lockAcquired t = false → holds_lock (inv_pc t) = false →
  flag_ok (waitForLock_turn now startTime t w).1 ∧
  lock_move t (waitForLock_turn now startTime t w).1 w
    (waitForLock_turn now startTime t w).2.
Proof.
  intros Hla Hh. unfold waitForLock_turn, acquireLock, finish.
  case_bool_decide as Hl.
  - destruct (lock_timeout <? now - startTime); rewrite ?Hla; cbn.
    + split; [done | by apply lock_keep].
    + split; [done | by apply lock_keep].
  - cbn. split; [done | by apply lock_acquire].
Qed.

Lemma finish_lock r t w w0 t' w' :
  finish r t w = (t', w') →
  locks w = locks w0 →
  holds_lock (inv_pc t) = inv_lockAcquired t →
  inv_contentId t' = inv_contentId t ∧ flag_ok t' ∧ lock_move t t' w0 w'.
Proof.
  intros H Hl Hh. pose proof (finish_move r t w w0 Hl Hh) as Hm.
  rewrite H in Hm. unfold finish in H. by simplify_eq.
Qed.

Lemma waitForLock_turn_lock now startTime t w t' w' :
  waitForLock_turn now startTime t w = (t', w') →
  inv_lockAcquired t = false → holds_lock (inv_pc t) = false →
  inv_contentId t' = inv_contentId t ∧ flag_ok t' ∧ lock_move t t' w w'.
Proof.
  intros Heq Hla Hh.
  pose proof (waitForLock_turn_move now startTime t w Hla Hh) as [H1 H2].
  rewrite Heq in H1, H2. split_and!; try done.
  unfold waitForLock_turn, acquireLock, finish in Heq.
  repeat case_match; by simplify_eq.
Qed.

Lemma resume_lock cfg now b sw t w t' w' fetch :
  resume cfg now b sw t w = Some (t', w', fetch) →
  flag_ok t →
  inv_contentId t' = inv_contentId t ∧ flag_ok t' ∧ lock_move t t' w w' ∧
  finished (inv_pc t) = false.
Proof.
  intros H Hf.
  assert (Hfin : finished (inv_pc t) = false).
  { unfold resume in H. by destruct (inv_pc t) as [|[]|[]| | |[]|? []| |? ? []|]. }
  cut (inv_contentId t' = inv_contentId t ∧ flag_ok t' ∧ lock_move t t' w w');
    [by intros (? & ? & ?)|].
  unfold resume in H. pose proof Hf as Hf'. unfold flag_ok in Hf.
  destruct (inv_pc t) as [|[[]|]|[[]|]| | |[[]|]|? [[]|]| |? ? [[]|]|] eqn:Hpc;
    cbn in H; repeat (first [ progress simplify_eq | case_match ]);
    try (eapply waitForLock_turn_lock; [eassumption | done | by rewrite Hpc]);
    try (eapply finish_lock; [eassumption | done | by rewrite ?Hpc, ?Hf]);
    try (split_and!; [done | by unfold flag_ok; cbn | apply lock_keep; cbn; [by rewrite Hpc | done]]).
  - (* waitForLock returned false *)
    eapply (finish_lock _ _ w w) in H as (H1 & H2 & H3);
      [| done | by cbn; rewrite Hpc].
    split_and!; try done.
    inversion H3 as [Ha Hb|Ha Hb Hc Hd|Ha Hb Hc]; cbn in *;
      rewrite ?Hpc in *; cbn in *; try done.
    + by apply lock_keep; rewrite ?Hpc.
    + by apply lock_acquire; rewrite ?Hpc.
  - (* the copy to the final path *)
    match goal with
    | Hc : saveVideo_copy _ ?f _ _ _ = _ |- _ =>
        pose proof (saveVideo_copy_locks cfg f (inv_contentId t) tmp w) as Hl;
        rewrite Hc in Hl; cbn in Hl
    end.
    split_and!; [done | by unfold flag_ok; cbn | apply lock_keep; cbn; [by rewrite Hpc | done]].
  - match goal with
    | Hc : saveVideo_copy _ ?f _ _ _ = _ |- _ =>
        pose proof (saveVideo_copy_locks cfg f (inv_contentId t) tmp w) as Hl;
        rewrite Hc in Hl; cbn in Hl
    end.
    split_and!; [done | by unfold flag_ok; cbn | apply lock_keep; cbn; [by rewrite Hpc | done]].
  - match goal with
    | Hc : saveVideo_copy _ ?f _ _ _ = _ |- _ =>
        pose proof (saveVideo_copy_locks cfg f (inv_contentId t) tmp w) as Hl;
        rewrite Hc in Hl; cbn in Hl
    end.
    eapply finish_lock; [eassumption | done | by rewrite Hpc, Hf].
  - match goal with
    | Hc : saveVideo_copy _ ?f _ _ _ = _ |- _ =>
        pose proof (saveVideo_copy_locks cfg f (inv_contentId t) tmp w) as Hl;
        rewrite Hc in Hl; cbn in Hl
    end.
    eapply finish_lock; [eassumption | done | by rewrite Hpc, Hf].
Qed.

End lock_discipline.

Section lock_invariant.
Import StorageManager DownloadService.

Lemma finished_not_holder p : finished p = true → holds_lock p = false.
Proof. by destruct p. Qed.

Lemma lock_inv_update L0 s i t t' w' now' fetches' :
  lock_inv L0 s →
  st_invocations s !! i = Some t →
  inv_contentId t' = inv_contentId t →
  flag_ok t' →
  lock_move t t' (st_world s) w' →
  lock_inv L0 {| st_world := w'; st_now := now';
                 st_invocations := <[i := t']> (st_invocations s);
                 st_fetches := fetches' |}.
Proof.
  intros (Hflag & Hlocked & Hone & Hown) Ht Hcid Hf' Hmove.
  assert (Hi : (i < length (st_invocations s))%nat) by by eapply lookup_lt_Some.
  unfold lock_inv, holders_locked, one_holder, locks_owned.
  cbn [st_world st_invocations]. split_and!.
  - by apply Forall_insert.
  - intros j tj Hj Hh. apply list_lookup_insert_Some in Hj as [(<- & <- & _)|[Hne Hj]].
    + destruct Hmove as [Hk Hl|Ha Hb Hc Hd|Ha Hb Hc].
      * rewrite Hl, Hcid. apply (Hlocked i t); congruence.
      * rewrite Hd, Hcid. set_solver.
      * apply finished_not_holder in Hb. congruence.
    + pose proof (Hlocked j tj Hj Hh) as Hin.
      destruct Hmove as [Hk Hl|Ha Hb Hc Hd|Ha Hb Hc].
      * by rewrite Hl.
      * rewrite Hd. set_solver.
      * rewrite Hc. apply elem_of_difference. split; [done|].
        intros Heq%elem_of_singleton. apply Hne. by eapply (Hone i j t tj).
  - intros j k tj tk Hj Hk Hhj Hhk Hsame.
    apply list_lookup_insert_Some in Hj as [(<- & <- & _)|[Hnej Hj]];
      apply list_lookup_insert_Some in Hk as [(<- & <- & _)|[Hnek Hk]];
      try done.
    + destruct Hmove as [Hkeep Hl|Ha Hb Hc Hd|Ha Hb Hc].
      * apply (Hone i k t tk); congruence.
      * exfalso. apply Hc. rewrite <- Hcid, Hsame. by apply (Hlocked k tk).
      * apply finished_not_holder in Hb. congruence.
    + destruct Hmove as [Hkeep Hl|Ha Hb Hc Hd|Ha Hb Hc].
      * apply (Hone j i tj t); congruence.
      * exfalso. apply Hc. rewrite <- Hcid, <- Hsame. by apply (Hlocked j tj).
      * apply finished_not_holder in Hb. congruence.
    + by apply (Hone j k tj tk).
  - intros cid Hin.
    destruct Hmove as [Hkeep Hl|Ha Hb Hc Hd|Ha Hb Hc].
    + rewrite Hl in Hin. destruct (Hown cid Hin) as [|(j & tj & Hj & Hcj & Hhj)]; [by left|].
      right. destruct (decide (i = j)) as [<-|Hne].
      * exists i, t'. simplify_eq. split_and!; [by apply list_lookup_insert_eq | done | congruence].
      * exists j, tj. by rewrite list_lookup_insert_ne.
    + rewrite Hd in Hin. apply elem_of_union in Hin as [Hin%elem_of_singleton|Hin].
      * right. exists i, t'. split_and!; [by apply list_lookup_insert_eq | congruence | done].
      * destruct (Hown cid Hin) as [|(j & tj & Hj & Hcj & Hhj)]; [by left|].
        right. exists j, tj. rewrite list_lookup_insert_ne; [done|].
        intros <-. simplify_eq. congruence.
    + rewrite Hc in Hin. apply elem_of_difference in Hin as [Hin Hne].
      destruct (Hown cid Hin) as [|(j & tj & Hj & Hcj & Hhj)]; [by left|].
      right. exists j, tj. rewrite list_lookup_insert_ne; [done|].
      intros <-. simplify_eq. set_solver.
Qed.

Lemma step_lock_inv cfg L0 a s s' :
  step cfg a s = Some s' → lock_inv L0 s → lock_inv L0 s'.
Proof.
  intros Hstep Hinv.
  assert (Hres : ∀ b sw i, do_resume cfg b sw i s = Some s' → lock_inv L0 s').
  { intros b sw i H.
    apply do_resume_Some in H as (t & t' & w' & fetch & Ht & Hr & ->).
    pose proof Hinv as (Hflag & _).
    assert (Hf : flag_ok t).
    { eapply Forall_forall in Hflag; [done|]. by eapply list_elem_of_lookup_2. }
    destruct (resume_lock _ _ _ _ _ _ _ _ _ Hr Hf) as (Hcid & Hf' & Hmove & _).
    by eapply lock_inv_update. }
  destruct a as [ms|i o|i|i|i sw]; cbn in Hstep; eauto.
  - case_match; [|done]. simplify_eq. destruct Hinv as (? & ? & ? & ?). done.
  - destruct (st_invocations s !! i) as [t|] eqn:Ht; [|done]. cbn in Hstep.
    destruct (settle cfg (st_now s) o t (st_world s)) as [[t' w']|] eqn:Hr; [|done].
    cbn in Hstep. simplify_eq.
    pose proof Hinv as (Hflag & _).
    assert (Hf : flag_ok t).
    { eapply Forall_forall in Hflag; [done|]. by eapply list_elem_of_lookup_2. }
    destruct (settle_lock _ _ _ _ _ _ _ Hr Hf) as (Hcid & Hf' & Hh & Hl & _).
    eapply lock_inv_update; try done. by apply lock_keep.
Qed.

Lemma run_lock_inv cfg L0 acts s s' :
  run cfg acts s = Some s' → lock_inv L0 s → lock_inv L0 s'.
Proof.
  revert s. induction acts as [|a rest IH]; intros s Hrun Hinv; cbn in Hrun.
  - by simplify_eq.
  - destruct (step cfg a s) as [s1|] eqn:Hs; [|done].
    eapply IH; [done|]. by eapply step_lock_inv.
Qed.

Lemma initial_lock_inv w now calls : lock_inv (locks w) (initial w now calls).
Proof.
  unfold lock_inv, holders_locked, one_holder, locks_owned, initial.
  cbn [st_invocations st_world]. split_and!.
  - apply Forall_forall. intros t Ht. apply list_elem_of_fmap in Ht as (x & -> & _). done.
  - intros i t Ht Hh. apply list_lookup_fmap_Some in Ht as (x & -> & _). done.
  - intros i j ti tj Hi _ Hh. apply list_lookup_fmap_Some in Hi as (x & -> & _). done.
  - auto.
Qed.

End lock_invariant.

Section claims_lock_release.
Import StorageManager DownloadService Examples.

(** C7.  Along every run of the event loop, whatever the awaited
    operations answer (rejected queries, a failed download, a failed
    commit, a lock wait that times out): an invocation that has taken the
    lock holds it until it completes, and the step in which it completes,
    by a return or by a throw, removes its id from the lock table.  Hence
    no completed invocation leaves a lock behind: every id in the table was
    there before the run or is held by an invocation still in flight, and
    an id that was free at the start is free again once all invocations
    for it have completed. *)
Theorem C7_lock_always_released (cfg : config) (w0 : world) (now0 : Z)
    (calls : list (string * string * metadata)) (acts : list action) (s : state) :
  run cfg acts (initial w0 now0 calls) = Some s →
  (∀ a s' i t t',
     step cfg a s = Some s' →
     st_invocations s !! i = Some t → st_invocations s' !! i = Some t' →
     holds_lock (inv_pc t) = true →
     (holds_lock (inv_pc t') = true ∧ finished (inv_pc t') = false) ∨
     (finished (inv_pc t') = true ∧ inv_contentId t ∉ locks (st_world s'))) ∧
  locks_owned (locks w0) s ∧
  (∀ cid,
     cid ∉ locks w0 →
     (∀ t, t ∈ st_invocations s → inv_contentId t = cid → finished (inv_pc t) = true) →
     cid ∉ locks (st_world s)).
Proof.
  intros Hrun.
  pose proof (run_lock_inv _ _ _ _ _ Hrun (initial_lock_inv w0 now0 calls))
    as (Hflag & Hlocked & Hone & Hown).
  split_and!; [|done|].
  - intros a s' i t t' Hstep Ht Ht' Hh.
    assert (Hf : flag_ok t).
    { eapply Forall_forall in Hflag; [done|]. by eapply list_elem_of_lookup_2. }
    assert (Hstay : holds_lock (inv_pc t) = true ∧ finished (inv_pc t) = false).
    { split; [done|]. by destruct (inv_pc t). }
    assert (Hres : ∀ b sw j, do_resume cfg b sw j s = Some s' →
      (holds_lock (inv_pc t') = true ∧ finished (inv_pc t') = false) ∨
      (finished (inv_pc t') = true ∧ inv_contentId t ∉ locks (st_world s'))).
    { intros b sw j H.
      apply do_resume_Some in H as (tj & tj' & w' & fetch & Hj & Hr & ->). cbn in *.
      apply list_lookup_insert_Some in Ht' as [(<- & <- & _)|[Hne Ht']];
        [|left; by simplify_eq].
      simplify_eq.
      destruct (resume_lock _ _ _ _ _ _ _ _ _ Hr Hf) as (Hcid & Hf' & Hmove & _).
      destruct Hmove as [Hk Hl|Ha Hb Hc Hd|Ha Hb Hc].
      - left. split; [congruence|]. rewrite Hh in Hk. by destruct (inv_pc tj').
      - congruence.
      - right. split; [done|]. rewrite Hc. set_solver. }
    destruct a as [ms|j o|j|j|j sw]; cbn in Hstep; eauto.
    + case_match; [|done]. simplify_eq. cbn in *. left. by simplify_eq.
    + destruct (st_invocations s !! j) as [tj|] eqn:Hj; [|done]. cbn in Hstep.
      destruct (settle cfg (st_now s) o tj (st_world s)) as [[tj' w']|] eqn:Hr; [|done].
      cbn in Hstep. simplify_eq. cbn in *.
      apply list_lookup_insert_Some in Ht' as [(<- & <- & _)|[Hne Ht']];
        [|left; by simplify_eq].
      simplify_eq.
      destruct (settle_lock _ _ _ _ _ _ _ Hr Hf) as (_ & _ & Hk & _ & _ & Hfin).
      left. split; congruence.
  - intros cid Hfree Hall Hin.
    destruct (Hown cid Hin) as [|(i & t & Ht & Hcid & Hh)]; [done|].
    apply list_elem_of_lookup_2 in Ht.
    specialize (Hall t Ht Hcid). apply finished_not_holder in Hall. congruence.
Qed.

Lemma C7_lock_released_witness :
  match run cfg fetch_fails (initial empty_world 1000 [request]) with
  | Some s =>
      (inv_pc <$> st_invocations s) = [Finished (Throw ExecError)] ∧
      "movie_1" ∉ locks (st_world s)
  | None => False
  end.
Proof.
  destruct (run cfg fetch_fails (initial empty_world 1000 [request])) as [s|] eqn:Hrun;
    [|vm_compute in Hrun; discriminate].
  pose proof (C7_lock_always_released _ _ _ _ _ _ Hrun) as (_ & _ & Hfree).
  assert (Hpcs : (inv_pc <$> st_invocations s) = [Finished (Throw ExecError)]).
  { vm_compute in Hrun. by simplify_eq. }
  split; [done|]. apply Hfree.
  - cbn. set_solver.
  - intros t Ht _. apply (list_elem_of_fmap_2 inv_pc) in Ht. rewrite Hpcs in Ht.
    apply list_elem_of_singleton in Ht. by rewrite Ht.
Defined.

End claims_lock_release.

(* ================================================================== *)
(** * Deduplication of concurrent acquisitions *)
(* ================================================================== *)

Section dedup_catalog.
Import StorageManager.
Context (c path : string).

Lemma find_is_Some {A} (f : A → bool) (l : list A) x :
  x ∈ l → f x = true → is_Some (List.find f l).
Proof.
  induction l as [|y t IH]; intros Hin Hx.
  - by apply elem_of_nil in Hin.
  - cbn. destruct (f y) eqn:E; [by eexists|].
    apply elem_of_cons in Hin as [->|Hin]; [congruence | by apply IH].
Qed.

Lemma all_inactive_findOne cat r :
  all_inactive c cat → findOne cat c = Some r → isActive r = false.
Proof. intros Ha Hf. apply findOne_Some in Hf as [Hin Hid]. by apply Ha. Qed.

Lemma all_inactive_findOne_active cat :
  all_inactive c cat → findOne_active cat c = None.
Proof.
  intros Ha. destruct (findOne_active cat c) as [r|] eqn:E; [|done].
  apply findOne_active_Some in E as (Hin & Hid & Hact).
  rewrite (Ha r Hin Hid) in Hact. done.
Qed.

Lemma committed_findOne w r :
  committed c path w → findOne (catalog w) c = Some r →
  isActive r = true ∧ localPath r = Some path.
Proof.
  intros (_ & Hs & _) Hf. apply findOne_Some in Hf as [Hin Hid]. by apply Hs.
Qed.

Lemma committed_findOne_active w :
  committed c path w →
  ∃ r, findOne_active (catalog w) c = Some r ∧ localPath r = Some path.
Proof.
  intros ((r0 & Hin0 & Hid0) & Hs & _).
  destruct (find_is_Some (λ r, has_id c r && isActive r) (catalog w) r0 Hin0) as [r Hr].
  { destruct (Hs r0 Hin0 Hid0) as [-> _]. by rewrite (proj2 (has_id_true c r0) Hid0). }
  exists r. split; [done|].
  apply findOne_active_Some in Hr as (Hin & Hid & _). by apply Hs.
Qed.

Lemma findOne_None cat : findOne cat c = None → ∀ r, r ∈ cat → contentId r ≠ c.
Proof.
  intros Hf r Hin Hid.
  destruct (find_is_Some (has_id c) cat r Hin) as [x Hx]; [by apply has_id_true|].
  unfold findOne in Hf. congruence.
Qed.

Lemma elem_of_save_paths g cid cat r :
  r ∈ save_paths g cid cat →
  ∃ r0, r0 ∈ cat ∧ r = (if has_id cid r0 then g r0 else r0).
Proof.
  unfold save_paths. intros H. apply list_elem_of_fmap in H as (r0 & -> & Hin). eauto.
Qed.

Lemma upsert_stored m p mb now cat :
  (∃ r, r ∈ upsert c m p mb now cat ∧ contentId r = c) ∧
  all_stored c p (upsert c m p mb now cat).
Proof.
  unfold upsert. destruct (findOne cat c) as [existing|] eqn:Hf.
  - apply findOne_Some in Hf as [Hin Hid]. split.
    + exists (with_stored p mb now existing). split; [|done].
      unfold save_paths. apply list_elem_of_fmap. exists existing.
      by rewrite (proj2 (has_id_true c existing) Hid).
    + intros r Hr Hidr. apply elem_of_save_paths in Hr as (r0 & Hin0 & ->).
      destruct (has_id c r0) eqn:E; [done|]. by apply has_id_false in E.
  - pose proof (findOne_None _ Hf) as Hnone. split.
    + exists (new_record c m p mb now). split; [|done].
      apply elem_of_app. right. by apply list_elem_of_singleton.
    + intros r Hr Hidr. apply elem_of_app in Hr as [Hr|Hr%list_elem_of_singleton].
      * by destruct (Hnone r Hr).
      * by subst.
Qed.

Lemma upsert_catalog_ok m p mb now cat :
  catalog_ok c path cat → priority_or_1 m ≠ 1 →
  catalog_ok c path (upsert c m p mb now cat).
Proof.
  intros Hok Hprio. unfold upsert. destruct (findOne cat c) as [existing|] eqn:Hf.
  - intros r Hr. apply elem_of_save_paths in Hr as (r0 & Hin0 & ->).
    destruct (has_id c r0) eqn:E.
    + apply has_id_true in E. split; [|done]. intros _. cbn. by apply (Hok r0).
    + by apply Hok.
  - intros r Hr. apply elem_of_app in Hr as [Hr|Hr%list_elem_of_singleton].
    + by apply Hok.
    + subst. by split.
Qed.

Lemma save_paths_catalog_ok g cid cat :
  (∀ r, contentId (g r) = contentId r ∧ priority (g r) = priority r ∧
        (localPath (g r) = localPath r ∨ localPath (g r) = None)) →
  catalog_ok c path cat → catalog_ok c path (save_paths g cid cat).
Proof.
  intros Hg Hok r Hin. apply elem_of_save_paths in Hin as (r0 & Hin0 & ->).
  destruct (has_id cid r0); [|by apply Hok].
  destruct (Hg r0) as (-> & -> & [-> | ->]); [by apply Hok|].
  split; [by apply Hok | done].
Qed.

(** A cleanup leaves the file of [c] alone when no candidate points at
    it. *)
Lemma checkAndCleanup_frame cfg f w :
  catalog_ok c path (catalog w) →
  catalog (checkAndCleanup cfg f w) = catalog w ∧
  files (checkAndCleanup cfg f w) !! path = files w !! path.
Proof.
  intros Hok. split; [apply checkAndCleanup_catalog|].
  unfold checkAndCleanup, cleanup.
  destruct (near_limit _ _); [|done]. destruct (cl_find f); [done|].
  apply (foldl_evict_files_ne f (candidates f (catalog w)) (0%nat, w)).
  intros video Hv. apply elem_of_candidates in Hv as (Hin & _ & Hprio).
  destruct (Hok video Hin) as [H1 H2].
  apply H2. intros Hid. by apply H1.
Qed.

End dedup_catalog.

Section dedup_steps.
Import StorageManager DownloadService.

Lemma saveVideo_txn_catalog_ok cfg c path f now m p size w :
  priority_or_1 m ≠ 1 → catalog_ok c path (catalog w) →
  catalog_ok c path (catalog (saveVideo_txn cfg f now c m p size w).2).
Proof.
  intros Hprio Hok. unfold saveVideo_txn.
  destruct (sv_fault_at f); try destruct (sv_abort f); cbn; try done;
    rewrite checkAndCleanup_catalog; cbn; by apply upsert_catalog_ok.
Qed.

Lemma settle_catalog_ok cfg c path now o t w t' w' :
  settle cfg now o t w = Some (t', w') →
  inv_contentId t = c → priority_or_1 (inv_metadata t) ≠ 1 →
  catalog_ok c path (catalog w) →
  catalog_ok c path (catalog w') ∧
  inv_contentId t' = c ∧ inv_metadata t' = inv_metadata t.
Proof.
  unfold settle. intros H Hc Hprio Hok.
  destruct (inv_pc t) as [|[]|[]| | |[]|? []| |? ? []|]; destruct o; try discriminate;
    simplify_eq; try done.
  - destruct rejects; simplify_eq; [done|]. split; [|done]. cbn.
    apply save_paths_catalog_ok; [|done]. intros r; cbn; auto.
  - destruct written; by simplify_eq.
  - pose proof (saveVideo_txn_catalog_ok cfg _ path f now (inv_metadata t)
                  finalPath size w Hprio Hok) as Hok'.
    destruct (saveVideo_txn cfg f now (inv_contentId t) (inv_metadata t) finalPath size w)
      as [r w1] eqn:Htxn.
    by simplify_eq.
Qed.

Lemma resume_catalog cfg now b sw t w t' w' fetch :
  resume cfg now b sw t w = Some (t', w', fetch) →
  catalog w' = catalog w ∧
  inv_contentId t' = inv_contentId t ∧ inv_metadata t' = inv_metadata t.
Proof.
  unfold resume, waitForLock_turn, acquireLock, finish, saveVideo_copy.
  intros H.
  destruct (inv_pc t) as [|[[]|]|[[]|]| | |[[]|]|? [[]|]| |? ? [[]|]|];
    cbn in H; repeat (first [ progress simplify_eq | case_match ]); done.
Qed.

Lemma world_ok_ext c path ph w w' :
  catalog w' = catalog w → files w' = files w →
  world_ok c path ph w → world_ok c path ph w'.
Proof.
  intros Hc Hf. unfold world_ok, committed. rewrite Hc, Hf. by destruct ph.
Qed.

(** A step that changes neither the catalog nor the files, nor the
    phase. *)
Lemma good_quiet c path ph fault t t' w w' :
  catalog w' = catalog w → files w' = files w →
  world_ok c path ph w →
  task_ok path ph (files w) t' →
  (ph = Fetching → fetch_phase (inv_pc t) = true → fetch_phase (inv_pc t') = true) →
  good_step c path ph false fault t t' w w'.
Proof.
  intros Hc Hf Hw Ht Hfp. exists ph. split_and!.
  - by left.
  - by eapply world_ok_ext.
  - by rewrite Hf.
  - intros Hph. destruct (fetch_phase (inv_pc t)) eqn:E; auto.
  - by left.
Qed.

(** A step of the lock holder that leaves the catalog as it is and, with
    a failure of the download or commit, ends the phase [Fetching]. *)
Lemma good_fail c path ph t t' w w' :
  catalog w' = catalog w →
  ph = Fetching → holds_lock (inv_pc t) = true →
  world_ok c path ph w →
  task_ok path NoFetch (files w') t' →
  good_step c path ph false true t t' w w'.
Proof.
  intros Hc -> Hh Hw Ht. exists NoFetch. split_and!.
  - right; right; right. done.
  - cbn in *. by rewrite Hc.
  - done.
  - done.
  - by right.
Qed.

Lemma finish_files r t w :
  catalog (finish r t w).2 = catalog w ∧ files (finish r t w).2 = files w.
Proof. unfold finish. by destruct (inv_lockAcquired t). Qed.

Lemma finish_pc r t w : inv_pc (finish r t w).1 = Finished r.
Proof. reflexivity. Qed.

Lemma waitForLock_turn_good c path ph fault now startTime t w :
  world_ok c path ph w → fetch_phase (inv_pc t) = false →
  good_step c path ph false fault t (waitForLock_turn now startTime t w).1 w
    (waitForLock_turn now startTime t w).2.
Proof.
  intros Hw Hfp. unfold waitForLock_turn, acquireLock.
  case_bool_decide.
  - destruct (lock_timeout <? now - startTime).
    + destruct (finish_files (Throw (LockTimeout (inv_contentId t))) t w) as [Hc Hf].
      apply good_quiet; try done. congruence.
    + apply good_quiet; try done. congruence.
  - apply good_quiet; try done. congruence.
Qed.

Lemma existsSync_insert fs p bytes : existsSync (<[p := bytes]> fs) p = true.
Proof. apply bool_decide_eq_true. rewrite lookup_insert_eq. by eexists. Qed.

Lemma existsSync_true fs p : existsSync fs p = true ↔ is_Some (fs !! p).
Proof. apply bool_decide_eq_true. Qed.

Lemma existsSync_false fs p : existsSync fs p = false ↔ fs !! p = None.
Proof.
  unfold existsSync. rewrite bool_decide_eq_false. symmetry. apply eq_None_not_Some.
Qed.

Lemma settle_good cfg c now i o t w t' w' ph :
  settle cfg now o t w = Some (t', w') →
  inv_contentId t = c → priority_or_1 (inv_metadata t) ≠ 1 →
  catalog_ok c (getVideoPath cfg c) (catalog w) →
  world_ok c (getVideoPath cfg c) ph w →
  task_ok (getVideoPath cfg c) ph (files w) t →
  (ph = Fetching → holds_lock (inv_pc t) = true → fetch_phase (inv_pc t) = true) →
  good_step c (getVideoPath cfg c) ph false (fetch_fault (Settle i o)) t t' w w'.
Proof.
  unfold settle, task_ok. intros H <- Hprio Hok Hw Ht Hexcl.
  destruct (inv_pc t) as [|[]|[]| | |[]|? []| |? ? []|] eqn:Hpc;
    destruct o; try discriminate; try done.
  - (* findOne({ contentId }) *)
    destruct rejects; injection H as <- <-.
    { apply good_quiet; try done. by rewrite Hpc. }
    apply good_quiet; try done; [|by rewrite Hpc].
    unfold task_ok; cbn.
    destruct (findOne (catalog w) (inv_contentId t)) as [r0|] eqn:Hr; [|done].
    intros Hact. destruct ph; cbn in Hw.
    + by rewrite (all_inactive_findOne _ _ _ Hw Hr) in Hact.
    + by rewrite (all_inactive_findOne _ _ _ Hw Hr) in Hact.
    + split; [done|]. by eapply committed_findOne.
  - (* findOne({ contentId, isActive: true }) *)
    destruct rejects; injection H as <- <-.
    { apply good_quiet; try done. by rewrite Hpc. }
    apply good_quiet; try done; [|by rewrite Hpc].
    unfold task_ok; cbn. destruct ph; cbn in Hw.
    + by rewrite (all_inactive_findOne_active _ _ Hw).
    + specialize (Hexcl eq_refl eq_refl). done.
    + destruct (committed_findOne_active _ _ _ Hw) as (r0 & -> & Hp). done.
  - (* the yt-dlp process *)
    injection H as <- <-. subst ph. cbn [fetch_fault].
    destruct exit_ok; cbn [negb orb].
    + destruct written as [bytes|].
      * exists Fetching. split_and!.
        -- by left.
        -- done.
        -- unfold task_ok; cbn. by rewrite existsSync_insert.
        -- by left.
        -- right. by rewrite Hpc.
      * destruct (existsSync (files w) tmp || existsSync (files w) (altFile tmp)) eqn:E.
        -- exists Fetching. split_and!.
           ++ by left.
           ++ done.
           ++ unfold task_ok; cbn. by rewrite E.
           ++ by left.
           ++ right. by rewrite Hpc.
        -- apply good_fail; try done; [by rewrite Hpc|].
           unfold task_ok; cbn. by rewrite E.
    + apply good_fail; try done; [by destruct written | by rewrite Hpc].
  - (* the process leaves its output under the other extension *)
    injection H as <- <-. subst ph. exists Fetching. split_and!.
    + by left.
    + done.
    + unfold task_ok; cbn. by rewrite existsSync_insert, orb_true_r.
    + by left.
    + right. by rewrite Hpc.
  - (* the transaction *)
    destruct Ht as (-> & -> & Hfile).
    destruct (upsert_stored (inv_contentId t) (inv_metadata t)
                (getVideoPath cfg (inv_contentId t)) (sizeMB size) now (catalog w))
      as ((r0 & Hin0 & Hid0) & Hstored).
    destruct (checkAndCleanup_frame (inv_contentId t)
                (getVideoPath cfg (inv_contentId t)) cfg (sv_cleanup f)
                (set_catalog (upsert (inv_contentId t) (inv_metadata t)
                   (getVideoPath cfg (inv_contentId t)) (sizeMB size) now
                   (catalog w)) w))
      as (Hsame & Hfiles); [by apply upsert_catalog_ok|].
    unfold saveVideo_txn in H. cbn [fetch_fault].
    destruct (sv_fault_at f) eqn:Hfault; try destruct (sv_abort f);
      injection H as <- <-;
      try (apply good_fail; [done | done | by rewrite Hpc | done | done]).
    all: exists Committed; split_and!;
      [ by right; right; left
      | split_and!;
          [ exists r0; split; [by rewrite Hsame | done]
          | intros r Hr Hid; apply Hstored; [by rewrite Hsame in Hr | done]
          | by rewrite Hfiles ]
      | done
      | done
      | right; by rewrite Hpc ].
Qed.

Lemma finish_good c path ph fault r t w :
  world_ok c path ph w →
  task_ok path ph (files w) (at_pc (Finished r) t) →
  (ph = Fetching → fetch_phase (inv_pc t) = false) →
  good_step c path ph false fault t (finish r t w).1 w (finish r t w).2.
Proof.
  intros Hw Ht Hfp. destruct (finish_files r t w) as [Hc Hf].
  apply good_quiet; try done. intros Hph E. rewrite (Hfp Hph) in E. done.
Qed.

Lemma committed_exists c path w :
  world_ok c path Committed w → existsSync (files w) path = true.
Proof. intros (_ & _ & H). by apply bool_decide_eq_true. Qed.

Lemma resume_good cfg c now b sw t w t' w' fetch ph :
  resume cfg now b sw t w = Some (t', w', fetch) →
  in_temp_dir (getVideoPath cfg c) = false ∨ sw = nothing_to_sweep →
  inv_contentId t = c →
  world_ok c (getVideoPath cfg c) ph w →
  task_ok (getVideoPath cfg c) ph (files w) t →
  good_step c (getVideoPath cfg c) ph fetch b t t' w w'.
Proof.
  unfold resume, task_ok. intros H Hout <- Hw Ht.
  assert (Hturn : ∀ startTime,
    fetch_phase (inv_pc t) = false →
    Some (waitForLock_turn now startTime t w, false) = Some (t', w', fetch) →
    good_step (inv_contentId t) (getVideoPath cfg (inv_contentId t)) ph fetch b t t' w w').
  { intros st Hfp Heq.
    pose proof (waitForLock_turn_good _ _ _ b now st t w Hw Hfp) as Hg.
    destruct (waitForLock_turn now st t w) as [t1 w1]. by injection Heq as <- <- <-. }
  assert (Hfinish : ∀ r,
    (ph = Fetching → fetch_phase (inv_pc t) = false) →
    task_ok (getVideoPath cfg (inv_contentId t)) ph (files w) (at_pc (Finished r) t) →
    Some (finish r t w, false) = Some (t', w', fetch) →
    good_step (inv_contentId t) (getVideoPath cfg (inv_contentId t)) ph fetch b t t' w w').
  { intros r Hfp Hok Heq.
    pose proof (finish_good _ _ _ b r t w Hw Hok Hfp) as Hg.
    destruct (finish r t w) as [t1 w1]. by injection Heq as <- <- <-. }
  destruct (inv_pc t)
    as [|[[existingRecord|e]|]|[[u|e]|]|startTime wake|acquired|[[doubleCheck|e]|]
        |tmp [[u|e]|]|tmp|finalPath size [[result|e]|]|r] eqn:Hpc;
    try discriminate; try done.
  - (* the import has resolved *)
    injection H as <- <- <-. apply good_quiet; try done. by rewrite Hpc.
  - (* the pre-lock check *)
    destruct existingRecord as [r0|]; [|by apply (Hturn now)].
    destruct (isActive r0) eqn:Hact; [|by apply (Hturn now)].
    destruct (Ht eq_refl) as [-> Hp]. rewrite Hp in H.
    rewrite (committed_exists _ _ _ Hw) in H.
    by apply (Hfinish (Ok (getVideoPath cfg (inv_contentId t)))).
  - (* the pre-lock check was rejected *)
    by apply (Hfinish (Throw e)).
  - (* the timer of waitForLock *)
    destruct (wake <=? now); [|done]. by apply (Hturn startTime).
  - (* lockAcquired = true *)
    subst acquired. injection H as <- <- <-. apply good_quiet; try done.
    by rewrite Hpc.
  - (* the double check *)
    destruct doubleCheck as [r0|].
    + destruct Ht as [-> Hp]. rewrite Hp in H.
      rewrite (committed_exists _ _ _ Hw) in H.
      by apply (Hfinish (Ok (getVideoPath cfg (inv_contentId t)))).
    + subst ph. injection H as <- <- <-.
      exists Fetching. split_and!; try done.
      * right. by left.
      * by left.
      * right. by rewrite Hpc.
  - (* the double check was rejected *)
    by apply (Hfinish (Throw e)).
  - (* the download has ended *)
    destruct (existsSync (files w) tmp) eqn:Etmp; cbn [orb] in Ht.
    + subst ph. injection H as <- <- <-. apply good_quiet; try done.
      unfold task_ok; cbn. split; [done|]. by apply existsSync_true.
    + destruct (files w !! altFile tmp) as [bytes|] eqn:Ealt.
      * assert (existsSync (files w) (altFile tmp) = true) as Ex
          by (apply existsSync_true; by eexists).
        rewrite Ex in Ht. subst ph. injection H as <- <- <-.
        exists Fetching. split_and!.
        -- by left.
        -- done.
        -- unfold task_ok; cbn. split; [done|]. rewrite lookup_insert_eq. by eexists.
        -- by left.
        -- right. by rewrite Hpc.
      * assert (existsSync (files w) (altFile tmp) = false) as Ex
          by by apply existsSync_false.
        rewrite Ex in Ht. subst ph.
        by apply (Hfinish (Throw DownloadedFileNotFound)).
  - (* the download has failed *)
    subst ph. injection H as <- <- <-. unfold finish.
    exists NoFetch. split_and!.
    + by left.
    + cbn in *. by destruct (inv_lockAcquired t).
    + done.
    + done.
    + right. by rewrite Hpc.
  - (* saveVideo copies to the final path *)
    destruct Ht as [-> [bytes Htmp]]. unfold saveVideo_copy in H. cbn in H.
    rewrite Htmp in H. destruct b; cbn in H.
    + injection H as <- <- <-. unfold finish.
      apply good_fail; try done; [|by rewrite Hpc].
      by destruct (inv_lockAcquired t).
    + injection H as <- <- <-.
      exists Fetching. split_and!; try done.
      * by left.
      * unfold task_ok; cbn. split_and!; try done.
        rewrite lookup_insert_eq. by eexists.
      * by left.
      * right. by rewrite Hpc.
  - (* saveVideo has returned *)
    destruct Ht as [-> Hp]. rewrite Hp in H. injection H as <- <- <-.
    destruct (cleanupTempFiles_frame sw now w) as (Hcat & _ & Hfiles & _).
    assert (Hsame : files (DownloadService.cleanupTempFiles sw now w) !!
                      getVideoPath cfg (inv_contentId t) =
                    files w !! getVideoPath cfg (inv_contentId t)).
    { destruct Hout as [Hout| ->]; [by apply Hfiles|].
      by rewrite cleanupTempFiles_nothing. }
    exists Committed. split_and!.
    + by left.
    + destruct Hw as (Hex & Hst & Hfile). unfold finish.
      split_and!; destruct (inv_lockAcquired t); cbn [snd catalog files set_locks];
        rewrite ?Hcat, ?Hsame; done.
    + done.
    + done.
    + right. by rewrite Hpc.
  - (* saveVideo has thrown *)
    subst ph. by apply (Hfinish (Throw e)).
Qed.

End dedup_steps.

Section dedup_invariant.
Import StorageManager DownloadService.

Lemma task_ok_mono path ph ph' fs fs' t :
  task_ok path ph fs t → holds_lock (inv_pc t) = false →
  (ph = Committed → ph' = Committed) →
  task_ok path ph' fs' t.
Proof.
  unfold task_ok. intros Ht Hh Hph.
  destruct (inv_pc t)
    as [|[[[r0|]|e]|]|[[u|e]|]|startTime wake|acquired|[[doubleCheck|e]|]
        |tmp [[u|e]|]|tmp|finalPath size [[result|e]|]|[p|e]];
    try done.
  - intros Hact. destruct (Ht Hact) as [-> ?]. by rewrite Hph.
  - destruct Ht as [-> ?]. by rewrite Hph.
Qed.

Lemma fetches_ok_step ph ph' fetch fault k c fetches :
  phase_step ph ph' fetch fault → fetches_ok ph k fetches →
  fetches_ok ph' (if fault then S k else k) (if fetch then c :: fetches else fetches).
Proof.
  intros Hstep H.
  destruct Hstep as [[? ?]|[(? & ? & ?)|[(? & ? & ?)|(? & ? & ? & ?)]]];
    destruct ph, ph', fault, fetch; try discriminate; cbn in *; lia.
Qed.

Lemma dedup_inv_update c path L0 k s i t t' w' now' fetch fault :
  lock_inv L0 s →
  dedup_inv c path k s →
  st_invocations s !! i = Some t →
  inv_contentId t' = c → inv_metadata t' = inv_metadata t →
  catalog_ok c path (catalog w') →
  (∀ ph,
     world_ok c path ph (st_world s) →
     task_ok path ph (files (st_world s)) t →
     (ph = Fetching → holds_lock (inv_pc t) = true → fetch_phase (inv_pc t) = true) →
     good_step c path ph fetch fault t t' (st_world s) w') →
  dedup_inv c path (if fault then S k else k)
    {| st_world := w'; st_now := now';
       st_invocations := <[i := t']> (st_invocations s);
       st_fetches := if fetch then inv_contentId t :: st_fetches s
                     else st_fetches s |}.
Proof.
  intros (_ & _ & Hone & _) (Hcalls & Hok & ph & (Hfetches & Hw & Hwit) & Hall)
    Ht Hc' Hm' Hok' Hgood.
  assert (Hi : (i < length (st_invocations s))%nat) by by eapply lookup_lt_Some.
  assert (Hct : inv_contentId t = c ∧ priority_or_1 (inv_metadata t) ≠ 1).
  { eapply Forall_forall in Hcalls; [done|]. by eapply list_elem_of_lookup_2. }
  unfold dedup_inv. cbn [st_world st_invocations st_fetches]. split_and!.
  - apply Forall_insert; [done|]. rewrite Hm'. by destruct Hct.
  - done.
  - assert (Htask : task_ok path ph (files (st_world s)) t).
    { eapply Forall_forall in Hall; [done|]. by eapply list_elem_of_lookup_2. }
    assert (Hexcl : ph = Fetching → holds_lock (inv_pc t) = true →
                    fetch_phase (inv_pc t) = true).
    { intros Hph Hh. destruct (Hwit Hph) as (j & tj & Hj & Hfj).
      assert (Hcj : inv_contentId tj = c).
      { eapply Forall_forall in Hcalls; [|by eapply list_elem_of_lookup_2]. by destruct Hcalls. }
      assert (i = j) as <-.
      { apply (Hone i j t tj); try done; [|destruct Hct; congruence].
        by destruct (inv_pc tj) as [| | | | | |? [[]|]| |? ? []|]. }
      by simplify_eq. }
    destruct (Hgood ph Hw Htask Hexcl)
      as (ph' & Hstep & Hw' & Htask' & Hwit' & Hkind).
    exists ph'. split; [split_and!|].
    + destruct Hct as [-> _]. by eapply fetches_ok_step.
    + done.
    + intros Hph'. destruct (Hwit' Hph') as [Hft'|[Hph Hft]].
      * exists i, t'. split; [by apply list_lookup_insert_eq | done].
      * destruct (Hwit Hph) as (j & tj & Hj & Hfj).
        exists j, tj. split; [|done].
        apply list_lookup_insert_Some. right. split; [|done].
        intros <-. simplify_eq. congruence.
    + apply Forall_lookup. intros j x Hj.
      apply list_lookup_insert_Some in Hj as [(<- & <- & _)|[Hne Hj]]; [done|].
      assert (Hx : task_ok path ph (files (st_world s)) x).
      { eapply Forall_forall in Hall; [done|]. by eapply list_elem_of_lookup_2. }
      destruct Hkind as [[-> ->]|Hh]; [done|].
      apply (task_ok_mono _ ph _ (files (st_world s))); [done| |].
      * destruct (holds_lock (inv_pc x)) eqn:Hhx; [|done].
        exfalso. apply Hne. apply (Hone i j t x); try done.
        destruct Hct as [-> _].
        eapply Forall_forall in Hcalls; [|by eapply list_elem_of_lookup_2].
        by destruct Hcalls as [-> _].
      * intros ->.
        destruct Hstep as [[-> _]|[(? & _)|[(? & _)|(? & _)]]]; done.
Qed.


Lemma step_dedup_inv cfg c L0 k a s s' :
  in_temp_dir (getVideoPath cfg c) = false ∨ (∀ i sw, a ≠ ResumeSweep i sw) →
  step cfg a s = Some s' →
  lock_inv L0 s →
  dedup_inv c (getVideoPath cfg c) k s →
  dedup_inv c (getVideoPath cfg c) (if fetch_fault a then S k else k) s'.
Proof.
  intros Hout Hstep Hlock Hinv.
  assert (Hres : ∀ b sw i,
                 in_temp_dir (getVideoPath cfg c) = false ∨ sw = None →
                 do_resume cfg b sw i s = Some s' →
                 dedup_inv c (getVideoPath cfg c) (if b then S k else k) s').
  { intros b sw i Hsw H.
    apply do_resume_Some in H as (t & t' & w' & fetch & Ht & Hr & ->).
    assert (Hsw' : in_temp_dir (getVideoPath cfg c) = false ∨
                   default nothing_to_sweep sw = nothing_to_sweep).
    { destruct Hsw as [?| ->]; [by left | by right]. }
    pose proof Hinv as (Hcalls & Hok & _).
    assert (Hct : inv_contentId t = c ∧ priority_or_1 (inv_metadata t) ≠ 1).
    { eapply Forall_forall in Hcalls; [done|]. by eapply list_elem_of_lookup_2. }
    destruct Hct as [Hc Hprio].
    destruct (resume_catalog _ _ _ _ _ _ _ _ _ Hr) as (Hcat & Hc' & Hm').
    eapply dedup_inv_update; try done.
    - congruence.
    - by rewrite Hcat.
    - intros ph Hw Htask _. by eapply resume_good. }
  destruct a as [ms|i o|i|i|i sw]; cbn [step] in Hstep.
  - case_match; [|done]. injection Hstep as <-. done.
  - destruct (st_invocations s !! i) as [t|] eqn:Ht; [|done]. cbn in Hstep.
    destruct (settle cfg (st_now s) o t (st_world s)) as [[t' w']|] eqn:Hr; [|done].
    cbn in Hstep. injection Hstep as <-.
    pose proof Hinv as (Hcalls & Hok & _).
    assert (Hct : inv_contentId t = c ∧ priority_or_1 (inv_metadata t) ≠ 1).
    { eapply Forall_forall in Hcalls; [done|]. by eapply list_elem_of_lookup_2. }
    destruct Hct as [Hc Hprio].
    destruct (settle_catalog_ok _ _ _ _ _ _ _ _ _ Hr Hc Hprio Hok) as (Hok' & Hc' & Hm').
    apply (dedup_inv_update c _ L0 k s i t t' w' (st_now s) false
             (fetch_fault (Settle i o))); try done.
    intros ph Hw Htask Hexcl. by eapply settle_good.
  - apply (Hres false None i); [by right | done].
  - apply (Hres true None i); [by right | done].
  - apply (Hres false (Some sw) i); [|done].
    destruct Hout as [?|Hno]; [by left|]. by destruct (Hno i sw).
Qed.



Lemma initial_dedup_inv cfg c w now calls :
  requests_ok c calls →
  all_inactive c (catalog w) →
  catalog_ok c (getVideoPath cfg c) (catalog w) →
  dedup_inv c (getVideoPath cfg c) 0 (initial w now calls).
Proof.
  intros Hreq Hinact Hok. unfold dedup_inv, initial.
  cbn [st_invocations st_world st_fetches]. split_and!.
  - unfold calls_ok. apply Forall_fmap. eapply Forall_impl; [exact Hreq|]. done.
  - done.
  - exists NoFetch. split; [split_and!; [cbn; lia | done | done]|].
    apply Forall_fmap, Forall_forall. by intros x _.
Qed.

Lemma append_inj_r (a b1 b2 : string) : a +:+ b1 = a +:+ b2 → b1 = b2.
Proof. induction a as [|x a IH]; cbn; [done|]. intros [= H]. by apply IH. Qed.

Lemma append_length (a b : string) :
  String.length (a +:+ b) = (String.length a + String.length b)%nat.
Proof.
  induction a as [|x a IH]; [done|].
  change (S (String.length (a +:+ b)) = S (String.length a + String.length b)).
  by rewrite IH.
Qed.

Lemma append_inj_l (a1 a2 b : string) : a1 +:+ b = a2 +:+ b → a1 = a2.
Proof.
  revert a2. induction a1 as [|x a1 IH]; intros [|y a2] H; try done.
  - apply (f_equal String.length) in H.
    change (String.length b = S (String.length (a2 +:+ b))) in H.
    rewrite append_length in H. lia.
  - apply (f_equal String.length) in H.
    change (S (String.length (a1 +:+ b)) = String.length b) in H.
    rewrite append_length in H. lia.
  - injection H as -> H. f_equal. by apply IH.
Qed.

(** Where [getVideoPath] is the concatenation, the path tells the id. *)
Lemma getVideoPath_inj cfg c1 c2 : getVideoPath cfg c1 = getVideoPath cfg c2 → c1 = c2.
Proof.
  unfold getVideoPath. intros H.
  apply append_inj_r, append_inj_r in H. by apply append_inj_l in H.
Qed.

Lemma paths_own_catalog_ok cfg c cat :
  not_evictable c cat → paths_own cfg cat → catalog_ok c (getVideoPath cfg c) cat.
Proof.
  intros Hprio Hown r Hr. split; [by apply Hprio|].
  intros Hne Hp. destruct (Hown r Hr) as [Hn|Hs]; [congruence|].
  rewrite Hp in Hs. injection Hs as Hs. by apply getVideoPath_inj in Hs.
Qed.

Lemma step_length cfg a s s' :
  step cfg a s = Some s' →
  length (st_invocations s') = length (st_invocations s).
Proof.
  intros Hs.
  destruct a as [ms|i o|i|i|i sw]; cbn [step] in Hs;
    try (apply do_resume_Some in Hs as (t & t' & w' & fetch & Ht & Hr & ->);
         cbn; by rewrite length_insert).
  - case_match; by simplify_eq.
  - destruct (st_invocations s !! i) as [t|]; [|done]. cbn in Hs.
    destruct (settle cfg (st_now s) o t (st_world s)) as [[t' w']|]; [|done].
    cbn in Hs. simplify_eq. cbn. by rewrite length_insert.
Qed.

Lemma run_length cfg acts s s' :
  run cfg acts s = Some s' →
  length (st_invocations s') = length (st_invocations s).
Proof.
  revert s. induction acts as [|a rest IH]; intros s H; cbn in H.
  - by simplify_eq.
  - destruct (step cfg a s) as [s1|] eqn:Hs; [|done].
    rewrite (IH _ H). by eapply step_length.
Qed.

End dedup_invariant.

Section dedup_paths.
Import StorageManager DownloadService.
Context (cfg : config) (c : string).
Local Abbreviation path := (getVideoPath cfg c).









End dedup_paths.

Section claims_dedup.
Import StorageManager DownloadService Examples.




End claims_dedup.

(* ================================================================== *)
(** * Further properties of the content store *)
(* ================================================================== *)

Section store_properties.
Import StorageManager Examples.

Lemma saveVideo_txn_commits cfg f now cid m size w :
  sv_fault_at f = SvNone →
  priority_or_1 m ≠ 1 →
  catalog_ok cid (getVideoPath cfg cid) (catalog w) →
  is_Some (files w !! getVideoPath cfg cid) →
  committed cid (getVideoPath cfg cid)
    (saveVideo_txn cfg f now cid m (getVideoPath cfg cid) size w).2.
Proof.
  intros Hf Hprio Hok Hfile. unfold saveVideo_txn. rewrite Hf. cbn [snd].
  destruct (upsert_stored cid m (getVideoPath cfg cid) (sizeMB size) now (catalog w))
    as ((r0 & Hin0 & Hid0) & Hstored).
  destruct (checkAndCleanup_frame cid (getVideoPath cfg cid) cfg (sv_cleanup f)
              (set_catalog (upsert cid m (getVideoPath cfg cid) (sizeMB size) now
                 (catalog w)) w))
    as (Hsame & Hfiles); [by apply upsert_catalog_ok|].
  split_and!.
  - exists r0. split; [by rewrite Hsame | done].
  - intros r Hr Hid. apply Hstored; [by rewrite Hsame in Hr | done].
  - by rewrite Hfiles.
Qed.

(** When [session.abortTransaction()] itself rejects, the [catch] block of
    [saveVideo] is left before it reaches [unlinkSync]: the failure is
    thrown, the catalog is as before, and the copy stays at the final
    path, with no entry written for it. *)
Theorem saveVideo_failed_abort_keeps_copy (cfg : config) (f : sv_faults) (now : Z)
    (cid tempFilePath : string) (m : metadata) (w : world) (bytes : list byte) :
  files w !! tempFilePath = Some bytes →
  sv_fault_at f = SvFind ∨ sv_fault_at f = SvSave ∨ sv_fault_at f = SvCommit →
  sv_abort f = true →
  saveVideo cfg f now cid tempFilePath m w =
    (Throw DbError, set_files (<[getVideoPath cfg cid := bytes]> (files w)) w).
Proof.
  intros Hf Hfault Hab. unfold saveVideo, saveVideo_copy, saveVideo_txn.
  rewrite Hf. destruct Hfault as [E|[E|E]]; rewrite E, Hab; reflexivity.
Qed.

Lemma saveVideo_failed_abort_witness :
  (saveVideo cfg abort_fails 2000 "movie_9" "temp-downloads/Fight Club_1000.mp4"
     meta reacquire_world).1 = Throw DbError ∧
  files (saveVideo cfg abort_fails 2000 "movie_9" "temp-downloads/Fight Club_1000.mp4"
           meta reacquire_world).2 !! getVideoPath cfg "movie_9" = Some new_bytes ∧
  findOne (catalog (saveVideo cfg abort_fails 2000 "movie_9"
                      "temp-downloads/Fight Club_1000.mp4" meta reacquire_world).2)
    "movie_9" = None.
Proof.
  rewrite (saveVideo_failed_abort_keeps_copy cfg abort_fails 2000 "movie_9"
             "temp-downloads/Fight Club_1000.mp4" meta reacquire_world new_bytes);
    [| reflexivity | right; right; reflexivity | reflexivity ].
  split_and!; reflexivity.
Defined.


(** The schema requires [localPath], so the save by which [cleanup] would
    mark a candidate inactive with its path cleared is rejected each
    time.  A cleanup therefore deletes files and nothing else: it reports
    that it has removed no entry and leaves the catalog as it is, every
    candidate whose file it has deleted still an active entry with the
    path of that file; and so does the capacity check. *)
Theorem cleanup_changes_no_entry (cfg : config) (f : cl_faults) (w : world) :
  (cleanup f w).1 = 0%nat ∧
  catalog (cleanup f w).2 = catalog w ∧
  catalog (checkAndCleanup cfg f w) = catalog w ∧
  (∀ video p,
     cl_find f = false → video ∈ candidates f (catalog w) →
     localPath video = Some p → cl_unlink f (contentId video) = false →
     files (cleanup f w).2 !! p = None ∧
     video ∈ catalog (cleanup f w).2 ∧ isActive video = true).
Proof.
  split_and!.
  - unfold cleanup. destruct (cl_find f); [done|]. by rewrite foldl_evict_count.
  - apply cleanup_catalog.
  - apply checkAndCleanup_catalog.
  - intros video p Hf Hin Hp Hu. rewrite cleanup_catalog.
    pose proof (elem_of_candidates _ _ _ Hin) as (Hc & Ha & _).
    split_and!; [|done|done].
    unfold cleanup. rewrite Hf. by eapply foldl_evict_deletes.
Qed.

Lemma cleanup_changes_no_entry_witness :
  files (cleanup no_cleanup_faults locked_world).2 !! getVideoPath cfg "movie_1" = None ∧
  findOne_active (catalog (cleanup no_cleanup_faults locked_world).2) "movie_1" =
    Some (entry "movie_1" 1 100 0 true).
Proof.
  destruct (proj2 (proj2 (proj2
              (cleanup_changes_no_entry cfg no_cleanup_faults locked_world)))
            (entry "movie_1" 1 100 0 true) (getVideoPath cfg "movie_1"))
    as (Hgone & _ & _); [reflexivity | | reflexivity | reflexivity |].
  - rewrite list_elem_of_In. vm_compute. auto.
  - split; [exact Hgone | reflexivity].
Defined.

(** A successful [saveVideo] is found by the next [getVideoInfo]: when the
    entry is kept out of eviction (its priority is not 1, neither in the
    metadata nor in an entry the id already has) and no other entry points
    at its file, the lookup that follows the commit is a hit and returns
    the final path, whether or not the capacity check has run a cleanup. *)
Theorem saveVideo_then_getVideoInfo (cfg : config) (f : sv_faults) (now now' : Z)
    (cid tempFilePath : string) (m : metadata) (w : world) (bytes : list byte) :
  files w !! tempFilePath = Some bytes →
  sv_fault_at f = SvNone →
  priority_or_1 m ≠ 1 →
  catalog_ok cid (getVideoPath cfg cid) (catalog w) →
  (saveVideo cfg f now cid tempFilePath m w).1 =
    Ok {| sr_path := getVideoPath cfg cid; sr_sizeMB := sizeMB (length bytes) |} ∧
  vi_path <$>
    (getVideoInfo no_read_faults now' cid
       (saveVideo cfg f now cid tempFilePath m w).2).1 =
    Some (getVideoPath cfg cid).
Proof.
  intros Hf Hfault Hprio Hok.
  pose proof (saveVideo_txn_commits cfg f now cid m (length bytes)
                (set_files (<[getVideoPath cfg cid := bytes]> (files w)) w)
                Hfault Hprio Hok) as Hc.
  unfold saveVideo, saveVideo_copy. rewrite Hf, Hfault.
  split; [unfold saveVideo_txn; by rewrite Hfault|].
  destruct (saveVideo_txn cfg f now cid m (getVideoPath cfg cid) (length bytes)
              (set_files (<[getVideoPath cfg cid := bytes]> (files w)) w))
    as [r w'] eqn:Htxn.
  cbn [fst snd] in *.
  assert (Hc' : committed cid (getVideoPath cfg cid) w').
  { apply Hc. cbn. rewrite lookup_insert_eq. by eexists. }
  destruct (committed_findOne_active _ _ _ Hc') as (r0 & Hr0 & Hp).
  destruct Hc' as (_ & _ & Hfile).
  unfold getVideoInfo. cbn [gv_find gv_save no_read_faults]. rewrite Hr0, Hp.
  assert (existsSync (files w') (getVideoPath cfg cid) = true) as ->
    by by apply bool_decide_eq_true.
  reflexivity.
Qed.

Lemma saveVideo_then_getVideoInfo_witness :
  vi_path <$>
    (getVideoInfo no_read_faults 3000 "movie_9"
       (saveVideo cfg no_save_faults 2000 "movie_9"
          "temp-downloads/Fight Club_1000.mp4" meta reacquire_world).2).1 =
    Some (getVideoPath cfg "movie_9").
Proof.
  apply (saveVideo_then_getVideoInfo cfg no_save_faults 2000 3000 "movie_9"
           "temp-downloads/Fight Club_1000.mp4" meta reacquire_world new_bytes).
  - reflexivity.
  - reflexivity.
  - vm_compute. discriminate.
  - intros r Hr. apply list_elem_of_singleton in Hr as ->. split.
    + cbn. discriminate.
    + intros _. cbn. vm_compute. discriminate.
Defined.

End store_properties.

(* ================================================================== *)
(** * The entry of a re-acquisition *)
(* ================================================================== *)

Section reacquisition.
Import StorageManager Examples.

Lemma same_but_state_refl r : same_but_state r r.
Proof. by repeat split. Qed.

Lemma same_but_state_trans a b c :
  same_but_state a b → same_but_state b c → same_but_state a c.
Proof.
  unfold same_but_state. intros H1 H2.
  destruct H1 as (?&?&?&?&?&?&?&?&?&?&?), H2 as (?&?&?&?&?&?&?&?&?&?&?).
  split_and!; congruence.
Qed.

Lemma findOne_save_paths_state g cid' c cid r :
  (∀ x, same_but_state x (g x)) →
  findOne c cid = Some r →
  ∃ r', findOne (save_paths g cid' c) cid = Some r' ∧ same_but_state r r'.
Proof.
  intros Hg Hr. destruct (decide (cid' = cid)) as [->|Hne].
  - rewrite findOne_save_paths, Hr by (intros x; symmetry; apply (Hg x)).
    exists (g r). split; [done | apply Hg].
  - rewrite findOne_save_paths_ne, Hr; [| intros x; symmetry; apply (Hg x) | done].
    exists r. split; [done | apply same_but_state_refl].
Qed.




End reacquisition.

(* ================================================================== *)
(** * Further properties of the stream server *)
(* ================================================================== *)

Section stream_edges.
Import JsString StreamServer.

Lemma parseInt_empty : parseInt EmptyString = NaN.
Proof. reflexivity. Qed.

Lemma split_dash_first rest :
  split "-" (String "-" rest) !! 0%nat = Some EmptyString.
Proof. reflexivity. Qed.

Lemma createReadStream_NaN content e : createReadStream content NaN e = None.
Proof. reflexivity. Qed.

(** A range that reaches past the end of the file is not clamped in the
    head: the response announces [end - start + 1] bytes and the range
    [start-end], while the body stops at the end of the file, so it is
    shorter than announced. *)
Theorem stream_range_past_end (fs : filesystem) (filePath : string)
    (content : list byte) (start end_ : Z) :
  fs !! filePath = Some content →
  0 ≤ start → start ≤ end_ → end_ ≤ MAX_SAFE_INTEGER →
  Z.of_nat (length content) ≤ end_ →
  let r := streamVideoFile fs filePath (Some (range_header start (Some end_))) in
  status_of r = 206 ∧
  header "Content-Range" r =
    Some ("bytes " +:+ of_num (Int start) +:+ "-" +:+ of_num (Int end_) +:+
          "/" +:+ of_num (Int (Z.of_nat (length content)))) ∧
  header "Content-Length" r = Some (of_num (Int (end_ - start + 1))) ∧
  body_of r = drop (Z.to_nat start) content ∧
  Z.of_nat (length (body_of r)) < end_ - start + 1.
Proof.
  intros Hf H0 Hse Hmax Hpast r. subst r.
  rewrite (stream_closed_range _ _ _ _ _ Hf) by lia.
  cbn [status_of header body_of assoc String.eqb Ascii.eqb Bool.eqb].
  assert (Hb : byte_span content start end_ = drop (Z.to_nat start) content).
  { unfold byte_span. apply take_ge. rewrite length_drop. lia. }
  rewrite Hb, length_drop. repeat split. lia.
Qed.

Lemma stream_range_past_end_witness :
  let content := replicate 1000 Byte.x41 in
  let fs : filesystem := {[ "/srv/trailers/movie_550.mp4" := content ]} in
  let r := streamVideoFile fs "/srv/trailers/movie_550.mp4" (Some "bytes=900-1999") in
  status_of r = 206 ∧
  header "Content-Length" r = Some "1100" ∧
  length (body_of r) = 100%nat.
Proof.
  intros content fs r.
  assert (Hf : fs !! "/srv/trailers/movie_550.mp4" = Some content)
    by (subst fs; apply lookup_singleton_eq).
  destruct (stream_range_past_end fs "/srv/trailers/movie_550.mp4" content 900 1999 Hf)
    as (Hst & _ & Hcl & Hb & _);
    [ lia | lia | vm_compute; discriminate
    | subst content; rewrite length_replicate; lia | ].
  change (range_header 900 (Some 1999)) with "bytes=900-1999" in Hst, Hcl, Hb.
  subst r. split; [exact Hst | split; [exact Hcl|]].
  rewrite Hb. subst content. by rewrite length_drop, length_replicate.
Defined.

(** Ranges that [createReadStream] refuses are answered with status 500:
    a suffix range [bytes=-n], whose start parses to [NaN]; a range whose
    start lies after its end; and an open-ended range [bytes=start-] whose
    start is at or past the end of the file, its end being taken as the
    size less one.  With an end of its own that is not before it, a start
    at or past the end of the file is served instead: status 206 with an
    empty body. *)
Theorem stream_refused_ranges (fs : filesystem) (filePath : string)
    (content : list byte) :
  fs !! filePath = Some content →
  (∀ n, 0 ≤ n →
     streamVideoFile fs filePath (Some (suffix_range_header n)) = stream_error) ∧
  (∀ start end_, 0 ≤ end_ → end_ < start →
     streamVideoFile fs filePath (Some (range_header start (Some end_))) = stream_error) ∧
  (∀ start, Z.of_nat (length content) ≤ start →
     streamVideoFile fs filePath (Some (range_header start None)) = stream_error) ∧
  (∀ start end_, Z.of_nat (length content) ≤ start → start ≤ end_ →
     end_ ≤ MAX_SAFE_INTEGER →
     status_of (streamVideoFile fs filePath (Some (range_header start (Some end_)))) = 206 ∧
     body_of (streamVideoFile fs filePath (Some (range_header start (Some end_)))) = []).
Proof.
  intros Hf. split_and!.
  - intros n Hn. unfold streamVideoFile. rewrite Hf.
    unfold suffix_range_header. rewrite (of_num_nonneg n) by lia.
    set (x := of_N (Z.to_N n)).
    change ("bytes=-" +:+ x) with (String "b" ("ytes=" +:+ String "-" x)).
    cbv beta iota.
    change (remove_first "bytes=" (String "b" ("ytes=" +:+ String "-" x)))
      with (String "-" x).
    rewrite split_dash_first. cbn [from_option id].
    rewrite parseInt_empty.
    by destruct (truthy _); rewrite createReadStream_NaN.
  - intros start end_ H0 Hlt. unfold streamVideoFile. rewrite Hf.
    unfold range_header.
    rewrite !(of_num_nonneg start), !(of_num_nonneg end_) by lia.
    set (x := of_N (Z.to_N start) +:+ "-" +:+ of_N (Z.to_N end_)).
    change ("bytes=" +:+ x) with (String "b" ("ytes=" +:+ x)).
    cbv beta iota.
    change (remove_first "bytes=" (String "b" ("ytes=" +:+ x))) with x.
    subst x.
    change ("-" +:+ of_N (Z.to_N end_)) with (String "-" (of_N (Z.to_N end_))).
    rewrite split_digits_app by (apply dash_not_digit || apply all_digits_of_N).
    rewrite split_digits_end by (apply dash_not_digit || apply all_digits_of_N).
    cbn [lookup list_lookup from_option id].
    rewrite truthy_of_N, !parseInt_of_N_end, !Z2N.id by lia.
    unfold createReadStream.
    replace (start <=? end_) with false by (symmetry; apply Z.leb_gt; lia).
    by rewrite andb_false_r.
  - intros start Hs. unfold streamVideoFile. rewrite Hf.
    unfold range_header.
    rewrite !(of_num_nonneg start) by lia.
    set (x := of_N (Z.to_N start) +:+ "-" +:+ EmptyString).
    change ("bytes=" +:+ x) with (String "b" ("ytes=" +:+ x)).
    cbv beta iota.
    change (remove_first "bytes=" (String "b" ("ytes=" +:+ x))) with x.
    subst x.
    change ("-" +:+ EmptyString) with (String "-" EmptyString).
    rewrite split_digits_app by (apply dash_not_digit || apply all_digits_of_N).
    cbn [split lookup list_lookup from_option id truthy].
    rewrite !parseInt_of_N_end, !Z2N.id by lia.
    unfold createReadStream. cbn [num_sub num_add].
    replace (start <=? Z.of_nat (length content) - 1) with false
      by (symmetry; apply Z.leb_gt; lia).
    by rewrite andb_false_r.
  - intros start end_ Hs Hse Hmax.
    rewrite (stream_closed_range _ _ _ _ _ Hf) by lia.
    cbn [status_of body_of]. split; [done|].
    unfold byte_span. rewrite drop_ge by lia. apply take_nil.
Qed.

Lemma stream_refused_ranges_witness :
  let fs : filesystem := {[ "/srv/trailers/movie_550.mp4" := replicate 1000 Byte.x41 ]} in
  streamVideoFile fs "/srv/trailers/movie_550.mp4" (Some "bytes=-500") = stream_error ∧
  streamVideoFile fs "/srv/trailers/movie_550.mp4" (Some "bytes=1000-") = stream_error.
Proof.
  intros fs.
  pose proof (stream_refused_ranges fs "/srv/trailers/movie_550.mp4"
                (replicate 1000 Byte.x41) (lookup_singleton_eq _ _))
    as (Hsuffix & _ & Hopen & _).
  split.
  - apply (Hsuffix 500). lia.
  - apply (Hopen 1000). rewrite length_replicate. lia.
Defined.

End stream_edges.

(* ================================================================== *)
(** * Properties of the trailer selection *)
(* ================================================================== *)

Section trailer_selection.
Import TrailerRoutes RouteExamples.

Lemma find_js_total p l :
  Forall (λ v, p v ≠ TypeError) l →
  find_js p l = Value (List.find (accepts p) l).
Proof.
  induction l as [|v r IH]; intros H; [done|].
  apply Forall_cons in H as [Hv Hr]. cbn. unfold accepts at 1.
  destruct (p v) as [[]|]; [done | by apply IH | done].
Qed.

Lemma find_js_throws p l :
  find_js p l = TypeError → ∃ v, v ∈ l ∧ p v = TypeError.
Proof.
  induction l as [|v r IH]; [done|]. cbn.
  destruct (p v) as [[]|] eqn:E; [done | |].
  - intros H. destruct (IH H) as (u & Hu & Hp). exists u. split; [by right | done].
  - intros _. exists v. split; [by left | done].
Qed.

Lemma find_js_Some p l v :
  find_js p l = Value (Some v) →
  ∃ before after,
    l = before ++ v :: after ∧ p v = Value true ∧
    Forall (λ u, p u = Value false) before.
Proof.
  induction l as [|x r IH]; [done|]. cbn.
  destruct (p x) as [[]|] eqn:E; [| |done].
  - intros [= <-]. by exists [], r.
  - intros H. destruct (IH H) as (b & a & -> & Hv & Hb).
    exists (x :: b), a. split_and!; [done | done | by constructor].
Qed.

Lemma find_js_None p l :
  find_js p l = Value None → Forall (λ u, p u = Value false) l.
Proof.
  induction l as [|x r IH]; [by constructor|]. cbn.
  destruct (p x) as [[]|] eqn:E; [done | | done].
  intros H. constructor; [done | by apply IH].
Qed.

Lemma and_then_throws b k : and_then b k = TypeError → k = TypeError.
Proof. by destruct b. Qed.

Lemma predicate_throws p v :
  p ∈ [officialTrailer; officialTeaser; anyTrailer; anyTeaser; nonShortVideo] →
  p v = TypeError → v_name v = None.
Proof.
  intros Hp H.
  assert (Hn : not_a_short v = TypeError).
  { repeat (apply elem_of_cons in Hp as [->|Hp]); try (by apply and_then_throws in H);
      [done | by apply elem_of_nil in Hp]. }
  unfold not_a_short in Hn. by destruct (v_name v).
Qed.

Lemma youtube_filter v (l : list video) :
  v ∈ List.filter (λ v, String.eqb (v_site v) "YouTube") l ↔ v ∈ l ∧ on_youtube v.
Proof.
  rewrite !list_elem_of_In, filter_In. unfold on_youtube.
  by rewrite String.eqb_eq.
Qed.

Lemma not_a_short_looks v name :
  v_name v = Some name → not_a_short v = Value (negb (looks_short name)).
Proof.
  intros H. unfold not_a_short, looks_short. rewrite H.
  by rewrite !negb_orb.
Qed.

Lemma trailer_not_teaser t :
  String.eqb t "Trailer" = true → String.eqb t "Teaser" = false.
Proof. intros H%String.eqb_eq. by subst. Qed.

(** What each predicate accepts, by rank. *)
Lemma accepts_by_rank v :
  is_Some (v_name v) →
  (officialTrailer v = Value (rank v =? 0)%nat) ∧
  (officialTeaser v = Value (rank v =? 1)%nat) ∧
  (anyTrailer v = Value ((rank v =? 0) || (rank v =? 2))%nat) ∧
  (anyTeaser v = Value ((rank v =? 1) || (rank v =? 3))%nat) ∧
  (nonShortVideo v = Value (rank v <=? 4)%nat).
Proof.
  intros [name Hn].
  unfold officialTrailer, officialTeaser, anyTrailer, anyTeaser, nonShortVideo, rank.
  rewrite (not_a_short_looks v name Hn), Hn.
  destruct (String.eqb (v_type v) "Trailer") eqn:E1.
  - rewrite (trailer_not_teaser _ E1).
    by destruct (v_official v), (looks_short name).
  - by destruct (String.eqb (v_type v) "Teaser"), (v_official v), (looks_short name).
Qed.

(** With a YouTube video in the list, the search does not end empty. *)
Lemma search_not_null (l : list video) first :
  head l = Some first →
  or_else (find_js officialTrailer l)
    (or_else (find_js officialTeaser l)
       (or_else (find_js anyTrailer l)
          (or_else (find_js anyTeaser l)
             (or_else (find_js nonShortVideo l) (Value (Some first)))))) ≠ Value None.
Proof.
  intros _. unfold or_else.
  repeat (match goal with |- context [find_js ?p l] =>
            destruct (find_js p l) as [[?|]|] end; try done).
Qed.

Lemma findBestTrailer_None (videos : option (list video)) :
  findBestTrailer videos = Value None →
  ∀ v, v ∈ default [] videos → ¬ on_youtube v.
Proof.
  intros H v Hv Hy. destruct videos as [vs|]; [|by apply elem_of_nil in Hv].
  cbn [default from_option id] in Hv. unfold findBestTrailer in H.
  destruct vs as [|v0 vs0] eqn:Hvs; [by apply elem_of_nil in Hv|].
  rewrite <- Hvs in *. clear Hvs v0 vs0.
  assert (Hl : v ∈ List.filter (λ v, String.eqb (v_site v) "YouTube") vs)
    by by apply youtube_filter.
  destruct (List.filter (λ v, String.eqb (v_site v) "YouTube") vs) as [|first rest] eqn:E;
    [by apply elem_of_nil in Hl|].
  rewrite <- E in H. apply (search_not_null _ first) in H; [done | by rewrite E].
Qed.

(** [findBestTrailer] returns [null] exactly when the list holds no
    YouTube video (also for a missing or an empty list), and a video it
    returns is a YouTube video of the list. *)
Theorem findBestTrailer_null_or_listed (videos : option (list video)) :
  (findBestTrailer videos = Value None ↔
   ∀ v, v ∈ default [] videos → ¬ on_youtube v) ∧
  (∀ v, findBestTrailer videos = Value (Some v) →
        v ∈ default [] videos ∧ on_youtube v).
Proof.
  split; [split; [apply findBestTrailer_None|]|].
  - intros H. destruct videos as [vs|]; [|done]. unfold findBestTrailer.
    destruct vs as [|v0 vs0] eqn:Hvs; [done|]. rewrite <- Hvs in *.
    destruct (List.filter (λ v, String.eqb (v_site v) "YouTube") vs) as [|first rest] eqn:E;
      [done|].
    assert (Hf : first ∈ vs ∧ on_youtube first) by (apply youtube_filter; rewrite E; by left).
    destruct Hf as [H1 H2]. by destruct (H first).
  - intros v H. destruct videos as [vs|]; [|done]. unfold findBestTrailer in H.
    destruct vs as [|v0 vs0] eqn:Hvs; [done|]. rewrite <- Hvs in *. clear Hvs v0 vs0.
    cbn [default from_option id]. apply youtube_filter.
    remember (List.filter (λ v, String.eqb (v_site v) "YouTube") vs) as l eqn:Hl.
    destruct l as [|first rest] eqn:E; [done|].
    rewrite <- E in *.
    assert (Hfirst : first ∈ l) by (rewrite E; by left).
    unfold or_else in H.
    repeat (match type of H with context [find_js ?p ?l] =>
              let F := fresh "F" in
              destruct (find_js p l) as [[?|]|] eqn:F;
              [ injection H as <-; apply find_js_Some in F as (? & ? & -> & _);
                apply elem_of_app; right; by left
              | | done] end).
    by injection H as <-.
Qed.

(** [findBestTrailer] throws only because of a YouTube video without a
    name. *)
Theorem findBestTrailer_throws (videos : option (list video)) :
  findBestTrailer videos = TypeError →
  ∃ v, v ∈ default [] videos ∧ on_youtube v ∧ v_name v = None.
Proof.
  destruct videos as [vs|]; [|done]. unfold findBestTrailer.
  destruct vs as [|v0 vs0] eqn:Hvs; [done|]. rewrite <- Hvs. clear Hvs v0 vs0.
  cbn [default from_option id].
  assert (Hyt : ∀ v, v ∈ List.filter (λ v, String.eqb (v_site v) "YouTube") vs ↔
                     v ∈ vs ∧ on_youtube v) by (intros v; apply youtube_filter).
  generalize dependent (List.filter (λ v, String.eqb (v_site v) "YouTube") vs).
  intros l Hyt.
  assert (Hthrow : ∀ p,
    p ∈ [officialTrailer; officialTeaser; anyTrailer; anyTeaser; nonShortVideo] →
    find_js p l = TypeError →
    ∃ v, v ∈ vs ∧ on_youtube v ∧ v_name v = None).
  { intros p Hp H. apply find_js_throws in H as (v & Hv & Hpv).
    apply Hyt in Hv as [Hv Hy]. exists v. split_and!; [done | done |].
    by eapply predicate_throws. }
  destruct l as [|first rest] eqn:Hl; [done|]. rewrite <- Hl in *.
  unfold or_else.
  repeat (match goal with |- context [find_js ?p l] =>
            let E := fresh "E" in
            destruct (find_js p l) as [[?|]|] eqn:E;
            [done | | intros _; apply (Hthrow p); [repeat constructor | done]] end).
  done.
Qed.

Lemma findBestTrailer_throws_witness :
  ∃ v, v ∈ [nameless] ∧ on_youtube v ∧ v_name v = None.
Proof. apply (findBestTrailer_throws (Some [nameless]) eq_refl). Defined.

Lemma and_then_true b k : and_then b k = Value true → k = Value true.
Proof. by destruct b. Qed.

Lemma predicate_accepts p v :
  p ∈ [officialTrailer; officialTeaser; anyTrailer; anyTeaser; nonShortVideo] →
  p v = Value true → not_a_short v = Value true.
Proof.
  intros Hp H.
  repeat (apply elem_of_cons in Hp as [->|Hp]); try (by apply and_then_true in H);
    [done | by apply elem_of_nil in Hp].
Qed.

Lemma not_a_short_true v :
  not_a_short v = Value true ↔
  ∃ name, v_name v = Some name ∧ looks_short name = false.
Proof.
  split.
  - intros H. unfold not_a_short in H. destruct (v_name v) as [name|] eqn:E; [|done].
    exists name. split; [done|]. injection H as H. unfold looks_short.
    by rewrite <- negb_true_iff, !negb_orb.
  - intros (name & Hn & Hs). rewrite (not_a_short_looks v name Hn), Hs. done.
Qed.

(** [findBestTrailer] never returns a video whose name looks short
    (it contains, in any case, [short], [vertical], [tiktok] or [reel])
    while the list holds a YouTube video whose name does not. *)
Theorem findBestTrailer_avoids_shorts (videos : option (list video))
    (v u : video) (name : string) :
  findBestTrailer videos = Value (Some v) →
  u ∈ default [] videos → on_youtube u →
  v_name u = Some name → looks_short name = false →
  ∃ name', v_name v = Some name' ∧ looks_short name' = false.
Proof.
  intros H Hu Hy Hn Hs. apply not_a_short_true.
  assert (Hnu : not_a_short u = Value true) by (apply not_a_short_true; eauto).
  destruct videos as [vs|]; [|done]. unfold findBestTrailer in H.
  destruct vs as [|v0 vs0] eqn:Hvs; [done|]. rewrite <- Hvs in *. clear Hvs v0 vs0.
  cbn [default from_option id] in Hu.
  assert (Hul : u ∈ List.filter (λ v, String.eqb (v_site v) "YouTube") vs)
    by by apply youtube_filter.
  generalize dependent (List.filter (λ v, String.eqb (v_site v) "YouTube") vs).
  intros l H Hul.
  destruct l as [|first rest] eqn:Hl; [done|]. rewrite <- Hl in *.
  unfold or_else in H.
  repeat (match type of H with context [find_js ?p l] =>
            let E := fresh "E" in
            destruct (find_js p l) as [[?|]|] eqn:E;
            [ injection H as <-;
              apply find_js_Some in E as (? & ? & _ & E & _);
              apply (predicate_accepts p); [repeat constructor | done]
            | | done] end).
  apply find_js_None in E3. unfold nonShortVideo in E3.
  eapply Forall_forall in E3; [|done]. congruence.
Qed.

Lemma findBestTrailer_avoids_shorts_witness :
  ∃ name', v_name well_named = Some name' ∧ looks_short name' = false.
Proof.
  apply (findBestTrailer_avoids_shorts (Some offered) well_named well_named
           "Official Trailer").
  - reflexivity.
  - cbn. repeat constructor.
  - reflexivity.
  - reflexivity.
  - reflexivity.
Defined.

(** With a name on every YouTube video, [findBestTrailer] returns the
    first video of the best class present among the YouTube videos:
    official trailer before official teaser before trailer before teaser
    before any other video, all of these with names that do not look
    short, and only then a video whose name looks short. *)
Theorem findBestTrailer_first_best (videos : list video) (y : video) :
  Forall (λ v, on_youtube v → is_Some (v_name v)) videos →
  y ∈ videos → on_youtube y →
  ∃ v, findBestTrailer (Some videos) = Value (Some v) ∧
       first_best v (List.filter (λ v, String.eqb (v_site v) "YouTube") videos).
Proof.
  intros Hnamed Hy Hyy. unfold findBestTrailer.
  destruct videos as [|v0 vs0] eqn:Hvs; [by apply elem_of_nil in Hy|].
  rewrite <- Hvs in *. clear Hvs v0 vs0.
  assert (Hyl : y ∈ List.filter (λ v, String.eqb (v_site v) "YouTube") videos)
    by by apply youtube_filter.
  assert (Hn : Forall (λ v, is_Some (v_name v))
                 (List.filter (λ v, String.eqb (v_site v) "YouTube") videos)).
  { apply Forall_forall. intros v Hv. apply youtube_filter in Hv as [Hv Hyv].
    by apply (proj1 (Forall_forall _ _) Hnamed v). }
  generalize dependent (List.filter (λ v, String.eqb (v_site v) "YouTube") videos).
  intros l Hyl Hn. clear Hnamed Hy Hyy.
  destruct l as [|first rest] eqn:Hl; [by apply elem_of_nil in Hyl|].
  rewrite <- Hl in *.
  assert (Hrank : ∀ u, u ∈ l → is_Some (v_name u))
    by (intros u Hu; by eapply Forall_forall in Hn).
  assert (Hsplit : ∀ p v (P : nat → Prop),
    find_js p l = Value (Some v) →
    (∀ u, is_Some (v_name u) → p u = Value true → P (rank u)) →
    (∀ u, is_Some (v_name u) → p u = Value false → ¬ P (rank u)) →
    ∃ before after, l = before ++ v :: after ∧ P (rank v) ∧
                    Forall (λ u, ¬ P (rank u)) before).
  { intros p v P H Ht Hf. apply find_js_Some in H as (b & a & Hba & Hv & Hb).
    exists b, a. split_and!; [done | |].
    - apply Ht; [|done]. apply Hrank. rewrite Hba. apply elem_of_app. right. by left.
    - apply Forall_forall. intros u Hu. apply Hf.
      + apply Hrank. rewrite Hba. apply elem_of_app. by left.
      + by eapply Forall_forall in Hb. }
  assert (Hnone : ∀ p (P : nat → Prop),
    find_js p l = Value None →
    (∀ u, is_Some (v_name u) → p u = Value false → ¬ P (rank u)) →
    ∀ u, u ∈ l → ¬ P (rank u)).
  { intros p P H Hf u Hu. apply find_js_None in H. apply Hf; [by apply Hrank|].
    by eapply Forall_forall in H. }
  assert (Hv : ∀ p, p ∈ [officialTrailer; officialTeaser; anyTrailer; anyTeaser;
                          nonShortVideo] → find_js p l ≠ TypeError).
  { intros p Hp H. apply find_js_throws in H as (u & Hu & Hpu).
    apply (predicate_throws p u Hp) in Hpu. destruct (Hrank u Hu). congruence. }
  assert (Hlt : ∀ u, (rank u ≤ 5)%nat).
  { intros u. unfold rank. repeat case_match; lia. }
  unfold or_else.
  destruct (find_js officialTrailer l) as [[v|]|] eqn:E0;
    [| | by destruct (Hv officialTrailer); [repeat constructor|]].
  { exists v. split; [done|].
    destruct (Hsplit _ v (λ n, n = 0%nat) E0) as (b & a & Hba & Hr & Hb).
    - intros u Hu Hp. destruct (accepts_by_rank u Hu) as (A & _). rewrite A in Hp.
      injection Hp as Hp. by apply Nat.eqb_eq.
    - intros u Hu Hp. destruct (accepts_by_rank u Hu) as (A & _). rewrite A in Hp.
      injection Hp as Hp. by apply Nat.eqb_neq.
    - exists b, a. split_and!; [done | |].
      + eapply Forall_impl; [exact Hb|]. cbn. intros; lia.
      + apply Forall_forall. intros; lia. }
  pose proof (Hnone _ (λ n, n = 0%nat) E0) as N0. cbn in N0.
  specialize (N0 ltac:(intros u Hu Hp; destruct (accepts_by_rank u Hu) as (A & _);
    rewrite A in Hp; injection Hp as Hp; by apply Nat.eqb_neq)).
  destruct (find_js officialTeaser l) as [[v|]|] eqn:E1;
    [| | by destruct (Hv officialTeaser); [repeat constructor|]].
  { exists v. split; [done|].
    destruct (Hsplit _ v (λ n, n = 1%nat) E1) as (b & a & Hba & Hr & Hb).
    - intros u Hu Hp. destruct (accepts_by_rank u Hu) as (_ & A & _). rewrite A in Hp.
      injection Hp as Hp. by apply Nat.eqb_eq.
    - intros u Hu Hp. destruct (accepts_by_rank u Hu) as (_ & A & _). rewrite A in Hp.
      injection Hp as Hp. by apply Nat.eqb_neq.
    - exists b, a. split_and!; [done | |].
      + apply Forall_forall. intros u Hu.
        assert (u ∈ l) by (rewrite Hba; apply elem_of_app; by left).
        specialize (N0 u H). eapply Forall_forall in Hb; [|done]. cbn in Hb. lia.
      + apply Forall_forall. intros u Hu.
        assert (u ∈ l) by (rewrite Hba; apply elem_of_app; right; by right).
        specialize (N0 u H). lia. }
  pose proof (Hnone _ (λ n, n = 1%nat) E1) as N1. cbn in N1.
  specialize (N1 ltac:(intros u Hu Hp; destruct (accepts_by_rank u Hu) as (_ & A & _);
    rewrite A in Hp; injection Hp as Hp; by apply Nat.eqb_neq)).
  destruct (find_js anyTrailer l) as [[v|]|] eqn:E2;
    [| | by destruct (Hv anyTrailer); [repeat constructor|]].
  { exists v. split; [done|].
    destruct (Hsplit _ v (λ n, n = 0%nat ∨ n = 2%nat) E2) as (b & a & Hba & Hr & Hb).
    - intros u Hu Hp. destruct (accepts_by_rank u Hu) as (_ & _ & A & _).
      rewrite A in Hp. injection Hp as Hp.
      apply orb_true_iff in Hp. by rewrite !Nat.eqb_eq in Hp.
    - intros u Hu Hp. destruct (accepts_by_rank u Hu) as (_ & _ & A & _).
      rewrite A in Hp. injection Hp as Hp.
      apply orb_false_iff in Hp. rewrite !Nat.eqb_neq in Hp. lia.
    - assert (v ∈ l) by (rewrite Hba; apply elem_of_app; right; by left).
      pose proof (N0 v H).
      exists b, a. split_and!; [done | |].
      + apply Forall_forall. intros u Hu.
        assert (Hul : u ∈ l) by (rewrite Hba; apply elem_of_app; by left).
        pose proof (N0 u Hul). pose proof (N1 u Hul).
        eapply Forall_forall in Hb; [|done]. cbn in Hb. lia.
      + apply Forall_forall. intros u Hu.
        assert (Hul : u ∈ l) by (rewrite Hba; apply elem_of_app; right; by right).
        pose proof (N0 u Hul). pose proof (N1 u Hul). lia. }
  pose proof (Hnone _ (λ n, n = 0%nat ∨ n = 2%nat) E2) as N2. cbn in N2.
  specialize (N2 ltac:(intros u Hu Hp; destruct (accepts_by_rank u Hu) as (_ & _ & A & _);
    rewrite A in Hp; injection Hp as Hp; apply orb_false_iff in Hp;
    rewrite !Nat.eqb_neq in Hp; lia)).
  destruct (find_js anyTeaser l) as [[v|]|] eqn:E3;
    [| | by destruct (Hv anyTeaser); [repeat constructor|]].
  { exists v. split; [done|].
    destruct (Hsplit _ v (λ n, n = 1%nat ∨ n = 3%nat) E3) as (b & a & Hba & Hr & Hb).
    - intros u Hu Hp. destruct (accepts_by_rank u Hu) as (_ & _ & _ & A & _).
      rewrite A in Hp. injection Hp as Hp.
      apply orb_true_iff in Hp. by rewrite !Nat.eqb_eq in Hp.
    - intros u Hu Hp. destruct (accepts_by_rank u Hu) as (_ & _ & _ & A & _).
      rewrite A in Hp. injection Hp as Hp.
      apply orb_false_iff in Hp. rewrite !Nat.eqb_neq in Hp. lia.
    - assert (v ∈ l) by (rewrite Hba; apply elem_of_app; right; by left).
      pose proof (N1 v H).
      exists b, a. split_and!; [done | |].
      + apply Forall_forall. intros u Hu.
        assert (Hul : u ∈ l) by (rewrite Hba; apply elem_of_app; by left).
        pose proof (N0 u Hul). pose proof (N1 u Hul). pose proof (N2 u Hul).
        eapply Forall_forall in Hb; [|done]. cbn in Hb. lia.
      + apply Forall_forall. intros u Hu.
        assert (Hul : u ∈ l) by (rewrite Hba; apply elem_of_app; right; by right).
        pose proof (N0 u Hul). pose proof (N1 u Hul). pose proof (N2 u Hul). lia. }
  pose proof (Hnone _ (λ n, n = 1%nat ∨ n = 3%nat) E3) as N3. cbn in N3.
  specialize (N3 ltac:(intros u Hu Hp; destruct (accepts_by_rank u Hu) as (_ & _ & _ & A & _);
    rewrite A in Hp; injection Hp as Hp; apply orb_false_iff in Hp;
    rewrite !Nat.eqb_neq in Hp; lia)).
  destruct (find_js nonShortVideo l) as [[v|]|] eqn:E4;
    [| | by destruct (Hv nonShortVideo); [repeat constructor|]].
  { exists v. split; [done|].
    destruct (Hsplit _ v (λ n, (n ≤ 4)%nat) E4) as (b & a & Hba & Hr & Hb).
    - intros u Hu Hp. destruct (accepts_by_rank u Hu) as (_ & _ & _ & _ & A).
      rewrite A in Hp. injection Hp as Hp. by apply Nat.leb_le.
    - intros u Hu Hp. destruct (accepts_by_rank u Hu) as (_ & _ & _ & _ & A).
      rewrite A in Hp. injection Hp as Hp. apply Nat.leb_gt in Hp. lia.
    - assert (v ∈ l) by (rewrite Hba; apply elem_of_app; right; by left).
      pose proof (N0 v H). pose proof (N1 v H). pose proof (N2 v H). pose proof (N3 v H).
      exists b, a. split_and!; [done | |].
      + apply Forall_forall. intros u Hu.
        eapply Forall_forall in Hb; [|done]. cbn in Hb. lia.
      + apply Forall_forall. intros u Hu.
        assert (Hul : u ∈ l) by (rewrite Hba; apply elem_of_app; right; by right).
        pose proof (N0 u Hul). pose proof (N1 u Hul). pose proof (N2 u Hul).
        pose proof (N3 u Hul). lia. }
  pose proof (Hnone _ (λ n, (n ≤ 4)%nat) E4) as N4. cbn in N4.
  specialize (N4 ltac:(intros u Hu Hp; destruct (accepts_by_rank u Hu) as (_ & _ & _ & _ & A);
    rewrite A in Hp; injection Hp as Hp; apply Nat.leb_gt in Hp; lia)).
  exists first. split; [done|].
  exists [], rest. split_and!; [done | by constructor |].
  assert (first ∈ l) by (rewrite Hl; by left).
  pose proof (N4 first H). pose proof (Hlt first).
  apply Forall_forall. intros u Hu.
  assert (Hul : u ∈ l) by (rewrite Hl; by right).
  pose proof (N4 u Hul). lia.
Qed.

Lemma findBestTrailer_first_best_witness :
  ∃ v, findBestTrailer (Some offered) = Value (Some v) ∧
       first_best v (List.filter (λ v, String.eqb (v_site v) "YouTube") offered).
Proof.
  apply (findBestTrailer_first_best offered well_named).
  - repeat constructor; cbn; intros _; by eexists.
  - cbn. repeat constructor.
  - reflexivity.
Defined.

End trailer_selection.

(* ================================================================== *)
(** * Further properties of the acquisition coordinator *)
(* ================================================================== *)

Section lock_table.
Import StorageManager DownloadService Examples.

Lemma locks_kept_update L0 s i t t' w' now' fetches' :
  locks_kept L0 s →
  st_invocations s !! i = Some t →
  inv_contentId t' = inv_contentId t →
  lock_move t t' (st_world s) w' →
  locks_kept L0 {| st_world := w'; st_now := now';
                   st_invocations := <[i := t']> (st_invocations s);
                   st_fetches := fetches' |}.
Proof.
  intros [Hsub Hhold] Ht Hcid Hmove. unfold locks_kept. cbn [st_world st_invocations].
  assert (Hi : (i < length (st_invocations s))%nat) by by eapply lookup_lt_Some.
  split.
  - destruct Hmove as [_ Hl|_ _ _ Hl|Hh _ Hl]; rewrite Hl.
    + done.
    + set_solver.
    + pose proof (Hhold i t Ht Hh). set_solver.
  - intros j tj Hj Hhj.
    apply list_lookup_insert_Some in Hj as [(<- & <- & _)|[Hne Hj]]; [|by eapply Hhold].
    rewrite Hcid.
    destruct Hmove as [Hk _|_ _ Hfree _|_ Hfin _].
    + apply (Hhold i t Ht). congruence.
    + intros Hin. apply Hfree. by apply Hsub.
    + apply finished_not_holder in Hfin. congruence.
Qed.

Lemma step_locks_kept cfg L0 a s s' :
  step cfg a s = Some s' → lock_inv L0 s → locks_kept L0 s → locks_kept L0 s'.
Proof.
  intros Hstep Hinv Hkept.
  assert (Hflag : ∀ i t, st_invocations s !! i = Some t → flag_ok t).
  { intros i t Ht. destruct Hinv as (Hflag & _).
    eapply Forall_forall in Hflag; [done|]. by eapply list_elem_of_lookup_2. }
  assert (Hres : ∀ b sw i, do_resume cfg b sw i s = Some s' → locks_kept L0 s').
  { intros b sw i H.
    apply do_resume_Some in H as (t & t' & w' & fetch & Ht & Hr & ->).
    destruct (resume_lock _ _ _ _ _ _ _ _ _ Hr (Hflag i t Ht)) as (Hcid & _ & Hmove & _).
    by eapply locks_kept_update. }
  destruct a as [ms|i o|i|i|i sw]; cbn in Hstep; eauto.
  - case_match; [|done]. by simplify_eq.
  - destruct (st_invocations s !! i) as [t|] eqn:Ht; [|done]. cbn in Hstep.
    destruct (settle cfg (st_now s) o t (st_world s)) as [[t' w']|] eqn:Hr; [|done].
    cbn in Hstep. simplify_eq.
    destruct (settle_lock _ _ _ _ _ _ _ Hr (Hflag i t Ht)) as (Hcid & _ & Hh & Hl & _).
    eapply locks_kept_update; try done. by apply lock_keep.
Qed.

Lemma run_locks_kept cfg L0 acts s s' :
  run cfg acts s = Some s' → lock_inv L0 s → locks_kept L0 s → locks_kept L0 s'.
Proof.
  revert s. induction acts as [|a rest IH]; intros s Hrun Hinv Hkept; cbn in Hrun.
  - by simplify_eq.
  - destruct (step cfg a s) as [s1|] eqn:Hs; [|done].
    eapply IH; [done | by eapply step_lock_inv | by eapply step_locks_kept].
Qed.

Lemma initial_locks_kept w now calls : locks_kept (locks w) (initial w now calls).
Proof.
  split; [done|]. intros i t Ht Hh. cbn in Ht.
  apply list_lookup_fmap_Some in Ht as (x & -> & _). done.
Qed.

Lemma run_locks_restored cfg w0 now0 calls acts s :
  run cfg acts (initial w0 now0 calls) = Some s →
  all_finished s → locks (st_world s) = locks w0.
Proof.
  intros Hrun Hfin.
  pose proof (run_lock_inv _ _ _ _ _ Hrun (initial_lock_inv w0 now0 calls))
    as (_ & _ & _ & Hown).
  pose proof (run_locks_kept _ _ _ _ _ Hrun (initial_lock_inv w0 now0 calls)
                (initial_locks_kept w0 now0 calls)) as [Hsub _].
  apply set_eq. intros cid. split; [|by apply Hsub].
  intros Hin. destruct (Hown cid Hin) as [|(i & t & Ht & _ & Hh)]; [done|].
  eapply Forall_forall in Hfin; [|by eapply list_elem_of_lookup_2].
  apply finished_not_holder in Hfin. congruence.
Qed.

(** Concurrent invocations of [downloadAndStore] never remove a lock
    they did not take: an id that was locked before the calls stays
    locked throughout, and once every invocation has completed the lock
    table is exactly what it was before the calls. *)
Theorem lock_table_restored (cfg : config) (w0 : world) (now0 : Z)
    (calls : list (string * string * metadata)) (acts : list action) (s : state) :
  run cfg acts (initial w0 now0 calls) = Some s →
  locks w0 ⊆ locks (st_world s) ∧
  (all_finished s → locks (st_world s) = locks w0).
Proof.
  intros Hrun.
  pose proof (initial_lock_inv w0 now0 calls) as Hinv0.
  pose proof (initial_locks_kept w0 now0 calls) as Hkept0.
  destruct (run_locks_kept _ _ _ _ _ Hrun Hinv0 Hkept0) as [Hsub Hfree].
  destruct (run_lock_inv _ _ _ _ _ Hrun Hinv0) as (_ & _ & _ & Hown).
  split; [exact Hsub|].
  intros Hfin. apply set_eq. intros cid. split; [|by apply Hsub].
  intros Hin. destruct (Hown cid Hin) as [|(i & t & Ht & _ & Hh)]; [done|].
  assert (Hdone : finished (inv_pc t) = true).
  { eapply Forall_forall in Hfin; [done|]. by eapply list_elem_of_lookup_2. }
  apply finished_not_holder in Hdone. congruence.
Qed.

Lemma lock_table_restored_witness :
  match run cfg deduplicated (initial empty_world 1000 [request; request]) with
  | Some s => locks (st_world s) = locks empty_world
  | None => False
  end.
Proof.
  assert (Hout :
    outcome_of <$> run cfg deduplicated (initial empty_world 1000 [request; request]) =
    Some ([Finished (Ok (getVideoPath cfg "movie_1"));
           Finished (Ok (getVideoPath cfg "movie_1"))], 1%nat))
    by (vm_compute; reflexivity).
  remember (run cfg deduplicated (initial empty_world 1000 [request; request]))
    as r eqn:Hrun.
  destruct r as [s|]; [|discriminate Hout].
  injection Hout as Hpcs _. symmetry in Hrun.
  apply (proj2 (lock_table_restored cfg empty_world 1000 [request; request]
                  deduplicated s Hrun)).
  unfold all_finished. apply Forall_forall. intros t Ht.
  apply (list_elem_of_fmap_2 inv_pc) in Ht.
  change (inv_pc <$> st_invocations s) with (map inv_pc (st_invocations s)) in Ht.
  rewrite Hpcs in Ht. apply elem_of_cons in Ht as [->|Ht]; [reflexivity|].
  apply list_elem_of_singleton in Ht as ->. reflexivity.
Defined.

End lock_table.

Section lock_wait.
Import StorageManager DownloadService Examples RouteExamples.

Lemma run_app cfg a b s :
  run cfg (a ++ b) s = run cfg a s ≫= run cfg b.
Proof.
  revert s. induction a as [|x a IH]; intros s; [done|].
  cbn. destruct (step cfg x s); [apply IH | done].
Qed.

Lemma polls_S i k :
  polls i (S k) = polls i k ++ [Tick poll_delay; Resume i].
Proof.
  unfold polls. induction k as [|k IH]; [done|].
  rewrite replicate_S. cbn [concat]. rewrite IH at 1.
  rewrite replicate_S. cbn [concat]. by rewrite <- app_assoc.
Qed.

Lemma at_pc_same t : at_pc (inv_pc t) t = t.
Proof. by destruct t. Qed.

Lemma at_pc_at_pc p q t : at_pc p (at_pc q t) = at_pc p t.
Proof. done. Qed.

(** One poll while the lock is held. *)
Lemma poll_while_held cfg s i t startTime :
  st_invocations s !! i = Some t →
  inv_pc t = AwaitTimer startTime (st_now s + poll_delay) →
  inv_contentId t ∈ locks (st_world s) →
  inv_lockAcquired t = false →
  run cfg [Tick poll_delay; Resume i] s =
  Some {| st_world := st_world s; st_now := st_now s + poll_delay;
          st_invocations :=
            <[i := at_pc (if lock_timeout <? st_now s + poll_delay - startTime
                          then Finished (Throw (LockTimeout (inv_contentId t)))
                          else AwaitTimer startTime (st_now s + poll_delay + poll_delay))
                     t]> (st_invocations s);
          st_fetches := st_fetches s |}.
Proof.
  intros Ht Hpc Hheld Hflag. cbn [run].
  assert (Htick : step cfg (Tick poll_delay) s =
            Some {| st_world := st_world s; st_now := st_now s + poll_delay;
                    st_invocations := st_invocations s;
                    st_fetches := st_fetches s |}) by reflexivity.
  rewrite Htick.
  assert (Hr : resume cfg (st_now s + poll_delay) false nothing_to_sweep t (st_world s) =
            Some (at_pc (if lock_timeout <? st_now s + poll_delay - startTime
                          then Finished (Throw (LockTimeout (inv_contentId t)))
                          else AwaitTimer startTime (st_now s + poll_delay + poll_delay))
                     t, st_world s, false)).
  { unfold resume. rewrite Hpc.
    rewrite Z.leb_refl. unfold waitForLock_turn.
    rewrite bool_decide_eq_true_2 by done.
    destruct (lock_timeout <? st_now s + poll_delay - startTime); [|done].
    unfold finish. by rewrite Hflag. }
  erewrite step_Resume; [ | exact Ht | exact Hr ]. reflexivity.
Qed.

(** [waitForLock] gives up at the 31st poll.  A waiter that entered the
    wait at [startTime] and polls every second while another holds the
    lock is still waiting after each of its first 30 polls; the poll at
    31 seconds is the first at which more than the 30000 ms of the
    timeout have passed, and there it throws, leaving the lock table as it
    is. *)
Theorem waitForLock_gives_up_at_poll_31 (cfg : config) (s : state) (i : nat)
    (t : invocation) (startTime : Z) :
  st_invocations s !! i = Some t →
  inv_pc t = AwaitTimer startTime (startTime + poll_delay) →
  st_now s = startTime →
  inv_contentId t ∈ locks (st_world s) →
  inv_lockAcquired t = false →
  (∀ k, (k ≤ 30)%nat →
     run cfg (polls i k) s =
     Some {| st_world := st_world s; st_now := startTime + 1000 * Z.of_nat k;
             st_invocations :=
               <[i := at_pc (AwaitTimer startTime
                               (startTime + 1000 * (Z.of_nat k + 1))) t]>
                 (st_invocations s);
             st_fetches := st_fetches s |}) ∧
  run cfg (polls i 31) s =
  Some {| st_world := st_world s; st_now := startTime + 31000;
          st_invocations :=
            <[i := at_pc (Finished (Throw (LockTimeout (inv_contentId t)))) t]>
              (st_invocations s);
          st_fetches := st_fetches s |}.
Proof.
  intros Ht Hpc Hnow Hheld Hflag.
  assert (Hi : (i < length (st_invocations s))%nat) by by eapply lookup_lt_Some.
  assert (Hk : ∀ k, (k ≤ 30)%nat →
     run cfg (polls i k) s =
     Some {| st_world := st_world s; st_now := startTime + 1000 * Z.of_nat k;
             st_invocations :=
               <[i := at_pc (AwaitTimer startTime
                               (startTime + 1000 * (Z.of_nat k + 1))) t]>
                 (st_invocations s);
             st_fetches := st_fetches s |}).
  { induction k as [|k IH]; intros Hle.
    - cbn [polls replicate concat run]. f_equal.
      destruct s as [w now invs fetches]. cbn in *. subst now.
      replace (startTime + 1000 * (Z.of_nat 0 + 1)) with (startTime + poll_delay)
        by (unfold poll_delay; lia).
      rewrite <- Hpc, at_pc_same, list_insert_id by done.
      f_equal. lia.
    - rewrite polls_S, run_app, IH by lia. cbn [mbind option_bind].
      erewrite poll_while_held; cbn [st_world st_now st_invocations st_fetches];
        [ | by apply list_lookup_insert_eq
          | cbn; f_equal; unfold poll_delay; lia | done | done ].
      replace (lock_timeout <? startTime + 1000 * Z.of_nat k + poll_delay - startTime)
        with false by (symmetry; apply Z.ltb_ge; unfold lock_timeout, poll_delay; lia).
      rewrite list_insert_insert_eq, at_pc_at_pc. cbn [inv_contentId at_pc].
      replace (startTime + 1000 * Z.of_nat k + poll_delay + poll_delay)
        with (startTime + 1000 * (Z.of_nat (S k) + 1)) by (unfold poll_delay; lia).
      replace (startTime + 1000 * Z.of_nat k + poll_delay)
        with (startTime + 1000 * Z.of_nat (S k)) by (unfold poll_delay; lia).
      reflexivity. }
  split; [exact Hk|].
  rewrite polls_S, run_app, Hk by lia. cbn [mbind option_bind].
  erewrite poll_while_held; cbn [st_world st_now st_invocations st_fetches];
    [ | by apply list_lookup_insert_eq
      | cbn; f_equal; unfold poll_delay; lia | done | done ].
  replace (lock_timeout <? startTime + 1000 * Z.of_nat 30 + poll_delay - startTime)
    with true by (symmetry; apply Z.ltb_lt; unfold lock_timeout, poll_delay; lia).
  rewrite list_insert_insert_eq, at_pc_at_pc. cbn [inv_contentId at_pc].
  replace (startTime + 1000 * Z.of_nat 30 + poll_delay) with (startTime + 31000)
    by (unfold poll_delay; lia).
  reflexivity.
Qed.

Lemma waitForLock_gives_up_witness :
  inv_pc <$> (run cfg (polls 1 31) waiting ≫= λ s, st_invocations s !! 1%nat) =
  Some (Finished (Throw (LockTimeout "movie_1"))).
Proof.
  rewrite (proj2 (waitForLock_gives_up_at_poll_31 cfg waiting 1
                    {| inv_contentId := "movie_1";
                       inv_youtubeUrl := "https://www.youtube.com/watch?v=abc";
                       inv_metadata := meta; inv_lockAcquired := false;
                       inv_pc := AwaitTimer 1000 2000 |} 1000
                    eq_refl eq_refl eq_refl
                    ltac:(cbn; by apply elem_of_singleton_2) eq_refl)).
  reflexivity.
Defined.

End lock_wait.

Section acquisition_paths.
Import StorageManager DownloadService Examples RouteExamples.

Lemma at_pc_same' t : at_pc (inv_pc t) t = t.
Proof. by destruct t. Qed.

(** A hit in the pre-lock check returns the stored path at once, also
    while another invocation holds the lock of the id: the Fetcher is not
    called, and catalog (the access statistics are not bumped on this
    path), files and lock table stay as they are. *)
Theorem downloadAndStore_hit_needs_no_lock (cfg : config) (s : state) (i : nat)
    (t : invocation) (r : TrailerStorage) (p : string) :
  st_invocations s !! i = Some t →
  inv_pc t = AwaitImport →
  inv_lockAcquired t = false →
  findOne (catalog (st_world s)) (inv_contentId t) = Some r →
  isActive r = true →
  localPath r = Some p →
  is_Some (files (st_world s) !! p) →
  run cfg [Resume i; Settle i (Db false); Resume i] s =
  Some {| st_world := st_world s; st_now := st_now s;
          st_invocations := <[i := at_pc (Finished (Ok p)) t]> (st_invocations s);
          st_fetches := st_fetches s |}.
Proof.
  intros Ht Hpc Hflag Hr Hact Hp Hfile.
  assert (Hi : (i < length (st_invocations s))%nat) by by eapply lookup_lt_Some.
  cbn [run].
  erewrite step_Resume; [ | exact Ht | unfold resume; rewrite Hpc; reflexivity ].
  erewrite step_Settle;
    [ | cbn; by apply list_lookup_insert_eq
      | unfold settle; cbn; rewrite Hr; reflexivity ].
  cbn [st_world st_now st_invocations st_fetches].
  erewrite step_Resume;
    [ | cbn; apply list_lookup_insert_eq; by rewrite length_insert
      | cbn; unfold resume; cbn; rewrite Hact, Hp;
        rewrite (bool_decide_eq_true_2 _ Hfile : existsSync _ _ = true);
        unfold finish; cbn; rewrite Hflag; reflexivity ].
  cbn. by rewrite !list_insert_insert_eq.
Qed.

Lemma downloadAndStore_hit_witness :
  outcome_of <$> run cfg [Resume 0; Settle 0 (Db false); Resume 0]
                   (initial locked_world 1000 [request]) =
  Some ([Finished (Ok (getVideoPath cfg "movie_1"))], 0%nat).
Proof.
  rewrite (downloadAndStore_hit_needs_no_lock cfg (initial locked_world 1000 [request]) 0
             (call "movie_1" "https://www.youtube.com/watch?v=abc" meta)
             (entry "movie_1" 1 100 0 true) (getVideoPath cfg "movie_1")
             eq_refl eq_refl eq_refl eq_refl eq_refl eq_refl
             ltac:(eexists; reflexivity)).
  reflexivity.
Defined.

Lemma set_locks_set_locks L L' w : set_locks L (set_locks L' w) = set_locks L w.
Proof. done. Qed.

Lemma checkAndCleanup_set_locks cfg f L w :
  checkAndCleanup cfg f (set_locks L w) = set_locks L (checkAndCleanup cfg f w).
Proof.
  unfold checkAndCleanup.
  change (getStorageStats cfg (set_locks L w)) with (getStorageStats cfg w).
  destruct (near_limit cfg (getStorageStats cfg w)); [|done].
  unfold cleanup. cbn [catalog set_locks].
  destruct (cl_find f); [done|].
  by rewrite foldl_evict_set_locks.
Qed.

Lemma saveVideo_txn_set_locks cfg f now cid m p size L w :
  saveVideo_txn cfg f now cid m p size (set_locks L w) =
  ((saveVideo_txn cfg f now cid m p size w).1,
   set_locks L (saveVideo_txn cfg f now cid m p size w).2).
Proof.
  unfold saveVideo_txn. destruct (sv_fault_at f); try destruct (sv_abort f); try done;
    cbn [fst snd]; f_equal;
    change (set_catalog ?c (set_locks L w)) with (set_locks L (set_catalog c w));
    apply checkAndCleanup_set_locks.
Qed.

Lemma acquire_release (cid : string) (L : gset string) :
  cid ∉ L → releaseLock cid ({[cid]} ∪ L) = L.
Proof. unfold releaseLock. set_solver. Qed.

Lemma waitForLock_turn_free now startTime t w :
  inv_contentId t ∉ locks w →
  waitForLock_turn now startTime t w =
  (at_pc (AwaitLock true) t, set_locks ({[inv_contentId t]} ∪ locks w) w).
Proof.
  intros H. unfold waitForLock_turn, acquireLock.
  by rewrite !bool_decide_eq_false_2 by done.
Qed.

Ltac norm_state :=
  cbn [st_world st_now st_invocations st_fetches at_pc with_lockAcquired
       inv_contentId inv_youtubeUrl inv_metadata inv_lockAcquired inv_pc
       catalog files locks set_locks set_files set_catalog fst snd].

Ltac norm_state_all :=
  cbn [st_world st_now st_invocations st_fetches at_pc with_lockAcquired
       inv_contentId inv_youtubeUrl inv_metadata inv_lockAcquired inv_pc
       catalog files locks set_locks set_files set_catalog fst snd] in *.

Ltac resume_by tac :=
  erewrite step_Resume; [ | by apply list_lookup_insert_eq | norm_state; tac ];
  norm_state; rewrite ?list_insert_insert_eq.

Ltac settle_by tac :=
  erewrite step_Settle; [ | by apply list_lookup_insert_eq | norm_state; tac ];
  norm_state; rewrite ?list_insert_insert_eq.

(** The run of [acquisition] up to the return of [saveVideo]. *)
Lemma acquisition_to_commit_run cfg s i t bytes f :
  st_invocations s !! i = Some t →
  inv_pc t = AwaitImport →
  inv_lockAcquired t = false →
  all_inactive (inv_contentId t) (catalog (st_world s)) →
  inv_contentId t ∉ locks (st_world s) →
  sv_fault_at f = SvNone →
  run cfg (acquisition_to_commit i bytes f) s =
  Some {| st_world :=
            set_locks ({[inv_contentId t]} ∪ locks (st_world s))
              (saveVideo cfg f (st_now s) (inv_contentId t)
                 (tempFile (md_title (inv_metadata t)) (st_now s)) (inv_metadata t)
                 (set_files
                    (<[tempFile (md_title (inv_metadata t)) (st_now s) := bytes]>
                       (files (st_world s))) (st_world s))).2;
          st_now := st_now s;
          st_invocations :=
            <[i := at_pc (AwaitTransaction (getVideoPath cfg (inv_contentId t))
                            (length bytes)
                            (Some (Ok {| sr_path := getVideoPath cfg (inv_contentId t);
                                         sr_sizeMB := sizeMB (length bytes) |})))
                     (with_lockAcquired true t)]> (st_invocations s);
          st_fetches := inv_contentId t :: st_fetches s |}.
Proof.
  intros Ht Hpc Hflag Hinactive Hfree Hf.
  assert (Hi : (i < length (st_invocations s))%nat) by by eapply lookup_lt_Some.
  destruct s as [w now invs fetches]. destruct t as [cid url m la p].
  norm_state_all. subst la p.
  remember (tempFile (md_title m) now) as tmp eqn:Htmp.
  assert (Hex : ∀ W : filesystem, existsSync (<[tmp := bytes]> W) tmp = true).
  { intros W. apply bool_decide_eq_true. rewrite lookup_insert_eq. by eexists. }
  assert (Hno : findOne_active (catalog w) cid = None)
    by by apply all_inactive_findOne_active.
  set (wc := set_files (<[getVideoPath cfg cid := bytes]> (<[tmp := bytes]> (files w))) w).
  assert (Hsave : saveVideo cfg f now cid tmp m (set_files (<[tmp := bytes]> (files w)) w) =
                  saveVideo_txn cfg f now cid m (getVideoPath cfg cid) (length bytes) wc).
  { unfold saveVideo, saveVideo_copy. cbn [files set_files].
    rewrite lookup_insert_eq, Hf. reflexivity. }
  assert (Hok : (saveVideo_txn cfg f now cid m (getVideoPath cfg cid) (length bytes) wc).1 =
                Ok {| sr_path := getVideoPath cfg cid;
                      sr_sizeMB := sizeMB (length bytes) |}).
  { unfold saveVideo_txn. by rewrite Hf. }
  rewrite Hsave. unfold acquisition_to_commit, acquisition. cbn [removelast run].
  (* the pre-lock check *)
  erewrite step_Resume; [ | exact Ht | reflexivity ]. norm_state.
  settle_by ltac:(reflexivity).
  (* the lock *)
  assert (Hlock :
    resume cfg now false nothing_to_sweep
      {| inv_contentId := cid; inv_youtubeUrl := url; inv_metadata := m;
         inv_lockAcquired := false;
         inv_pc := AwaitFindExisting (Some (Ok (findOne (catalog w) cid))) |} w =
    Some ({| inv_contentId := cid; inv_youtubeUrl := url; inv_metadata := m;
             inv_lockAcquired := false; inv_pc := AwaitLock true |},
          set_locks ({[cid]} ∪ locks w) w, false)).
  { unfold resume. norm_state.
    destruct (findOne (catalog w) cid) as [r|] eqn:Hr;
      [rewrite (all_inactive_findOne cid _ _ Hinactive Hr)|];
      by rewrite waitForLock_turn_free. }
  resume_by ltac:(exact Hlock).
  resume_by ltac:(reflexivity).
  (* the double check *)
  settle_by ltac:(unfold settle; norm_state; rewrite Hno; reflexivity).
  (* the download *)
  resume_by ltac:(reflexivity). rewrite <- Htmp.
  settle_by ltac:(reflexivity).
  resume_by ltac:(unfold resume; norm_state; rewrite Hex; reflexivity).
  (* the commit *)
  resume_by ltac:(unfold resume, saveVideo_copy; norm_state; cbn [sv_fault_at];
                  rewrite lookup_insert_eq; reflexivity).
  settle_by ltac:(
    unfold settle; norm_state;
    change (saveVideo_txn cfg f now cid m (getVideoPath cfg cid) (length bytes) _)
      with (saveVideo_txn cfg f now cid m (getVideoPath cfg cid) (length bytes)
              (set_locks ({[cid]} ∪ locks w) wc));
    rewrite saveVideo_txn_set_locks, Hok; reflexivity).
  reflexivity.
Qed.

(** An acquisition that meets no obstacle is the download to the temp
    path followed by [saveVideo], under the lock of the id.  Started with
    no active entry of the id and the lock free, it calls the Fetcher
    once; when its [saveVideo] has returned, the world is the one that
    [saveVideo] leaves on the store with the downloaded file, the lock of
    the id still held; and it then returns the final path that [saveVideo]
    returns, with the lock table as before and the catalog of that world:
    with its files too when the sweep of the temp directory finds nothing
    older than an hour, and whatever the sweep finds, with its files
    outside the temp directory. *)
Theorem downloadAndStore_commits (cfg : config) (s : state) (i : nat)
    (t : invocation) (bytes : list byte) (f : sv_faults) :
  st_invocations s !! i = Some t →
  inv_pc t = AwaitImport →
  inv_lockAcquired t = false →
  all_inactive (inv_contentId t) (catalog (st_world s)) →
  inv_contentId t ∉ locks (st_world s) →
  sv_fault_at f = SvNone →
  let cid := inv_contentId t in
  let tmp := tempFile (md_title (inv_metadata t)) (st_now s) in
  let downloaded := set_files (<[tmp := bytes]> (files (st_world s))) (st_world s) in
  let saved := saveVideo cfg f (st_now s) cid tmp (inv_metadata t) downloaded in
  saved.1 = Ok {| sr_path := getVideoPath cfg cid;
                  sr_sizeMB := sizeMB (length bytes) |} ∧
  run cfg (acquisition_to_commit i bytes f) s =
    Some {| st_world := set_locks ({[cid]} ∪ locks (st_world s)) saved.2;
            st_now := st_now s;
            st_invocations :=
              <[i := at_pc (AwaitTransaction (getVideoPath cfg cid) (length bytes)
                              (Some saved.1))
                       (with_lockAcquired true t)]> (st_invocations s);
            st_fetches := cid :: st_fetches s |} ∧
  run cfg (acquisition i bytes f) s =
    Some {| st_world := set_locks (locks (st_world s)) saved.2;
            st_now := st_now s;
            st_invocations :=
              <[i := at_pc (Finished (Ok (getVideoPath cfg cid)))
                       (with_lockAcquired true t)]> (st_invocations s);
            st_fetches := cid :: st_fetches s |} ∧
  ∀ sw, ∃ s',
    run cfg (acquisition_to_commit i bytes f ++ [ResumeSweep i sw]) s = Some s' ∧
    st_invocations s' =
      <[i := at_pc (Finished (Ok (getVideoPath cfg cid)))
               (with_lockAcquired true t)]> (st_invocations s) ∧
    st_fetches s' = cid :: st_fetches s ∧
    locks (st_world s') = locks (st_world s) ∧
    catalog (st_world s') = catalog saved.2 ∧
    (∀ q, in_temp_dir q = false → files (st_world s') !! q = files saved.2 !! q).
Proof.
  intros Ht Hpc Hflag Hinactive Hfree Hf cid tmp downloaded saved.
  assert (Hi : (i < length (st_invocations s))%nat) by by eapply lookup_lt_Some.
  assert (Hok : saved.1 = Ok {| sr_path := getVideoPath cfg cid;
                                sr_sizeMB := sizeMB (length bytes) |}).
  { subst saved downloaded. unfold saveVideo, saveVideo_copy. cbn [files set_files].
    rewrite lookup_insert_eq, Hf. unfold saveVideo_txn. by rewrite Hf. }
  pose proof (acquisition_to_commit_run cfg s i t bytes f Ht Hpc Hflag Hinactive
                Hfree Hf) as Hrun.
  fold cid tmp downloaded saved in Hrun.
  split; [exact Hok|]. split; [by rewrite Hok|].
  assert (Happ : acquisition i bytes f = acquisition_to_commit i bytes f ++ [Resume i])
    by reflexivity.
  assert (Hrel : ({[cid]} ∪ locks (st_world s)) ∖ {[cid]} = locks (st_world s))
    by by apply acquire_release.
  split.
  - rewrite Happ, run_app, Hrun. cbn [mbind option_bind run].
    erewrite step_Resume;
      [ | cbn; by apply list_lookup_insert_eq | cbn; reflexivity ].
    unfold finish, DownloadService.cleanupTempFiles. cbn.
    rewrite list_insert_insert_eq. unfold releaseLock. fold cid. rewrite Hrel.
    by destruct saved.2.
  - intros sw. rewrite run_app, Hrun. cbn [mbind option_bind run].
    erewrite step_ResumeSweep;
      [ | cbn; by apply list_lookup_insert_eq | reflexivity | cbn; reflexivity ].
    eexists. split; [reflexivity|].
    unfold finish. cbn. rewrite list_insert_insert_eq.
    destruct (cleanupTempFiles_frame sw (st_now s)
                (set_locks ({[cid]} ∪ locks (st_world s)) saved.2))
      as (Hcat & Hlocks & Hfiles & _).
    split_and!; done.
Qed.

Lemma downloadAndStore_commits_witness :
  ∃ s',
    run cfg (acquisition_to_commit 0 new_bytes no_save_faults ++
             [ResumeSweep 0 old_store_dir])
      (initial empty_world 1000 [request]) = Some s' ∧
    inv_pc <$> st_invocations s' = [Finished (Ok (getVideoPath cfg "movie_1"))] ∧
    st_fetches s' = ["movie_1"] ∧
    locks (st_world s') = ∅.
Proof.
  destruct (proj2 (proj2 (proj2 (downloadAndStore_commits cfg
                    (initial empty_world 1000 [request]) 0
                    (call "movie_1" "https://www.youtube.com/watch?v=abc" meta)
                    new_bytes no_save_faults eq_refl eq_refl eq_refl
                    ltac:(intros r Hr; apply elem_of_nil in Hr; destruct Hr)
                    ltac:(apply not_elem_of_empty) eq_refl))) old_store_dir)
    as (s' & Hrun & Hinv & Hfetch & Hlocks & _).
  exists s'. split; [exact Hrun|]. rewrite Hinv, Hfetch, Hlocks.
  split_and!; reflexivity.
Defined.

(** A failed download leaves nothing behind: when the yt-dlp process
    fails, whatever it has written to the temp path is removed, the error
    is thrown and the lock is released, with the catalog and every other
    file as they were.  When the process ends well and has left a file
    neither at the temp path nor under the extension [.mkv], the
    invocation throws and releases the lock just the same.  When it has
    left its output under [.mkv], that file is renamed to the temp path
    and the invocation goes on to store it. *)
Theorem failed_download_is_cleaned_up (cfg : config) (s : state) (i : nat)
    (t : invocation) (tmp : string) :
  st_invocations s !! i = Some t →
  inv_pc t = AwaitExec tmp None →
  inv_lockAcquired t = true →
  (∀ written, ∃ s',
     run cfg [Settle i (Exec false written); Resume i] s = Some s' ∧
     inv_pc <$> st_invocations s' !! i = Some (Finished (Throw ExecError)) ∧
     files (st_world s') !! tmp = None ∧
     (∀ q, q ≠ tmp → files (st_world s') !! q = files (st_world s) !! q) ∧
     catalog (st_world s') = catalog (st_world s) ∧
     locks (st_world s') = locks (st_world s) ∖ {[inv_contentId t]} ∧
     st_fetches s' = st_fetches s) ∧
  (files (st_world s) !! tmp = None →
   files (st_world s) !! altFile tmp = None →
   ∃ s',
     run cfg [Settle i (Exec true None); Resume i] s = Some s' ∧
     inv_pc <$> st_invocations s' !! i = Some (Finished (Throw DownloadedFileNotFound)) ∧
     files (st_world s') = files (st_world s) ∧
     catalog (st_world s') = catalog (st_world s) ∧
     locks (st_world s') = locks (st_world s) ∖ {[inv_contentId t]} ∧
     st_fetches s' = st_fetches s) ∧
  (files (st_world s) !! tmp = None →
   ∀ bytes, ∃ s',
     run cfg [Settle i (ExecMkv bytes); Resume i] s = Some s' ∧
     inv_pc <$> st_invocations s' !! i = Some (AwaitSaveImport tmp) ∧
     files (st_world s') !! tmp = Some bytes ∧
     (altFile tmp ≠ tmp → files (st_world s') !! altFile tmp = None) ∧
     (∀ q, q ≠ tmp → q ≠ altFile tmp →
           files (st_world s') !! q = files (st_world s) !! q) ∧
     catalog (st_world s') = catalog (st_world s) ∧
     locks (st_world s') = locks (st_world s) ∧
     st_fetches s' = st_fetches s).
Proof.
  intros Ht Hpc Hflag.
  assert (Hi : (i < length (st_invocations s))%nat) by by eapply lookup_lt_Some.
  split_and!.
  - intros written. eexists. split.
    + cbn [run].
      erewrite step_Settle; [ | exact Ht | unfold settle; rewrite Hpc; reflexivity ].
      erewrite step_Resume;
        [ | cbn; by apply list_lookup_insert_eq
          | cbn; unfold resume, finish; cbn; rewrite Hflag; reflexivity ].
      reflexivity.
    + cbn. rewrite list_lookup_insert_eq by by rewrite length_insert.
      split_and!; try done.
      * apply unlink_if_exists_lookup.
      * intros q Hq. rewrite unlink_if_exists_ne by done.
        destruct written; cbn; [by rewrite lookup_insert_ne | done].
      * by destruct written.
      * by destruct written.
  - intros Hnone Halt. eexists. split.
    + cbn [run].
      erewrite step_Settle; [ | exact Ht | unfold settle; rewrite Hpc; reflexivity ].
      erewrite step_Resume;
        [ | cbn; by apply list_lookup_insert_eq
          | cbn; unfold resume, finish; cbn;
            rewrite (proj2 (existsSync_false _ _) Hnone), Halt, Hflag; reflexivity ].
      reflexivity.
    + cbn. rewrite list_lookup_insert_eq by by rewrite length_insert. done.
  - intros Hnone bytes.
    destruct (decide (altFile tmp = tmp)) as [Heq|Hne].
    + eexists. split.
      * cbn [run].
        erewrite step_Settle; [ | exact Ht | unfold settle; rewrite Hpc; reflexivity ].
        erewrite step_Resume;
          [ | cbn; by apply list_lookup_insert_eq
            | cbn; unfold resume; cbn; rewrite Heq, existsSync_insert; reflexivity ].
        reflexivity.
      * cbn. rewrite list_lookup_insert_eq by by rewrite length_insert.
        rewrite Heq, lookup_insert_eq. split_and!; try done.
        intros q Hq _. by rewrite lookup_insert_ne.
    + eexists. split.
      * cbn [run].
        erewrite step_Settle; [ | exact Ht | unfold settle; rewrite Hpc; reflexivity ].
        erewrite step_Resume;
          [ | cbn; by apply list_lookup_insert_eq
            | cbn; unfold resume; cbn;
              rewrite (proj2 (existsSync_false _ tmp))
                by (by rewrite lookup_insert_ne);
              rewrite lookup_insert_eq; reflexivity ].
        reflexivity.
      * cbn. rewrite list_lookup_insert_eq by by rewrite length_insert.
        rewrite lookup_insert_eq. split_and!; try done.
        -- intros _. rewrite lookup_insert_ne by done. apply lookup_delete_eq.
        -- intros q Hq Hq'.
           rewrite lookup_insert_ne, lookup_delete_ne, lookup_insert_ne by done. done.
Qed.

Lemma failed_download_witness :
  (∃ s',
    run cfg [Settle 0 (Exec false (Some new_bytes)); Resume 0] waiting = Some s' ∧
    inv_pc <$> st_invocations s' !! 0%nat = Some (Finished (Throw ExecError)) ∧
    files (st_world s') !! tempFile "Fight Club" 1000 = None ∧
    locks (st_world s') = locks (st_world waiting) ∖ {["movie_1"]}) ∧
  (∃ s',
    run cfg [Settle 0 (ExecMkv new_bytes); Resume 0] waiting = Some s' ∧
    inv_pc <$> st_invocations s' !! 0%nat =
      Some (AwaitSaveImport (tempFile "Fight Club" 1000)) ∧
    files (st_world s') !! tempFile "Fight Club" 1000 = Some new_bytes).
Proof.
  pose proof (failed_download_is_cleaned_up cfg waiting 0
                {| inv_contentId := "movie_1";
                   inv_youtubeUrl := "https://www.youtube.com/watch?v=abc";
                   inv_metadata := meta; inv_lockAcquired := true;
                   inv_pc := AwaitExec (tempFile "Fight Club" 1000) None |}
                (tempFile "Fight Club" 1000) eq_refl eq_refl eq_refl)
    as (Hfail & _ & Hmkv).
  split.
  - destruct (Hfail (Some new_bytes)) as (s' & H1 & H2 & H3 & _ & _ & H6 & _).
    exists s'. split; [exact H1 | split; [exact H2 | split; [exact H3 | exact H6]]].
  - destruct (Hmkv eq_refl new_bytes) as (s' & H1 & H2 & H3 & _).
    exists s'. split; [exact H1 | split; [exact H2 | exact H3]].
Defined.

End acquisition_paths.

(* ================================================================== *)
(** * Properties of the trailer route *)
(* ================================================================== *)

Section trailer_route.
Import StorageManager DownloadService StreamServer TrailerRoutes Examples RouteExamples.

Lemma stream_status fs p range :
  status_of (streamVideoFile fs p range) = 200 ∨
  status_of (streamVideoFile fs p range) = 206 ∨
  streamVideoFile fs p range = stream_error.
Proof.
  unfold streamVideoFile. destruct (fs !! p) as [content|]; [|by right; right].
  destruct range as [[|c r]|]; [by left | | by left].
  destruct (createReadStream _ _ _); [by right; left | by right; right].
Qed.

Lemma stream_served_exists fs p range :
  served (streamVideoFile fs p range) → is_Some (fs !! p).
Proof.
  unfold served, streamVideoFile. destruct (fs !! p); [by eexists|].
  cbn. intros [|]; discriminate.
Qed.

Lemma getVideoInfo_frame f now cid w :
  files (getVideoInfo f now cid w).2 = files w ∧
  locks (getVideoInfo f now cid w).2 = locks w.
Proof.
  unfold getVideoInfo. repeat case_match; done.
Qed.

Lemma findOne_active_None cid c :
  findOne_active c cid = None → all_inactive cid c.
Proof.
  unfold findOne_active. intros H r Hin Hid.
  apply list_elem_of_In in Hin.
  pose proof (find_none _ _ H r Hin) as Hf. cbn in Hf.
  rewrite (proj2 (has_id_true cid r) Hid) in Hf. done.
Qed.

Lemma all_inactive_deactivated cid c :
  all_inactive cid (save_paths (with_isActive false) cid c).
Proof.
  intros r Hr Hid. apply elem_of_save_paths in Hr as (r0 & _ & ->).
  destruct (has_id cid r0) eqn:E; [done|].
  apply has_id_false in E. done.
Qed.

(** What a lookup that meets no fault leaves behind: after a miss no
    entry of the id is active; after a hit the entry is as it was but for
    its access statistics. *)
Lemma getVideoInfo_miss f now cid w :
  gv_find f = false → gv_save f = false →
  (getVideoInfo f now cid w).1 = None →
  all_inactive cid (catalog (getVideoInfo f now cid w).2) ∧
  (catalog (getVideoInfo f now cid w).2 = catalog w ∨
   catalog (getVideoInfo f now cid w).2 =
     save_paths (with_isActive false) cid (catalog w)).
Proof.
  unfold getVideoInfo. intros -> ->.
  destruct (findOne_active (catalog w) cid) as [r|] eqn:Hr.
  - destruct (localPath r) as [p|]; [destruct (existsSync (files w) p)|]; cbn;
      try done; intros _; (split; [apply all_inactive_deactivated | by right]).
  - intros _. split; [by apply findOne_active_None | by left].
Qed.

Lemma getVideoInfo_hit f now cid w info :
  (getVideoInfo f now cid w).1 = Some info →
  ∃ r, findOne_active (catalog w) cid = Some r ∧
       localPath r = Some (vi_path info) ∧
       is_Some (files w !! vi_path info) ∧
       catalog (getVideoInfo f now cid w).2 =
         save_paths (with_access (accessCount r + 1) now) cid (catalog w).
Proof.
  unfold getVideoInfo. destruct (gv_find f); [done|].
  destruct (findOne_active (catalog w) cid) as [r|] eqn:Hr; [|done].
  destruct (localPath r) as [p|] eqn:Hp; [|by destruct (gv_save f)].
  destruct (existsSync (files w) p) eqn:Hex; [|by destruct (gv_save f)].
  destruct (gv_save f); [done|]. cbn. intros [= <-]. exists r. cbn.
  split_and!; try done. by apply bool_decide_eq_true in Hex.
Qed.

Lemma findOne_active_save_paths g cid c :
  (∀ r, contentId (g r) = contentId r ∧ isActive (g r) = isActive r) →
  findOne_active (save_paths g cid c) cid = g <$> findOne_active c cid.
Proof.
  intros Hg. unfold findOne_active, save_paths. induction c as [|r t IH]; [done|].
  cbn. destruct (has_id cid r) eqn:E.
  - destruct (Hg r) as [H1 H2].
    assert (has_id cid (g r) = true) as ->.
    { apply has_id_true. rewrite H1. by apply has_id_true. }
    rewrite H2. cbn. by destruct (isActive r).
  - rewrite E. cbn. exact IH.
Qed.

(** A hit stays a hit. *)
Lemma getVideoInfo_hit_again f' now now' cid w r p :
  gv_find f' = false → gv_save f' = false →
  findOne_active (catalog w) cid = Some r →
  localPath r = Some p → is_Some (files w !! p) →
  ∀ w1, files w1 = files w →
        catalog w1 = save_paths (with_access (accessCount r + 1) now) cid (catalog w) →
        vi_path <$> (getVideoInfo f' now' cid w1).1 = Some p.
Proof.
  intros Hf Hs Hr Hp Hfile w1 Hfiles Hcat. unfold getVideoInfo.
  rewrite Hf, Hs, Hcat, findOne_active_save_paths, Hr by done. cbn.
  rewrite Hp, Hfiles.
  by rewrite (bool_decide_eq_true_2 _ Hfile : existsSync _ _ = true).
Qed.

Lemma committed_hit f' now' cid path w :
  gv_find f' = false → gv_save f' = false →
  committed cid path w →
  vi_path <$> (getVideoInfo f' now' cid w).1 = Some path.
Proof.
  intros Hf Hs Hc.
  destruct (committed_findOne_active _ _ _ Hc) as (r & Hr & Hp).
  destruct Hc as (_ & _ & Hfile).
  unfold getVideoInfo. rewrite Hf, Hs, Hr, Hp.
  by rewrite (bool_decide_eq_true_2 _ Hfile : existsSync _ _ = true).
Qed.

Lemma match_404 {A} (st : option Z) (a b : A) :
  match st with Some 404 => a | _ => b end =
  if bool_decide (st = Some 404) then a else b.
Proof.
  case_bool_decide as H; [by subst|].
  destruct st as [[|p|p]|]; try done.
  do 9 (destruct p as [p|p|]; try done).
Qed.

(** The ways in which a request ends. *)
Lemma handle_cases cfg e rq w resp w' :
  handle cfg e rq w = Some (resp, w') →
  let looked := getVideoInfo (env_read e) (env_now e) (contentId_of rq) w in
  (∃ info, looked.1 = Some info ∧ w' = looked.2 ∧
     resp = streamVideoFile (files looked.2) (vi_path info) (rq_range rq)) ∨
  (looked.1 = None ∧ w' = looked.2 ∧
   ((∃ msg, env_tmdb e = TmdbError (Some 404) msg ∧
            resp = not_found "Content not found on TMDB") ∨
    (∃ st msg, env_tmdb e = TmdbError st msg ∧ st ≠ Some 404 ∧ resp = failure msg) ∨
    (∃ cd results, env_tmdb e = TmdbData cd results ∧
       findBestTrailer (Some (default [] results)) = Value None ∧
       resp = not_found "No trailer available") ∨
    (∃ cd results, env_tmdb e = TmdbData cd results ∧
       findBestTrailer (Some (default [] results)) = TypeError ∧
       resp = failure (env_thrown e)))) ∨
  (looked.1 = None ∧
   ∃ cd results trailer s t,
     env_tmdb e = TmdbData cd results ∧
     findBestTrailer (Some (default [] results)) = Value (Some trailer) ∧
     run cfg (env_download e)
       (initial looked.2 (env_now e)
          [(contentId_of rq, youtubeUrl_of trailer, metadata_of rq cd)]) = Some s ∧
     st_invocations s = [t] ∧ w' = st_world s ∧
     ((∃ p, inv_pc t = Finished (Ok p) ∧
            resp = streamVideoFile (files (st_world s)) p (rq_range rq)) ∨
      (∃ err, inv_pc t = Finished (Throw err) ∧
              resp = failure (message_of (env_thrown e) err)))).
Proof.
  intros H. cbv zeta. unfold handle in H.
  destruct (getVideoInfo (env_read e) (env_now e) (contentId_of rq) w)
    as [[info|] w1] eqn:Hg; cbn [fst snd].
  { injection H as <- <-. left. by exists info. }
  destruct (env_tmdb e) as [cd results|st msg] eqn:Ht.
  2:{ right; left. rewrite match_404 in H. case_bool_decide as Hst.
      - injection H as <- <-. split_and!; [done | done |]. left. subst st. by exists msg.
      - injection H as <- <-. split_and!; [done | done |]. right; left.
        by exists st, msg. }
  destruct (findBestTrailer (Some (default [] results))) as [[trailer|]|] eqn:Hb.
  - right; right. split; [done|].
    destruct (run cfg (env_download e) _) as [s|] eqn:Hrun; [|done]. cbn in H.
    pose proof (run_length _ _ _ _ Hrun) as Hlen. cbn in Hlen.
    destruct (st_invocations s) as [|t [|]] eqn:Hinvs; try done. cbn in H.
    exists cd, results, trailer, s, t. split_and!; try done.
    + destruct (inv_pc t) as [| | | | | | | | |[p|err]]; try done; by injection H as <- <-.
    + destruct (inv_pc t) as [| | | | | | | | |[p|err]]; try done;
        injection H as <- <-; [left; by exists p | right; by exists err].
  - injection H as <- <-. right; left. split_and!; [done | done |].
    right; right; left. by exists cd, results.
  - injection H as <- <-. right; left. split_and!; [done | done |].
    right; right; right. by exists cd, results.
Qed.

Lemma handle_hit cfg e rq w p :
  vi_path <$> (getVideoInfo (env_read e) (env_now e) (contentId_of rq) w).1 = Some p →
  handle cfg e rq w =
  Some (streamVideoFile (files w) p (rq_range rq),
        (getVideoInfo (env_read e) (env_now e) (contentId_of rq) w).2).
Proof.
  intros H. unfold handle.
  pose proof (getVideoInfo_frame (env_read e) (env_now e) (contentId_of rq) w) as [Hf _].
  destruct (getVideoInfo (env_read e) (env_now e) (contentId_of rq) w)
    as [[info|] w1]; [|done].
  cbn in *. injection H as ->. by rewrite Hf.
Qed.

Lemma served_not_found msg : ¬ served (not_found msg).
Proof. intros [|]; discriminate. Qed.

Lemma served_failure msg : ¬ served (failure msg).
Proof. intros [|]; discriminate. Qed.

Lemma save_paths_keeps (P : TrailerStorage → Prop) g cid c :
  (∀ r, P r → P (g r)) → Forall P c → Forall P (save_paths g cid c).
Proof.
  intros Hg H. unfold save_paths. apply Forall_fmap.
  eapply Forall_impl; [exact H|]. intros r Hr. cbn. destruct (has_id cid r); auto.
Qed.

Lemma deactivate_not_evictable cid c :
  not_evictable cid c → not_evictable cid (save_paths (with_isActive false) cid c).
Proof.
  intros H r Hr Hid. apply elem_of_save_paths in Hr as (r0 & Hin & ->).
  destruct (has_id cid r0); by apply (H r0).
Qed.

Lemma deactivate_paths_own cfg cid c :
  paths_own cfg c → paths_own cfg (save_paths (with_isActive false) cid c).
Proof.
  intros H r Hr. apply elem_of_save_paths in Hr as (r0 & Hin & ->).
  destruct (has_id cid r0); by apply (H r0).
Qed.

Lemma do_resume_sweeps cfg b sw i s s' :
  do_resume cfg b (Some sw) i s = Some s' →
  ∃ t, st_invocations s !! i = Some t ∧ sweeps (inv_pc t) = true.
Proof.
  unfold do_resume. intros H.
  destruct (st_invocations s !! i) as [t|] eqn:Ht; [|discriminate H]. cbn in H.
  do 2 case_guard; cbn in H; try discriminate H.
  exists t. split; [done|]. auto.
Qed.

Lemma step_finished cfg a s s' t r :
  step cfg a s = Some s' →
  st_invocations s = [t] → inv_pc t = Finished r →
  st_invocations s' = [t] ∧ st_world s' = st_world s.
Proof.
  intros Hstep Hinvs Hpc.
  assert (Hres : ∀ b sw i, do_resume cfg b sw i s = Some s' → False).
  { intros b sw i H.
    apply do_resume_Some in H as (t0 & t' & w' & fetch & Ht & Hr & _).
    rewrite Hinvs in Ht. destruct i as [|i]; [|done]. injection Ht as <-.
    unfold resume in Hr. by rewrite Hpc in Hr. }
  destruct a as [ms|i o|i|i|i sw]; cbn [step] in Hstep;
    try (by destruct (Hres _ _ _ Hstep)).
  - case_match; [|done]. by simplify_eq.
  - rewrite Hinvs in Hstep. destruct i as [|i]; [|done]. cbn in Hstep.
    unfold settle in Hstep. rewrite Hpc in Hstep. by destruct o.
Qed.

Lemma step_single cfg c L0 a s s' :
  step cfg a s = Some s' →
  lock_inv L0 s →
  length (st_invocations s) = 1%nat →
  (∃ k, dedup_inv c (getVideoPath cfg c) k s) ∨
    stored_and_returned c (getVideoPath cfg c) s →
  (∃ k, dedup_inv c (getVideoPath cfg c) k s') ∨
    stored_and_returned c (getVideoPath cfg c) s'.
Proof.
  intros Hstep Hlock Hlen [[k Hinv]|((t & Hinvs & Hpc) & Hcat)].
  - assert (Hno : (∃ i sw, a = ResumeSweep i sw) ∨ (∀ i sw, a ≠ ResumeSweep i sw)).
    { destruct a; try (by right); left; by eauto. }
    destruct Hno as [(i & sw & ->)|Hno].
    + right. cbn [step] in Hstep.
      destruct (do_resume_sweeps _ _ _ _ _ _ Hstep) as (t & Ht & Hsw).
      apply do_resume_Some in Hstep as (t0 & t' & w' & fetch & Ht0 & Hr & ->).
      rewrite Ht in Ht0. injection Ht0 as <-.
      destruct Hinv as (_ & _ & ph & (_ & Hw & _) & Htasks).
      destruct (st_invocations s) as [|t1 [|]] eqn:Hinvs; try done.
      destruct i as [|i]; [|done]. injection Ht as ->.
      apply Forall_cons in Htasks as [Htask _]. unfold task_ok in Htask.
      destruct (inv_pc t) as [| | | | | | | |? ? [[result|]|]|] eqn:Hpc; try done.
      destruct Htask as [-> Hp].
      unfold resume in Hr. rewrite Hpc, Hp in Hr. injection Hr as <- <- <-.
      destruct (cleanupTempFiles_frame sw (st_now s) (st_world s)) as (Hcat & _).
      destruct Hw as (Hex & Hst & _).
      split; [by eexists|]. cbn [st_world].
      by destruct (inv_lockAcquired t); cbn [catalog set_locks]; rewrite ?Hcat.
    + left. exists (if fetch_fault a then S k else k).
      eapply step_dedup_inv; try done. by right.
  - right. destruct (step_finished _ _ _ _ _ _ Hstep Hinvs Hpc) as [Hi Hw].
    destruct Hcat as [Hex Hst]. rewrite <- Hw in Hex, Hst. split; [by exists t|done].
Qed.

Lemma run_single cfg c L0 acts s s' :
  run cfg acts s = Some s' →
  lock_inv L0 s →
  length (st_invocations s) = 1%nat →
  (∃ k, dedup_inv c (getVideoPath cfg c) k s) ∨
    stored_and_returned c (getVideoPath cfg c) s →
  (∃ k, dedup_inv c (getVideoPath cfg c) k s') ∨
    stored_and_returned c (getVideoPath cfg c) s'.
Proof.
  revert s. induction acts as [|a rest IH]; intros s Hrun Hlock Hlen H; cbn in Hrun.
  - by simplify_eq.
  - destruct (step cfg a s) as [s1|] eqn:Hs; [|done].
    apply (IH s1 Hrun).
    + by eapply step_lock_inv.
    + by rewrite (step_length _ _ _ _ Hs).
    + by eapply step_single.
Qed.

Lemma served_exists fs p range :
  served (StreamServer.streamVideoFile fs p range) → is_Some (fs !! p).
Proof.
  unfold StreamServer.streamVideoFile. intros H.
  destruct (fs !! p); [by eexists|]. destruct H as [H|H]; discriminate H.
Qed.

(** What a download that returned has committed. *)
Lemma download_returned_committed cfg w1 now cid url m acts s t p :
  all_inactive cid (catalog w1) → not_evictable cid (catalog w1) →
  paths_own cfg (catalog w1) → priority_or_1 m ≠ 1 →
  run cfg acts (initial w1 now [(cid, url, m)]) = Some s →
  st_invocations s = [t] → inv_pc t = Finished (Ok p) →
  is_Some (files (st_world s) !! p) →
  p = getVideoPath cfg cid ∧ committed cid p (st_world s).
Proof.
  intros Hin Hne Hpo Hprio Hrun Hinvs Hpc Hfile.
  assert (Hreq : requests_ok cid [(cid, url, m)]) by (by repeat constructor).
  destruct (run_single cfg cid _ _ _ _ Hrun (initial_lock_inv w1 now _) eq_refl)
    as [[k Hinv]|((t0 & Hinvs0 & Hpc0) & Hex & Hst)].
  - left. exists 0%nat.
    exact (initial_dedup_inv cfg cid w1 now _ Hreq Hin
             (paths_own_catalog_ok cfg cid _ Hne Hpo)).
  - destruct Hinv as (_ & _ & ph & (_ & Hw & _) & Htasks).
    rewrite Hinvs in Htasks. apply Forall_cons in Htasks as [Ht _].
    unfold task_ok in Ht. rewrite Hpc in Ht. destruct Ht as [-> ->]. done.
  - rewrite Hinvs in Hinvs0. injection Hinvs0 as <-.
    rewrite Hpc in Hpc0. injection Hpc0 as ->. done.
Qed.

(** Every request is answered with one of four statuses, and leaves the
    lock table as it found it, whatever the catalog, the TMDB worker and
    the download did. *)
Theorem handler_answers (cfg : config) (e : environment) (rq : http_request)
    (w w' : world) (resp : response) :
  handle cfg e rq w = Some (resp, w') →
  (status_of resp = 200 ∨ status_of resp = 206 ∨
   status_of resp = 404 ∨ status_of resp = 500) ∧
  locks w' = locks w.
Proof.
  intros H. apply handle_cases in H. cbv zeta in H.
  pose proof (getVideoInfo_frame (env_read e) (env_now e) (contentId_of rq) w)
    as [_ Hl].
  assert (Hstream : ∀ fs p range,
    status_of (streamVideoFile fs p range) = 200 ∨
    status_of (streamVideoFile fs p range) = 206 ∨
    status_of (streamVideoFile fs p range) = 404 ∨
    status_of (streamVideoFile fs p range) = 500).
  { intros fs p range. destruct (stream_status fs p range) as [|[| ->]]; auto. }
  destruct H as [(info & _ & -> & ->)|[(_ & -> & H)|(_ & H)]].
  - split; [apply Hstream | done].
  - split; [|done].
    destruct H as [(? & _ & ->)|[(? & ? & _ & _ & ->)|[(? & ? & _ & _ & ->)|
                   (? & ? & _ & _ & ->)]]]; cbn; auto.
  - destruct H as (cd & results & trailer & s & t & _ & _ & Hrun & Hinvs & -> & H).
    split.
    + destruct H as [(p & _ & ->)|(err & _ & ->)]; [apply Hstream | cbn; auto].
    + rewrite <- Hl. apply (run_locks_restored _ _ _ _ _ _ Hrun).
      unfold all_finished. rewrite Hinvs. constructor; [|constructor].
      by destruct H as [(p & -> & _)|(err & -> & _)].
Qed.

Lemma handler_answers_witness :
  match handle cfg first_visit movie_request empty_world with
  | Some (resp, w') =>
      (status_of resp = 200 ∨ status_of resp = 206 ∨
       status_of resp = 404 ∨ status_of resp = 500) ∧
      locks w' = locks empty_world
  | None => False
  end.
Proof.
  assert (Hst : (λ x, status_of x.1) <$> handle cfg first_visit movie_request empty_world =
                Some 200) by (vm_compute; reflexivity).
  remember (handle cfg first_visit movie_request empty_world) as h eqn:Hh.
  destruct h as [[resp w']|]; [|discriminate Hst].
  apply (handler_answers cfg first_visit movie_request empty_world w' resp).
  symmetry. exact Hh.
Defined.

(** A request is answered 404 only when no trailer can be had: the TMDB
    worker answered 404, or its list holds no YouTube video.  Nothing
    has been downloaded then; a missing file or a failed download is
    never answered 404. *)
Theorem handler_not_found (cfg : config) (e : environment) (rq : http_request)
    (w w' : world) (resp : response) :
  handle cfg e rq w = Some (resp, w') →
  status_of resp = 404 →
  ((∃ msg, env_tmdb e = TmdbError (Some 404) msg) ∨
   (∃ cd results, env_tmdb e = TmdbData cd results ∧
                  ∀ v, v ∈ default [] results → ¬ on_youtube v)) ∧
  w' = (getVideoInfo (env_read e) (env_now e) (contentId_of rq) w).2 ∧
  files w' = files w.
Proof.
  intros H Hst. apply handle_cases in H. cbv zeta in H.
  pose proof (getVideoInfo_frame (env_read e) (env_now e) (contentId_of rq) w)
    as [Hf _].
  assert (Hstream : ∀ fs p range, status_of (streamVideoFile fs p range) ≠ 404).
  { intros fs p range. by destruct (stream_status fs p range) as [->|[->| ->]]. }
  destruct H as [(info & _ & -> & ->)|[(_ & -> & H)|(_ & H)]].
  - by destruct (Hstream _ _ _ Hst).
  - split; [|done].
    destruct H as [(msg & Ht & ->)|[(? & ? & _ & _ & ->)|[(cd & results & Ht & Hb & ->)|
                   (? & ? & _ & _ & ->)]]]; try done.
    + left. by exists msg.
    + right. exists cd, results. split; [done|].
      by apply (findBestTrailer_None (Some (default [] results))).
  - destruct H as (cd & results & trailer & s & t & _ & _ & _ & _ & -> & H).
    destruct H as [(p & _ & ->)|(err & _ & ->)]; [|done].
    by destruct (Hstream _ _ _ Hst).
Qed.

Lemma handler_not_found_witness :
  (∃ msg, env_tmdb (quiet (TmdbError (Some 404) "Request failed") []) =
          TmdbError (Some 404) msg) ∨
  (∃ cd results,
     env_tmdb (quiet (TmdbError (Some 404) "Request failed") []) = TmdbData cd results ∧
     ∀ v, v ∈ default [] results → ¬ on_youtube v).
Proof.
  apply (handler_not_found cfg (quiet (TmdbError (Some 404) "Request failed") [])
           movie_request empty_world empty_world
           (not_found "Content not found on TMDB") eq_refl eq_refl).
Defined.

(** After a request that was served, the next request for the same title
    is a cache hit: provided the catalog reads meet no fault, the id has
    no entry eligible for eviction and every entry points at its own
    store path, the next request streams a file that exists, without
    asking TMDB and without a download. *)
Theorem handler_served_then_hit (cfg : config) (e e' : environment) (rq : http_request)
    (range' : option string) (w w' : world) (resp : response) :
  gv_find (env_read e) = false → gv_save (env_read e) = false →
  gv_find (env_read e') = false → gv_save (env_read e') = false →
  not_evictable (contentId_of rq) (catalog w) →
  paths_own cfg (catalog w) →
  handle cfg e rq w = Some (resp, w') →
  served resp →
  ∃ p,
    is_Some (files w' !! p) ∧
    handle cfg e' {| rq_type := rq_type rq; rq_id := rq_id rq; rq_range := range' |} w' =
    Some (streamVideoFile (files w') p range',
          (getVideoInfo (env_read e') (env_now e') (contentId_of rq) w').2).
Proof.
  intros Hf Hs Hf' Hs' Hne Hpo H Hserved.
  apply handle_cases in H. cbv zeta in H.
  pose proof (getVideoInfo_frame (env_read e) (env_now e) (contentId_of rq) w)
    as [Hfiles _].
  destruct H as [(info & Hhit & -> & ->)|[(_ & -> & H)|(Hmiss & H)]].
  - apply getVideoInfo_hit in Hhit as (r & Hr & Hp & Hfile & Hcat).
    exists (vi_path info). split; [by rewrite Hfiles|].
    apply (handle_hit cfg e' {| rq_type := rq_type rq; rq_id := rq_id rq;
                                rq_range := range' |}).
    by eapply getVideoInfo_hit_again.
  - exfalso.
    destruct H as [(? & _ & ->)|[(? & ? & _ & _ & ->)|[(? & ? & _ & _ & ->)|
                   (? & ? & _ & _ & ->)]]];
      first [by eapply served_not_found | by eapply served_failure].
  - destruct H as (cd & results & trailer & s & t & _ & _ & Hrun & Hinvs & -> & H).
    destruct H as [(p & Hpc & ->)|(err & _ & ->)];
      [|by destruct (served_failure _ Hserved)].
    destruct (getVideoInfo_miss _ (env_now e) (contentId_of rq) w Hf Hs Hmiss)
      as [Hin Hcat].
    assert (Hne1 : not_evictable (contentId_of rq)
              (catalog (getVideoInfo (env_read e) (env_now e) (contentId_of rq) w).2)).
    { destruct Hcat as [-> | ->]; [done | by apply deactivate_not_evictable]. }
    assert (Hpo1 : paths_own cfg
              (catalog (getVideoInfo (env_read e) (env_now e) (contentId_of rq) w).2)).
    { destruct Hcat as [-> | ->]; [done | by apply deactivate_paths_own]. }
    assert (Hprio : priority_or_1 (metadata_of rq cd) ≠ 1) by done.
    destruct (download_returned_committed cfg _ _ _ _ _ _ s t p Hin Hne1 Hpo1 Hprio
                Hrun Hinvs Hpc (served_exists _ _ _ Hserved)) as [-> Hc].
    exists (getVideoPath cfg (contentId_of rq)). split; [by destruct Hc as (_ & _ & ?)|].
    apply (handle_hit cfg e' {| rq_type := rq_type rq; rq_id := rq_id rq;
                                rq_range := range' |}).
    by apply committed_hit.
Qed.

Lemma handler_served_then_hit_witness :
  match handle cfg first_visit movie_request empty_world with
  | Some (resp, w') =>
      ∃ p,
        is_Some (files w' !! p) ∧
        handle cfg (quiet (TmdbError None "unreachable") [])
          {| rq_type := "movie"; rq_id := "550"; rq_range := Some "bytes=0-0" |} w' =
        Some (streamVideoFile (files w') p (Some "bytes=0-0"),
              (getVideoInfo no_read_faults 1000 "movie_550" w').2)
  | None => False
  end.
Proof.
  assert (Hst : (λ x, status_of x.1) <$> handle cfg first_visit movie_request empty_world =
                Some 200) by (vm_compute; reflexivity).
  remember (handle cfg first_visit movie_request empty_world) as h eqn:Hh.
  destruct h as [[resp w']|]; [|discriminate Hst].
  injection Hst as Hst.
  apply (handler_served_then_hit cfg first_visit
           (quiet (TmdbError None "unreachable") []) movie_request
           (Some "bytes=0-0") empty_world w' resp).
  - reflexivity.
  - reflexivity.
  - reflexivity.
  - reflexivity.
  - intros r Hr. apply elem_of_nil in Hr. destruct Hr.
  - intros r Hr. apply elem_of_nil in Hr. destruct Hr.
  - symmetry. exact Hh.
  - left. exact Hst.
Defined.

Lemma save_paths_priority g cid c :
  (∀ r, priority (g r) = priority r) →
  no_low_priority c → no_low_priority (save_paths g cid c).
Proof.
  intros Hg H r Hr. apply elem_of_save_paths in Hr as (r0 & Hin & ->).
  destruct (has_id cid r0); [rewrite Hg|]; by apply H.
Qed.

Lemma checkAndCleanup_priority cfg f w :
  no_low_priority (catalog w) → no_low_priority (catalog (checkAndCleanup cfg f w)).
Proof. by rewrite checkAndCleanup_catalog. Qed.

Lemma upsert_priority cid m p mb now c :
  priority_or_1 m ≠ 1 → no_low_priority c → no_low_priority (upsert cid m p mb now c).
Proof.
  intros Hm H. unfold upsert. destruct (findOne c cid).
  - by apply save_paths_priority.
  - intros r Hr. apply elem_of_app in Hr as [Hr|Hr%list_elem_of_singleton].
    + by apply H.
    + by subst.
Qed.

Lemma saveVideo_txn_priority cfg f now cid m p size w :
  priority_or_1 m ≠ 1 → no_low_priority (catalog w) →
  no_low_priority (catalog (saveVideo_txn cfg f now cid m p size w).2).
Proof.
  intros Hm H. unfold saveVideo_txn.
  destruct (sv_fault_at f); try destruct (sv_abort f); cbn; try done;
    apply checkAndCleanup_priority; cbn; by apply upsert_priority.
Qed.

Lemma settle_priority cfg now o t w t' w' :
  settle cfg now o t w = Some (t', w') →
  priority_or_1 (inv_metadata t) ≠ 1 → no_low_priority (catalog w) →
  no_low_priority (catalog w') ∧ inv_metadata t' = inv_metadata t.
Proof.
  unfold settle. intros H Hm Hc.
  destruct (inv_pc t) as [|[]|[]| | |[]|? []| |? ? []|]; destruct o; try discriminate;
    simplify_eq; try done.
  - destruct rejects; simplify_eq; [done|]. split; [|done]. cbn.
    by apply save_paths_priority.
  - destruct written; by simplify_eq.
  - pose proof (saveVideo_txn_priority cfg f now (inv_contentId t) (inv_metadata t)
                  finalPath size w Hm Hc) as Hc'.
    destruct (saveVideo_txn cfg f now (inv_contentId t) (inv_metadata t) finalPath size w)
      as [r w1] eqn:Htxn.
    by simplify_eq.
Qed.

Lemma step_priority cfg a s s' :
  step cfg a s = Some s' →
  Forall (λ t, priority_or_1 (inv_metadata t) ≠ 1) (st_invocations s) →
  no_low_priority (catalog (st_world s)) →
  Forall (λ t, priority_or_1 (inv_metadata t) ≠ 1) (st_invocations s') ∧
  no_low_priority (catalog (st_world s')).
Proof.
  intros Hstep Hm Hc.
  assert (Hres : ∀ b sw i, do_resume cfg b sw i s = Some s' →
    Forall (λ t, priority_or_1 (inv_metadata t) ≠ 1) (st_invocations s') ∧
    no_low_priority (catalog (st_world s'))).
  { intros b sw i H.
    apply do_resume_Some in H as (t & t' & w' & fetch & Ht & Hr & ->). cbn.
    destruct (resume_catalog _ _ _ _ _ _ _ _ _ Hr) as (-> & _ & Hmeta).
    split; [|done]. apply Forall_insert; [done|]. rewrite Hmeta.
    eapply Forall_forall in Hm; [done|]. by eapply list_elem_of_lookup_2. }
  destruct a as [ms|i o|i|i|i sw]; cbn in Hstep; eauto.
  - case_match; [|done]. by simplify_eq.
  - destruct (st_invocations s !! i) as [t|] eqn:Ht; [|done]. cbn in Hstep.
    destruct (settle cfg (st_now s) o t (st_world s)) as [[t' w']|] eqn:Hr; [|done].
    cbn in Hstep. simplify_eq. cbn.
    assert (Hmt : priority_or_1 (inv_metadata t) ≠ 1).
    { eapply Forall_forall in Hm; [done|]. by eapply list_elem_of_lookup_2. }
    destruct (settle_priority _ _ _ _ _ _ _ Hr Hmt Hc) as [Hc' Hmeta].
    split; [|done]. apply Forall_insert; [done|]. by rewrite Hmeta.
Qed.

Lemma run_priority cfg acts s s' :
  run cfg acts s = Some s' →
  Forall (λ t, priority_or_1 (inv_metadata t) ≠ 1) (st_invocations s) →
  no_low_priority (catalog (st_world s)) →
  no_low_priority (catalog (st_world s')).
Proof.
  revert s. induction acts as [|a rest IH]; intros s Hrun Hm Hc; cbn in Hrun.
  - by simplify_eq.
  - destruct (step cfg a s) as [s1|] eqn:Hs; [|done].
    destruct (step_priority _ _ _ _ Hs Hm Hc). by eapply IH.
Qed.

Lemma getVideoInfo_priority f now cid w :
  no_low_priority (catalog w) →
  no_low_priority (catalog (getVideoInfo f now cid w).2).
Proof.
  intros H. unfold getVideoInfo.
  repeat case_match; cbn; try done; by apply save_paths_priority.
Qed.

Lemma cleanup_no_candidates f w :
  (∀ r, r ∈ catalog w → isActive r = true → priority r ≠ 1) →
  cleanup f w = (0%nat, w).
Proof.
  intros H. unfold cleanup. destruct (cl_find f); [done|].
  assert (Hc : candidates f (catalog w) = []); [|by rewrite Hc].
  unfold candidates.
  assert (Hf : List.filter is_candidate (catalog w) = []); [|by rewrite Hf].
  induction (catalog w) as [|r c IH]; [done|]. cbn.
  assert (Hr : is_candidate r = false).
  { unfold is_candidate. destruct (isActive r) eqn:Ha; [|done]. cbn.
    apply Z.eqb_neq. apply H; [by left | done]. }
  rewrite Hr. apply IH. intros r' Hr'. apply H. by right.
Qed.

(** [cleanup] removes entries of priority 1 only: when the catalog holds
    no active entry of that priority, it deletes no file and changes no
    entry, and so does the capacity check, however full the store is. *)
Theorem cleanup_needs_priority_1 (cfg : config) (f : cl_faults) (w : world) :
  (∀ r, r ∈ catalog w → isActive r = true → priority r ≠ 1) →
  cleanup f w = (0%nat, w) ∧ checkAndCleanup cfg f w = w.
Proof.
  intros H. split; [by apply cleanup_no_candidates|].
  unfold checkAndCleanup. rewrite cleanup_no_candidates by done.
  by destruct (near_limit _ _).
Qed.

Lemma cleanup_needs_priority_1_witness :
  cleanup no_cleanup_faults hit_world = (0%nat, hit_world).
Proof.
  apply (cleanup_needs_priority_1 cfg no_cleanup_faults hit_world).
  intros r Hr _. apply list_elem_of_singleton in Hr as ->. cbn. lia.
Defined.

(** The route never makes an entry that [cleanup] can remove: it passes
    priority 2 with every download, so a catalog without entries of
    priority 1 stays one through any request, and a cleanup that follows
    removes nothing. *)
Theorem handler_entries_are_never_evicted (cfg : config) (e : environment)
    (rq : http_request) (w w' : world) (resp : response) :
  no_low_priority (catalog w) →
  handle cfg e rq w = Some (resp, w') →
  no_low_priority (catalog w') ∧
  ∀ f, cleanup f w' = (0%nat, w').
Proof.
  intros Hc H.
  assert (Hc' : no_low_priority (catalog w')).
  { apply handle_cases in H. cbv zeta in H.
    pose proof (getVideoInfo_priority (env_read e) (env_now e) (contentId_of rq) w Hc)
      as Hc1.
    destruct H as [(info & _ & -> & _)|[(_ & -> & _)|(_ & H)]]; [done | done |].
    destruct H as (cd & results & trailer & s & t & _ & _ & Hrun & _ & -> & _).
    apply (run_priority _ _ _ _ Hrun); [|done].
    cbn. by repeat constructor. }
  split; [done|]. intros f. apply cleanup_no_candidates.
  intros r Hr _. by apply Hc'.
Qed.

Lemma handler_entries_witness :
  match handle cfg first_visit movie_request empty_world with
  | Some (resp, w') => cleanup no_cleanup_faults w' = (0%nat, w')
  | None => False
  end.
Proof.
  assert (Hst : (λ x, status_of x.1) <$> handle cfg first_visit movie_request empty_world =
                Some 200) by (vm_compute; reflexivity).
  remember (handle cfg first_visit movie_request empty_world) as h eqn:Hh.
  destruct h as [[resp w']|]; [|discriminate Hst].
  apply (handler_entries_are_never_evicted cfg first_visit movie_request empty_world
           w' resp).
  - intros r Hr. apply elem_of_nil in Hr. destruct Hr.
  - symmetry. exact Hh.
Defined.

End trailer_route.

(* ================================================================== *)
(** * Properties of the router and of the temp directory *)
(* ================================================================== *)

Section routing.
Import TrailerRoutes.

(** A segment that a parameter refuses is empty, and no literal of the
    routes matches it. *)
Lemma literal_needs_segment l s :
  l ≠ EmptyString → segment_matches Param s = false →
  segment_matches (Lit l) s = false.
Proof.
  intros Hl Hs. cbn in Hs. apply negb_false_iff, String.eqb_eq in Hs. subst s.
  destruct l; [done|]. reflexivity.
Qed.

Lemma dispatch_two decodes m a b :
  dispatch decodes m [a; b] =
  if segment_matches Param a && segment_matches Param b then
    if decodes a && decodes b then
      match m with
      | GET => Handled Trailer
      | POST =>
          if segment_matches (Lit "storage") a && segment_matches (Lit "cleanup") b
          then Handled StorageCleanup else Unmatched
      end
    else BadRequest
  else Unmatched.
Proof.
  unfold dispatch, routes.
  cbn [route_loop fst snd path_matches params forallb].
  rewrite ?andb_false_r, ?andb_true_r.
  destruct (segment_matches Param a) eqn:Ea; cbn [andb].
  - destruct (segment_matches Param b) eqn:Eb.
    + destruct (decodes a && decodes b); cbn [negb].
      * destruct m; cbn [method_eqb]; [done|].
        by repeat (case_match; cbn [negb]).
      * by repeat (case_match; cbn [negb]).
    + rewrite !(literal_needs_segment _ b) by done.
      by rewrite !andb_false_r.
  - by rewrite !(literal_needs_segment _ a) by done.
Qed.

Lemma dispatch_other decodes m path :
  length path ≠ 2%nat →
  dispatch decodes m path = Handled Health ∨ dispatch decodes m path = Unmatched.
Proof.
  intros Hlen. unfold dispatch, routes.
  destruct path as [|a [|b [|c rest]]]; [| |done|];
    cbn [route_loop fst snd path_matches params forallb andb negb];
    rewrite ?andb_false_r, ?andb_true_r; auto.
  destruct (segment_matches (Lit "health") a); cbn [negb]; [|auto].
  destruct m; cbn [method_eqb]; auto.
Qed.

(** The route of the trailer handler, [/:type/:id], is registered before
    [/storage/status] and [/list/local] and matches every path that they
    match.  So no request reaches the handlers of [GET /storage/status]
    and [GET /list/local]: every GET request with a path of two segments
    is answered by the trailer handler, which takes [/list/local] for the
    trailer of the id [local] of the type [list], or is refused by the
    router, when one of the two segments cannot be decoded. *)
Theorem trailer_route_shadows (decodes : string → bool) (m : method)
    (path : list string) :
  dispatch decodes m path ≠ Handled ListLocal ∧
  dispatch decodes m path ≠ Handled StorageStatus ∧
  (∀ type id, type ≠ "" → id ≠ "" →
     dispatch decodes GET [type; id] =
     if decodes type && decodes id then Handled Trailer else BadRequest).
Proof.
  assert (Hnot : ∀ e, e = ListLocal ∨ e = StorageStatus →
                 dispatch decodes m path ≠ Handled e).
  { intros e He Hd.
    destruct (decide (length path = 2%nat)) as [Hlen|Hlen].
    - destruct path as [|a [|b [|c rest]]]; try discriminate Hlen.
      rewrite dispatch_two in Hd.
      destruct m; repeat case_match; destruct He; congruence.
    - destruct (dispatch_other decodes m path Hlen) as [H|H]; rewrite H in Hd;
        destruct He; congruence. }
  split_and!.
  - apply Hnot. by left.
  - apply Hnot. by right.
  - intros type id Ht Hi. rewrite dispatch_two. cbn [segment_matches].
    by rewrite (proj2 (String.eqb_neq type "") Ht), (proj2 (String.eqb_neq id "") Hi).
Qed.

Lemma trailer_route_shadows_witness :
  dispatch no_percent GET ["list"; "local"] = Handled Trailer ∧
  dispatch no_percent GET ["storage"; "status"] = Handled Trailer.
Proof.
  split.
  - apply (proj2 (proj2 (trailer_route_shadows no_percent GET []))); discriminate.
  - apply (proj2 (proj2 (trailer_route_shadows no_percent GET []))); discriminate.
Defined.

End routing.

Section temp_sweep.
Import TempSweep.

Lemma sweep_sublist f now l : sweep f now l `sublist_of` l.
Proof.
  induction l as [|e rest IH]; [done|]. cbn.
  destruct (sw_stat f (d_name e)); [done|].
  destruct (expired now e).
  - destruct (sw_remove f (d_name e)); [done|]. by apply sublist_cons.
  - by apply sublist_skip.
Qed.

Lemma sweep_spares f now l e :
  e ∈ l → expired now e = false → e ∈ sweep f now l.
Proof.
  induction l as [|x rest IH]; intros Hin He; [by apply elem_of_nil in Hin|].
  cbn. destruct (sw_stat f (d_name x)); [done|].
  apply elem_of_cons in Hin as [->|Hin].
  - rewrite He. by left.
  - destruct (expired now x).
    + destruct (sw_remove f (d_name x)); [by right | by apply IH].
    + right. by apply IH.
Qed.

Lemma sweep_no_faults f now l :
  (∀ n, sw_stat f n = false) → (∀ n, sw_remove f n = false) →
  sweep f now l = List.filter (λ e, negb (expired now e)) l.
Proof.
  intros Hs Hr. induction l as [|e rest IH]; [done|]. cbn.
  rewrite Hs. destruct (expired now e); cbn; [by rewrite Hr | by rewrite IH].
Qed.

(** [cleanupTempFiles] never removes what was modified within the last
    hour, whatever fails on the way: every entry whose age is at most
    3600000 ms is still in the directory afterwards, so the output file
    of a download in progress is safe from the sweep.  The sweep removes
    entries only, and when nothing fails it removes exactly those older
    than an hour. *)
Theorem cleanupTempFiles_spares_recent (f : sweep_faults) (now : Z)
    (l : list dirent) :
  (∀ e, e ∈ l → (inject_Z now - d_mtimeMs e <= inject_Z 3600000)%Q →
        e ∈ cleanupTempFiles f now l) ∧
  cleanupTempFiles f now l `sublist_of` l ∧
  (sw_readdir f = false → (∀ n, sw_stat f n = false) → (∀ n, sw_remove f n = false) →
   cleanupTempFiles f now l = List.filter (λ e, negb (expired now e)) l).
Proof.
  unfold cleanupTempFiles. split_and!.
  - intros e Hin Hage. destruct (sw_readdir f); [done|].
    apply sweep_spares; [done|]. unfold expired.
    apply negb_false_iff. by apply Qle_bool_iff.
  - destruct (sw_readdir f); [done | apply sweep_sublist].
  - intros -> Hs Hr. by apply sweep_no_faults.
Qed.

End temp_sweep.

Section temp_names.
Import DownloadService.

Lemma substring0_length n s :
  String.length (substring0 n s) = (n `min` String.length s)%nat.
Proof.
  revert s. induction n as [|n IH]; intros [|c s]; cbn; try done.
  by rewrite IH.
Qed.

Lemma sanitize_length s : String.length (sanitize s) = String.length s.
Proof. induction s as [|c s IH]; cbn; [done | by rewrite IH]. Qed.

Lemma sanitize_chars s :
  Forall (λ c, is_word_or_space c = true) (String.list_ascii_of_string (sanitize s)).
Proof.
  induction s as [|c s IH]; cbn; [constructor|].
  constructor; [|done]. by destruct (is_word_or_space c) eqn:E.
Qed.

Lemma substring0_chars (P : ascii → Prop) n s :
  Forall P (String.list_ascii_of_string s) →
  Forall P (String.list_ascii_of_string (substring0 n s)).
Proof.
  revert s. induction n as [|n IH]; intros [|c s] H; cbn; try constructor.
  - by apply Forall_cons in H as [? _].
  - apply IH. by apply Forall_cons in H as [_ ?].
Qed.

Lemma word_or_space_not_special c :
  is_word_or_space c = true → shell_special c = false.
Proof.
  destruct c as [[] [] [] [] [] [] [] []]; try reflexivity; discriminate.
Qed.

(** The name that [downloadYouTubeMP4] makes of a title (here in the
    ASCII range) holds its first 50 characters, each of them a letter, a
    digit, an underscore or white space, every other character being
    replaced by an underscore: no slash, backslash, double quote, dollar
    sign or backquote of the title reaches the temp path or the command
    line. *)
Theorem safeTitle_is_plain (title : string) :
  all_ascii title →
  String.length (safeTitle title) = (50 `min` String.length title)%nat ∧
  Forall (λ c, is_word_or_space c = true ∧ shell_special c = false)
    (String.list_ascii_of_string (safeTitle title)).
Proof.
  intros _. unfold safeTitle. split.
  - by rewrite substring0_length, sanitize_length.
  - eapply Forall_impl; [apply substring0_chars, sanitize_chars|].
    intros c Hc. split; [done | by apply word_or_space_not_special].
Qed.

Lemma safeTitle_is_plain_witness :
  String.length (safeTitle "Fight Club: the $1 `cut`") = 24%nat ∧
  Forall (λ c, is_word_or_space c = true ∧ shell_special c = false)
    (String.list_ascii_of_string (safeTitle "Fight Club: the $1 `cut`")).
Proof.
  apply (safeTitle_is_plain "Fight Club: the $1 `cut`").
  unfold all_ascii. cbn. repeat constructor.
Defined.

End temp_names.
